(** * go-adstxt-crawler: a shallow embedding of [adstxt.go]

    The file embeds the three functions of [adstxt.go] ([ParseBody] with
    its custom split function, [Get] and [GetMultiple]) together with the
    part of Go's [bufio.Scanner] and [bytes.Reader] that [ParseBody]
    drives, and proves the properties the specification states about
    them.

    Go values are represented as follows: [int] is [Z]; [[]byte] is
    [list byte]; [string] is [string]; a pointer that may be [nil] is an
    [option]; an [error] value is [option error] with [None] for [nil];
    a Go function with several results returns a tuple. *)

From Stdlib Require Import String Ascii Strings.Byte.
From Stdlib Require Import List ZArith Lia Bool Arith.
Import ListNotations.

Local Open Scope Z_scope.

(** ** Errors *)

(** The error values that can flow through [ParseBody] and [Get]: the
    sentinel errors of [io] and [bufio], the errors [Get] builds itself
    with [fmt.Errorf] (format constant and arguments kept apart), and the
    errors handed back by the crawler's methods. *)
Inductive error : Type :=
| EOF                                   (* io.EOF *)
| ErrNoProgress                         (* io.ErrNoProgress *)
| ErrTooLong                            (* bufio.ErrTooLong *)
| ErrNegativeAdvance                    (* bufio.ErrNegativeAdvance *)
| ErrAdvanceTooFar                      (* bufio.ErrAdvanceTooFar *)
| ErrBadReadCount                       (* bufio.ErrBadReadCount *)
| ErrFinalToken                         (* bufio.ErrFinalToken *)
| Errorf (format : string) (args : list string)   (* fmt.Errorf(format, args...) *)
| ErrCrawler (msg : string).            (* an error of a crawler method *)

Definition is_nil {A} (o : option A) : bool :=
  match o with None => true | Some _ => false end.

(** [err == io.EOF] and [err == ErrFinalToken] *)
Definition is_EOF (o : option error) : bool :=
  match o with Some EOF => true | _ => false end.

Definition is_ErrFinalToken (e : error) : bool :=
  match e with ErrFinalToken => true | _ => false end.

(** ** Byte slices *)

Definition CR : byte := x0d.
Definition LF : byte := x0a.

(** [len(data)] *)
Definition len {A} (data : list A) : Z := Z.of_nat (length data).

(** [data[i:j]], for [0 <= i <= j <= len(data)] *)
Definition slice {A} (data : list A) (i j : Z) : list A :=
  firstn (Z.to_nat (j - i)) (skipn (Z.to_nat i) data).

(** [data[i]], for [0 <= i < len(data)] *)
Definition at_index (data : list byte) (i : Z) : byte :=
  nth (Z.to_nat i) data x00.

(** [bytes.IndexAny(data, "\r\n")]: the index of the first byte of
    [data] that is a carriage return or a line feed, [-1] when there is
    none. *)
Fixpoint IndexAny_CRLF (data : list byte) : Z :=
  match data with
  | [] => -1
  | c :: rest =>
      if Byte.eqb c CR || Byte.eqb c LF then 0
      else let i := IndexAny_CRLF rest in
           if i <? 0 then -1 else i + 1
  end.

(** ** The split function of [ParseBody] (adstxt.go, lines 105-126) *)

(** The three results are [advance], [token] ([None] is the [nil]
    slice) and [err]. *)
Definition split (data : list byte) (atEOF : bool)
  : Z * option (list byte) * option error :=
  if atEOF && (len data =? 0) then (0, None, None)
  else
    let i := IndexAny_CRLF data in
    if i >=? 0 then
      if Byte.eqb (at_index data i) LF then
        (* a line terminated by a single newline *)
        (i + 1, Some (slice data 0 i), None)
      else
        let advance := i + 1 in
        let advance :=
          if (len data >? i + 1) && Byte.eqb (at_index data (i + 1)) LF
          then advance + 1 else advance in
        (advance, Some (slice data 0 i), None)
    else if atEOF then
      (* a final, non-terminated line *)
      (len data, Some data, None)
    else
      (* request more data *)
      (0, None, None).

(** ** [bytes.Reader] and [bufio.Scanner] *)

(** [ParseBody] reads its lines with a scanner of Go's standard library
    over a reader of the input.  What follows is [Reader.Read] of
    [bytes/reader.go] and, of [bufio/scan.go], the constants, [setErr],
    [Err], [advance], [Scan] and [Text]. *)

Definition MaxScanTokenSize : Z := 64 * 1024.
Definition startBufSize : Z := 4096.
Definition maxInt : Z := 2 ^ 63 - 1.

(** [bytes.Reader.Read]: a reader over the unread bytes [r], asked to
    fill a destination of [n] bytes.  It answers [(0, io.EOF)] when
    nothing is left to read and otherwise copies as much as fits.  The
    results are the bytes copied, the bytes still unread, and the
    error. *)
Definition Reader_Read (r : list byte) (n : Z)
  : list byte * list byte * option error :=
  match r with
  | [] => ([], [], Some EOF)
  | _ => (firstn (Z.to_nat n) r, skipn (Z.to_nat n) r, None)
  end.

(** The scanner.  Of the buffer [s.buf] only its length [buf_len] and
    the window [s.buf[s.start:s.end]], here [window], are kept: no other
    byte of the buffer is ever read.  [s.end] is [start + len window]. *)
Record Scanner : Type := mkScanner {
  r : list byte;                 (* the unread part of the bytes.Reader *)
  maxTokenSize : Z;
  token : option (list byte);
  buf_len : Z;
  start : Z;
  window : list byte;
  err : option error;
  empties : Z;
  done : bool
}.

Definition s_end (s : Scanner) : Z := start s + len (window s).

(** [bufio.NewScanner(bytes.NewReader(b))] followed by
    [scanner.Split(split)]; the split function is the one above. *)
Definition NewScanner (b : list byte) : Scanner :=
  {| r := b; maxTokenSize := MaxScanTokenSize; token := None;
     buf_len := 0; start := 0; window := []; err := None;
     empties := 0; done := false |}.

Definition with_err (s : Scanner) (e : option error) : Scanner :=
  {| r := r s; maxTokenSize := maxTokenSize s; token := token s;
     buf_len := buf_len s; start := start s; window := window s;
     err := e; empties := empties s; done := done s |}.

(** [Scanner.setErr]: the first error that is not [io.EOF] sticks. *)
Definition setErr (s : Scanner) (e : error) : Scanner :=
  if is_nil (err s) || is_EOF (err s) then with_err s (Some e) else s.

(** [Scanner.Err] *)
Definition Scanner_Err (s : Scanner) : option error :=
  if is_EOF (err s) then None else err s.

(** [Scanner.advance]: consume [n] bytes of the window. *)
Definition advance (s : Scanner) (n : Z) : Scanner * bool :=
  if n <? 0 then (setErr s ErrNegativeAdvance, false)
  else if n >? s_end s - start s then (setErr s ErrAdvanceTooFar, false)
  else
    ({| r := r s; maxTokenSize := maxTokenSize s; token := token s;
        buf_len := buf_len s; start := start s + n;
        window := skipn (Z.to_nat n) (window s);
        err := err s; empties := empties s; done := done s |}, true).

Definition with_token (s : Scanner) (t : option (list byte)) (e : Z) (d : bool)
  : Scanner :=
  {| r := r s; maxTokenSize := maxTokenSize s; token := t;
     buf_len := buf_len s; start := start s; window := window s;
     err := err s; empties := e; done := d |}.

(** Shift the window to the beginning of the buffer. *)
Definition shift (s : Scanner) : Scanner :=
  if (start s >? 0)
     && ((s_end s =? buf_len s) || (start s >? buf_len s / 2))
  then {| r := r s; maxTokenSize := maxTokenSize s; token := token s;
          buf_len := buf_len s; start := 0; window := window s;
          err := err s; empties := empties s; done := done s |}
  else s.

(** Replace the buffer by one of [newSize] bytes holding the window. *)
Definition resize (s : Scanner) (newSize : Z) : Scanner :=
  {| r := r s; maxTokenSize := maxTokenSize s; token := token s;
     buf_len := newSize; start := 0; window := window s;
     err := err s; empties := empties s; done := done s |}.

(** The read at the end of an iteration of [Scan]: one call of [Read]
    on the free tail of the buffer.  A reader that answers [(0, nil)]
    answers so at each of the scanner's retries, which end in
    [io.ErrNoProgress]. *)
Definition fill (s : Scanner) : Scanner :=
  let '(got, rest, e) := Reader_Read (r s) (buf_len s - s_end s) in
  let n := len got in
  if (n <? 0) || (buf_len s - s_end s <? n) then setErr s ErrBadReadCount
  else
    let s' := {| r := rest; maxTokenSize := maxTokenSize s; token := token s;
                 buf_len := buf_len s; start := start s;
                 window := window s ++ got;
                 err := err s; empties := empties s; done := done s |} in
    match e with
    | Some e => setErr s' e
    | None =>
        if n >? 0
        then with_token s' (token s') 0 (done s')
        else setErr s' ErrNoProgress
    end.

(** One turn of the loop of [Scanner.Scan], in its two halves.  [Some b]
    in the second component means that [Scan] returns [b]; [None] that
    the turn goes on (after [try_token]) or that the loop goes round
    again (after [read_more]). *)

(** See if a token can be had from what is already held.  ([Scan]
    panics at the hundredth token in a row that does not advance at the
    end of the input; the split function of [ParseBody] returns no such
    token, lemma [split_token_advances], and the panic is left out.) *)
Definition try_token (s : Scanner) : Scanner * option bool :=
  if (s_end s >? start s) || negb (is_nil (err s)) then
    let '(adv, tok, e) := split (window s) (negb (is_nil (err s))) in
    match e with
    | Some e =>
        if is_ErrFinalToken e
        then (with_token s tok (empties s) true, Some (negb (is_nil tok)))
        else (setErr s e, Some false)
    | None =>
        let '(s1, ok) := advance s adv in
        if negb ok then (s1, Some false)
        else
          match tok with
          | Some _ =>
              if is_nil (err s1) || (adv >? 0)
              then (with_token s1 tok 0 (done s1), Some true)
              else (with_token s1 tok (empties s1 + 1) (done s1), Some true)
          | None => (with_token s1 tok (empties s1) (done s1), None)
          end
    end
  else (s, None).

(** No token with what is held: stop at EOF or after an error, else
    read more data, after shifting the window or growing a full
    buffer. *)
Definition read_more (s1 : Scanner) : Scanner * option bool :=
  if negb (is_nil (err s1)) then
    ({| r := r s1; maxTokenSize := maxTokenSize s1; token := token s1;
        buf_len := buf_len s1; start := 0; window := [];
        err := err s1; empties := empties s1; done := done s1 |},
     Some false)
  else
    let s2 := shift s1 in
    if s_end s2 =? buf_len s2 then
      if (buf_len s2 >=? maxTokenSize s2) || (buf_len s2 >? maxInt / 2)
      then (setErr s2 ErrTooLong, Some false)
      else
        let newSize := buf_len s2 * 2 in
        let newSize := if newSize =? 0 then startBufSize else newSize in
        let newSize := Z.min newSize (maxTokenSize s2) in
        (fill (resize s2 newSize), None)
    else (fill s2, None).

Definition Scan_iter (s : Scanner) : Scanner * option bool :=
  match try_token s with
  | (s1, Some b) => (s1, Some b)
  | (s1, None) => read_more s1
  end.

(** The loop of [Scan], bounded by [fuel] turns; [None] when the fuel
    runs out before [Scan] returns. *)
Fixpoint Scan_loop (fuel : nat) (s : Scanner) : option (Scanner * bool) :=
  match fuel with
  | O => None
  | S fuel' =>
      match Scan_iter s with
      | (s', Some b) => Some (s', b)
      | (s', None) => Scan_loop fuel' s'
      end
  end.

(** Every turn that does not return reads at least one byte or records
    the end of the input, so [length (r s) + 2] turns are enough (lemma
    [Scan_loop_returns] below). *)
Definition Scan_fuel (s : Scanner) : nat := S (S (length (r s))).

(** [Scanner.Scan].  The last branch is never taken. *)
Definition Scan (s : Scanner) : Scanner * bool :=
  if done s then (s, false)
  else
    match Scan_loop (Scan_fuel s) s with
    | Some res => res
    | None => (s, false)
    end.

(** [Scanner.Text]: [string(s.token)] *)
Definition Text (s : Scanner) : string :=
  match token s with
  | Some t => string_of_list_byte t
  | None => EmptyString
  end.

(** ** [ParseBody] (adstxt.go, lines 103-142) *)

(** The loop [for scanner.Scan() { lines = append(lines, scanner.Text()) }],
    bounded by [fuel] calls of [Scan]. *)
Fixpoint scan_lines (fuel : nat) (s : Scanner) (lines : list string)
  : option (Scanner * list string) :=
  match fuel with
  | O => None
  | S fuel' =>
      let '(s', ok) := Scan s in
      if ok then scan_lines fuel' s' (lines ++ [Text s'])
      else Some (s', lines)
  end.

(** Every call of [Scan] that yields a line consumes at least one byte,
    so [length b + 1] calls are enough (lemma [read_lines_spec]). *)
Definition read_lines (b : list byte) : option (Scanner * list string) :=
  scan_lines (S (length b)) (NewScanner b) [].

(** The lines [ParseBody] collects and the error of the scanner
    afterwards: the Line Splitter as [ParseBody] drives it.  The last
    branch is never taken. *)
Definition Lines (b : list byte) : list string * option error :=
  match read_lines b with
  | Some (s, lines) => (lines, Scanner_Err s)
  | None => ([], None)
  end.

Section ParseBody.

(** [Records] and [parseRecords] are declared in another file of the
    package; [ParseBody] only hands the lines over. *)
Variable Records : Type.
Variable parseRecords : list string -> Records.

Definition ParseBody (b : list byte) : option Records * option error :=
  let '(lines, err) := Lines b in
  match err with
  | Some err => (None, Some err)
  | None => (Some (parseRecords lines), None)
  end.

End ParseBody.

(** ** Splitting on [\r?\n|\r], as the specification words it *)

(** A line ends at a lone line feed, at a carriage return followed by a
    line feed (both consumed), or at a lone carriage return; what is left
    unterminated at the end of the input is one more line; nothing is
    left of an input that ends with a terminator, or of the empty input.
    [cur] holds the bytes of the current line, last byte first. *)
Fixpoint spec_split (cur : list byte) (b : list byte) : list (list byte) :=
  match b with
  | [] => match cur with [] => [] | _ => [rev cur] end
  | c :: rest =>
      if Byte.eqb c LF then rev cur :: spec_split [] rest
      else if Byte.eqb c CR then
        match rest with
        | c' :: rest' =>
            if Byte.eqb c' LF then rev cur :: spec_split [] rest'
            else rev cur :: spec_split [] rest
        | [] => rev cur :: spec_split [] rest
        end
      else spec_split (c :: cur) rest
  end.

Definition spec_lines (b : list byte) : list string :=
  map string_of_list_byte (spec_split [] b).



(** ** The turns of the scanner *)

(** The states of the scanner at the beginning of the turns of the loop
    of [Scan], from the state [s] on and through all the calls of [Scan]
    that the loop of [ParseBody] makes, [fuel] turns at most: a turn
    that does not end in [return false] is followed by another, of the
    same call of [Scan] or of the next one. *)
Fixpoint turn_states (fuel : nat) (s : Scanner) : list Scanner :=
  match fuel with
  | O => []
  | S fuel' =>
      s :: match Scan_iter s with
           | (_, Some false) => []
           | (s', _) => turn_states fuel' s'
           end
  end.

(** The window ends with a carriage return and the next byte of the
    input, still unread, is a line feed: the last read has ended between
    the two bytes of a CR LF pair.  The split function, handed such a
    window, does not ask for more data (adstxt.go, lines 114-118). *)
Definition cut_pair (s : Scanner) : bool :=
  match window s, r s with
  | _ :: _, c' :: _ => Byte.eqb (last (window s) x00) CR && Byte.eqb c' LF
  | _, _ => false
  end.

(** A read of the scanner ends between the two bytes of a CR LF pair
    while [ParseBody] collects the lines of [b].  Every turn but the
    last takes bytes from the window or from the reader, or records the
    end of the input, so that [3 * length b + 2] turns are all there are
    (lemma [cuts_a_pair_all]). *)
Definition cuts_a_pair (b : list byte) : bool :=
  existsb cut_pair (turn_states (3 * length b + 2) (NewScanner b)).

(** [no_CRLF_pair b]: no carriage return of [b] is immediately followed
    by a line feed. *)
Fixpoint no_CRLF_pair (b : list byte) : bool :=
  match b with
  | [] => true
  | c :: rest =>
      match rest with
      | c' :: _ => negb (Byte.eqb c CR && Byte.eqb c' LF) && no_CRLF_pair rest
      | [] => true
      end
  end.


(** ** Records and the Record Parser *)

Module RecordParser.

(** [parseRecords] and the record types are declared in a file of the
  package other than [adstxt.go]; the module follows the
  specification. *)

(** Modelled from the spec: the relationship type of a Data Record
  (section 3), which is declared in another file of the package. *)
Inductive RelationshipType : Type := DIRECT | RESELLER.

(** Modelled from the spec: the Data Record (section 3), with an
  optional certification authority. *)
Record DataRecord : Type := mkDataRecord {
AdSystemDomain : string;
PublisherAccountID : string;
Relationship : RelationshipType;
CertificationAuthorityID : option string
}.

(** Modelled from the spec: the Variable Record (section 3). *)
Record VariableRecord : Type := mkVariableRecord {
Name : string;
Value : string
}.

(** Modelled from the spec: the record types (section 3): a record is a
  Data Record or a Variable Record, and the records of a file are a
  sequence in the order of the file. *)
Inductive Record_ : Type :=
| DataRec (d : DataRecord)
| VariableRec (v : VariableRecord).

Definition Records : Type := list Record_.

(** Modelled from the spec: the white space that is trimmed (section
  4.2): the six ASCII white space characters. *)
Definition isSpace (c : ascii) : bool :=
match nat_of_ascii c with
| 9%nat | 10%nat | 11%nat | 12%nat | 13%nat | 32%nat => true
| _ => false
end.

Fixpoint trimLeft (s : string) : string :=
match s with
| String c rest => if isSpace c then trimLeft rest else s
| EmptyString => EmptyString
end.

Fixpoint trimRight (s : string) : string :=
match s with
| String c rest =>
    match trimRight rest with
    | EmptyString => if isSpace c then EmptyString else String c EmptyString
    | rest' => String c rest'
    end
| EmptyString => EmptyString
end.

Definition trim (s : string) : string := trimRight (trimLeft s).

Definition toUpperChar (c : ascii) : ascii :=
let n := nat_of_ascii c in
if (97 <=? n)%nat && (n <=? 122)%nat then ascii_of_nat (n - 32) else c.

Fixpoint toUpper (s : string) : string :=
match s with
| String c rest => String (toUpperChar c) (toUpper rest)
| EmptyString => EmptyString
end.

(** The fields of [s] between the occurrences of [sep]. *)
Fixpoint splitOn (sep : ascii) (s : string) : list string :=
match s with
| EmptyString => [EmptyString]
| String c rest =>
    if Ascii.eqb c sep then EmptyString :: splitOn sep rest
    else match splitOn sep rest with
         | f :: fs => String c f :: fs
         | [] => [String c EmptyString]
         end
end.

(** [s] cut at its first [sep]: what is before and what is after. *)
Fixpoint cutAt (sep : ascii) (s : string) : option (string * string) :=
match s with
| EmptyString => None
| String c rest =>
    if Ascii.eqb c sep then Some (EmptyString, rest)
    else match cutAt sep rest with
         | Some (l, r) => Some (String c l, r)
         | None => None
         end
end.

Fixpoint contains (p : ascii -> bool) (s : string) : bool :=
match s with
| String c rest => p c || contains p rest
| EmptyString => false
end.

Definition startsWith (c : ascii) (s : string) : bool :=
match s with
| String c' _ => Ascii.eqb c' c
| EmptyString => false
end.

Definition isEmpty (s : string) : bool :=
match s with EmptyString => true | _ => false end.

Definition parseRelationship (s : string) : option RelationshipType :=
if String.eqb (toUpper s) "DIRECT" then Some DIRECT
else if String.eqb (toUpper s) "RESELLER" then Some RESELLER
else None.

(** Modelled from the spec: the Data Record grammar (section 4.2): the
  line split on commas, every field trimmed, at least three fields, an
  optional fourth one the certification authority, and a relationship
  that is DIRECT or RESELLER whatever the case. *)
Definition parseDataRecord (line : string) : option Record_ :=
match map trim (splitOn "," line) with
| domain :: account :: rel :: rest =>
    match parseRelationship rel with
    | Some rel =>
        Some (DataRec {| AdSystemDomain := domain;
                         PublisherAccountID := account;
                         Relationship := rel;
                         CertificationAuthorityID :=
                           match rest with
                           | cert :: _ => Some cert
                           | [] => None
                           end |})
    | None => None
    end
| _ => None
end.

(** A bare token: not empty, no comma and no white space in it. *)
Definition isBareToken (s : string) : bool :=
negb (isEmpty s) && negb (contains (fun c => Ascii.eqb c "," || isSpace c) s).

(** Modelled from the spec: the treatment of one line (sections 3 and
  4.2): the line is trimmed; a blank line and a line that starts with
  [#] give nothing; a line [NAME=VALUE] whose name is a bare token
  gives a Variable Record with the name in upper case and the value
  trimmed; a line with no [=], or with a comma before its first [=],
  is tried as a Data Record; every other line gives nothing. *)
Definition parseLine (line : string) : option Record_ :=
let line := trim line in
if isEmpty line || startsWith "#" line then None
else
  match cutAt "=" line with
  | None => parseDataRecord line
  | Some (name, value) =>
      let name := trim name in
      if isBareToken name
      then Some (VariableRec {| Name := toUpper name; Value := trim value |})
      else if contains (fun c => Ascii.eqb c ",") name
      then parseDataRecord line
      else None
  end.

(** Modelled from the spec: [parseRecords] (section 4.2), which is
  declared in another file of the package: the records of the lines,
  in the order of the lines. *)
Fixpoint parseRecords (lines : list string) : Records :=
match lines with
| [] => []
| line :: rest =>
    match parseLine line with
    | Some rec => rec :: parseRecords rest
    | None => parseRecords rest
    end
end.

End RecordParser.

(** ** Inputs of the examples *)

Definition bs (s : string) : list byte := list_byte_of_string s.

(** The file of section 8 of the specification:
    ["example.com, 1234, DIRECT\n#comment\n\nCONTACT=adops@example.com\n"] *)
Definition example_file : list byte :=
  bs "example.com, 1234, DIRECT" ++ [LF] ++ bs "#comment" ++ [LF] ++ [LF]
  ++ bs "CONTACT=adops@example.com" ++ [LF].

(** A file with the three line ends mixed. *)
Definition mixed_file : list byte :=
  bs "a.com, 1, DIRECT" ++ [CR; LF] ++ bs "b.com, 2, RESELLER, f08c47fec0942fa0"
  ++ [CR] ++ [LF] ++ bs "# end" ++ [LF] ++ bs "subdomain=c.a.com".

(** 4095 bytes, then CR LF: the carriage return is the last byte of the
    scanner's first buffer of 4096 bytes. *)
Definition crlf_across_buffers : list byte :=
  repeat x61 (Z.to_nat 4095) ++ [CR; LF].

(** A file of more than two of the scanner's first buffers, with the
    three line ends: four hundred lines that end with CR LF, a line that
    ends with a lone CR, a line that ends with a lone LF, and a last line
    without a line end. *)
Definition long_file : list byte :=
  concat (repeat (bs "example.com, 1234, DIRECT" ++ [CR; LF]) 400)
  ++ bs "a.com, 1, DIRECT" ++ [CR] ++ bs "b.com, 2, RESELLER" ++ [LF]
  ++ bs "# end".

(** One line of 65536 bytes, the scanner's maximum token size. *)
Definition long_line : list byte := repeat x61 (Z.to_nat 65536).

(** ** Requests, responses and the crawler *)

(** A [*Request] is a location of the store of requests; the store
    gives every location its [Request]. *)
Definition loc : Type := nat.

(** Modelled from the spec: the [Request] type (section 3), which is
    declared in another file of the package: the domain and the URL. *)
Record Request : Type := mkRequest {
  Domain : string;
  URL : string
}.

Definition Store : Type := loc -> Request.

(** [req.URL = url] *)
Definition setURL (req : loc) (url : string) (st : Store) : Store :=
  fun l => if Nat.eqb l req
           then {| Domain := Domain (st l); URL := url |}
           else st l.

(** A [time.Time] in UTC, as nanoseconds since the epoch. *)
Definition Time : Type := Z.

(** [t.AddDate(0, 0, days)] for a time in UTC, where every calendar day
    has 86400 seconds. *)
Definition AddDate_days (t : Time) (days : Z) : Time :=
  t + days * (86400 * 1000000000).

(** Modelled from the spec: the [Response] type (section 3), declared in
    another file of the package: the request it answers, by reference,
    the records, and the expiry time. *)
Record Response (Recs : Type) : Type := mkResponse {
  Response_Request : loc;
  Response_Records : option Recs;
  Response_Expires : Time
}.
Arguments mkResponse {Recs}.
Arguments Response_Request {Recs}.
Arguments Response_Records {Recs}.
Arguments Response_Expires {Recs}.

(** The HTTP response [res] the crawler hands to [Get], which reads its
    [StatusCode] and [Status] and closes its [Body]. *)
Record HTTPResponse : Type := mkHTTPResponse {
  StatusCode : Z;
  Status : string;
  Header : list (string * string);
  Body : list byte
}.

(** The memory: the store of requests and the world outside (network,
    clock, open connections), of a type [W] left open. *)
Record Mem (W : Type) : Type := mkMem {
  store : Store;
  world : W
}.
Arguments mkMem {W}.
Arguments store {W}.
Arguments world {W}.

(** The crawler [c := newCrawler()].  Its methods are declared in
    another file of the package; each is handed the pointer [req] or the
    response and may act on the whole memory.  A method with results
    [(v, err)] returns the memory it leaves and the pair. *)
Record Crawler (W : Type) : Type := mkCrawler {
  sendRequest : loc -> Mem W -> Mem W * (HTTPResponse * option error);
  handleRedirect : loc -> HTTPResponse -> Mem W -> Mem W * (string * option error);
  readBody : loc -> HTTPResponse -> Mem W -> Mem W * (list byte * option error);
  parseExpires : HTTPResponse -> Mem W -> Mem W * (Time * option error)
}.
Arguments sendRequest {W}.
Arguments handleRedirect {W}.
Arguments readBody {W}.
Arguments parseExpires {W}.

(** What else [Get] uses and [adstxt.go] does not declare: the two
    format constants of its errors, [parseRecords], the clock
    [time.Now().UTC()] and [res.Body.Close()]. *)
Record Env (W Recs : Type) : Type := mkEnv {
  errHTTPClientError : string;
  errHTTPGeneralError : string;
  parseRecords : list string -> Recs;
  Now : W -> Time;
  Close : HTTPResponse -> W -> W
}.
Arguments errHTTPClientError {W Recs}.
Arguments errHTTPGeneralError {W Recs}.
Arguments parseRecords {W Recs}.
Arguments Now {W Recs}.
Arguments Close {W Recs}.

(** ** [Get] (adstxt.go, lines 14-71) *)

(** The state of the loop of [Get]: the memory, the responses whose
    [Body.Close] is deferred (last deferred first), and the URLs of the
    fetches made so far, one per call of [c.sendRequest], in order. *)
Record LoopState (W : Type) : Type := mkLoop {
  mem : Mem W;
  deferred : list HTTPResponse;
  fetched : list string
}.
Arguments mkLoop {W}.
Arguments mem {W}.
Arguments deferred {W}.
Arguments fetched {W}.

(** What [Get] returns: the [*Response] and the [error]. *)
Definition Outcome (Recs : Type) : Type := (option (Response Recs) * option error)%type.

Section Get.

Context {W Recs : Type}.
Variable c : Crawler W.
Variable env : Env W Recs.

Definition with_mem (st : LoopState W) (m : Mem W) : LoopState W :=
  {| mem := m; deferred := deferred st; fetched := fetched st |}.

(** One turn of the loop [for { ... }]: [Some out] when the turn ends
    in [return out], [None] when the loop goes round again. *)
Definition iteration (req : loc) (st : LoopState W)
  : LoopState W * option (Outcome Recs) :=
  let url := URL (store (mem st) req) in
  let '(m1, (res, err)) := sendRequest c req (mem st) in
  let st := {| mem := m1; deferred := deferred st;
               fetched := fetched st ++ [url] |} in
  match err with
  | Some err => (st, Some (None, Some err))
  | None =>
      (* defer res.Body.Close() *)
      let st := {| mem := mem st; deferred := res :: deferred st;
                   fetched := fetched st |} in
      if (300 <=? StatusCode res) && (StatusCode res <? 400) then
        let '(m2, (redirect, err)) := handleRedirect c req res (mem st) in
        match err with
        | Some err => (with_mem st m2, Some (None, Some err))
        | None =>
            (with_mem st {| store := setURL req redirect (store m2);
                            world := world m2 |}, None)
        end
      else if (400 <=? StatusCode res) && (StatusCode res <? 500) then
        (st, Some (None,
                   Some (Errorf (errHTTPClientError env)
                           [Status res; Domain (store (mem st) req);
                            URL (store (mem st) req)])))
      else if StatusCode res =? 200 then
        let '(m2, (body, err)) := readBody c req res (mem st) in
        match err with
        | Some err => (with_mem st m2, Some (None, Some err))
        | None =>
            let '(records, err) := ParseBody Recs (parseRecords env) body in
            match err with
            | Some err => (with_mem st m2, Some (None, Some err))
            | None =>
                let r := {| Response_Request := req;
                            Response_Records := records;
                            Response_Expires :=
                              AddDate_days (Now env (world m2)) 7 |} in
                let '(m3, (expires, err)) := parseExpires c res m2 in
                let r := if is_nil err
                         then {| Response_Request := Response_Request r;
                                 Response_Records := Response_Records r;
                                 Response_Expires := expires |}
                         else r in
                (with_mem st m3, Some (Some r, None))
            end
        end
      else
        (st, Some (None,
                   Some (Errorf (errHTTPGeneralError env)
                           [Status res; Domain (store (mem st) req);
                            URL (store (mem st) req)])))
  end.

(** The loop, bounded by [fuel] turns: [None] in the second component
    when [fuel] turns have gone by without a [return]. *)
Fixpoint Get_loop (fuel : nat) (req : loc) (st : LoopState W)
  : LoopState W * option (Outcome Recs) :=
  match fuel with
  | O => (st, None)
  | S fuel' =>
      match iteration req st with
      | (st', Some out) => (st', Some out)
      | (st', None) => Get_loop fuel' req st'
      end
  end.

(** The deferred calls of [res.Body.Close()], run when [Get] returns,
    last deferred first. *)
Definition run_deferred (st : LoopState W) : LoopState W :=
  {| mem := {| store := store (mem st);
               world := fold_left (fun w res => Close env res w)
                          (deferred st) (world (mem st)) |};
     deferred := [];
     fetched := fetched st |}.

(** [Get(req)] from the memory [m], with [fuel] turns of its loop at
    most. *)
Definition Get (fuel : nat) (req : loc) (m : Mem W)
  : LoopState W * option (Outcome Recs) :=
  match Get_loop fuel req {| mem := m; deferred := []; fetched := [] |} with
  | (st, Some out) => (run_deferred st, Some out)
  | (st, None) => (st, None)
  end.

End Get.

(** The methods of the crawler [c] write nothing to the store of
    requests. *)
Definition keeps_store {W : Type} (c : Crawler W) : Prop :=
  (forall l m, store (fst (sendRequest c l m)) = store m) /\
  (forall l res m, store (fst (handleRedirect c l res m)) = store m) /\
  (forall l res m, store (fst (readBody c l res m)) = store m) /\
  (forall res m, store (fst (parseExpires c res m)) = store m).

(** [st'] differs from [st] at most in the URL of the request at
    [req]. *)
Definition same_but_URL (req : loc) (st st' : Store) : Prop :=
  (forall l, l <> req -> st' l = st l) /\ Domain (st' req) = Domain (st req).

(** Exactly one of the two results of [Get] is nil, and a response
    refers to the request [req]. *)
Definition exactly_one {Recs : Type} (req : loc) (out : Outcome Recs) : Prop :=
  (fst out = None /\ snd out <> None) \/
  (exists r, fst out = Some r /\ Response_Request r = req /\ snd out = None).

(** ** A small web, for the examples *)

Module Web.

Local Open Scope string_scope.

(** The world is a clock, in nanoseconds. *)
Definition World : Type := Z.

Definition page (status : Z) (text : string) (header : list (string * string))
    (body : list byte) : HTTPResponse :=
  {| StatusCode := status; Status := text; Header := header; Body := body |}.

(** The answer of the web to a fetch of [url]. *)
Definition answer (url : string) : HTTPResponse :=
  if String.eqb url "http://example.com/ads.txt" then
    page 301 "301 Moved Permanently"
      [("Location", "https://example.com/ads.txt")%string] []
  else if String.eqb url "https://example.com/ads.txt" then
    page 200 "200 OK" [] example_file
  else if String.eqb url "https://fresh.example/ads.txt" then
    page 200 "200 OK" [("Expires", "Thu, 01 Jan 2026 00:00:00 GMT")%string]
      example_file
  else if String.eqb url "https://long.example/ads.txt" then
    page 200 "200 OK" [] long_line
  else if String.eqb url "http://cached.example/ads.txt" then
    page 304 "304 Not Modified" [] []
  else if String.eqb url "http://down.example/ads.txt" then
    page 500 "500 Internal Server Error" [] []
  else
    page 404 "404 Not Found" [] [].

Fixpoint lookup (key : string) (header : list (string * string)) : option string :=
  match header with
  | [] => None
  | (k, v) :: rest => if String.eqb k key then Some v else lookup key rest
  end.

(** Every fetch takes a second; the host [unreachable.example] does not
    resolve. *)
Definition crawler : Crawler World :=
  {| sendRequest := fun req m =>
       let url := URL (store m req) in
       let m := {| store := store m; world := world m + 1000000000 |} in
       if String.eqb url "http://unreachable.example/ads.txt"
       then (m, (page 0 "" [] [], Some (ErrCrawler "no such host")))
       else (m, (answer url, None));
     handleRedirect := fun req res m =>
       match lookup "Location" (Header res) with
       | Some target => (m, (target, None))
       | None => (m, (EmptyString, Some (ErrCrawler "no Location header")))
       end;
     readBody := fun req res m => (m, (Body res, None));
     parseExpires := fun res m =>
       match lookup "Expires" (Header res) with
       | Some v =>
           if String.eqb v "Thu, 01 Jan 2026 00:00:00 GMT"
           then (m, (1767225600 * 1000000000, None))
           else (m, (0, Some (ErrCrawler "cannot parse the date")))
       | None => (m, (0, Some (ErrCrawler "no Expires header")))
       end |}.

(** A crawler on a web that answers every fetch with a redirect to the
    same place. *)
Definition looping : Crawler World :=
  {| sendRequest := fun req m =>
       (m, (page 302 "302 Found" [("Location", URL (store m req))] [], None));
     handleRedirect := handleRedirect crawler;
     readBody := readBody crawler;
     parseExpires := parseExpires crawler |}.

Definition env : Env World RecordParser.Records :=
  {| errHTTPClientError := "client error %s for %s (%s)";
     errHTTPGeneralError := "unexpected status %s for %s (%s)";
     parseRecords := RecordParser.parseRecords;
     Now := fun w => w;
     Close := fun res w => w |}.

(** The records of [example_file]. *)
Definition example_records : RecordParser.Records :=
  [RecordParser.DataRec
     {| RecordParser.AdSystemDomain := "example.com";
        RecordParser.PublisherAccountID := "1234";
        RecordParser.Relationship := RecordParser.DIRECT;
        RecordParser.CertificationAuthorityID := None |};
   RecordParser.VariableRec
     {| RecordParser.Name := "CONTACT";
        RecordParser.Value := "adops@example.com" |}].

(** The caller's request. *)
Definition req : loc := 0%nat.

(** The request at every location is for [domain], at [url]; the clock
    shows [now]. *)
Definition memory (domain url : string) (now : Z) : Mem World :=
  {| store := fun _ => {| Domain := domain; URL := url |}; world := now |}.

(** The state in which the loop of [Get] begins, for the request of
    [example.com] at [url], at time 0. *)
Definition start (url : string) : LoopState World :=
  {| mem := memory "example.com" url 0; deferred := []; fetched := [] |}.

End Web.

(** ** [GetMultiple] (adstxt.go, lines 75-99) *)

(** The goroutines of a call of [GetMultiple]: the caller's, which runs
    the body of the function, and one per request, named by the index of
    its request in [req]. *)
Inductive thread : Type :=
| Main
| Worker (i : nat).

(** Where the caller's goroutine stands. *)
Inductive main_pc : Type :=
| MSend (i : nat)     (* at [guard <- struct{}{}] for [req[i]]; past the loop when [i = len(req)] *)
| MGo (i : nat)       (* at [go func(r *Request) { ... }(r)] for [req[i]] *)
| MWait               (* at [wg.Wait()] *)
| MReturned.          (* [GetMultiple] has returned *)

(** Where the goroutine of a request stands. *)
Inductive worker_pc (Out : Type) : Type :=
| WNone               (* not started *)
| WGet                (* in [res, err := Get(r)] *)
| WHandle (out : Out) (* [Get] has returned [out]; at the call [h.Handle(r, res, err)] *)
| WInHandle           (* in [h.Handle] *)
| WRecv               (* at [<-guard] *)
| WDone               (* returning: at the deferred [wg.Done()] *)
| WExit.              (* finished *)
Arguments WNone {Out}.
Arguments WGet {Out}.
Arguments WHandle {Out}.
Arguments WInHandle {Out}.
Arguments WRecv {Out}.
Arguments WDone {Out}.
Arguments WExit {Out}.

(** The state of a call: the places of the goroutines, the number of
    elements in the channel [guard], the counter of the wait group, the
    calls of [h.Handle] made so far (index of the request and what [Get]
    returned for it), and whether [wg.Done] has panicked. *)
Record Batch (Out : Type) : Type := mkBatch {
  main : main_pc;
  guard : nat;
  wg : Z;
  workers : list (worker_pc Out);
  calls : list (nat * Out);
  panicked : bool
}.
Arguments mkBatch {Out}.
Arguments main {Out}.
Arguments guard {Out}.
Arguments wg {Out}.
Arguments workers {Out}.
Arguments calls {Out}.
Arguments panicked {Out}.

Fixpoint set_nth {A : Type} (i : nat) (x : A) (l : list A) : list A :=
  match l, i with
  | [], _ => []
  | _ :: l', O => x :: l'
  | a :: l', S i' => a :: set_nth i' x l'
  end.

Section GetMultiple.

(** What [Get] returns. *)
Variable Out : Type.
(** [len(req)] *)
Variable n : nat.
(** [runtime.NumCPU()] *)
Variable NumCPU : nat.
(** What [Get] returns for the request of index [i], [None] when it
    never returns. *)
Variable crawl : nat -> option Out.

(** The capacity of [guard]: [runtime.NumCPU()*5]. *)
Definition capacity : nat := (NumCPU * 5)%nat.

Definition set_worker (s : Batch Out) (i : nat) (w : worker_pc Out) : Batch Out :=
  {| main := main s; guard := guard s; wg := wg s;
     workers := set_nth i w (workers s); calls := calls s;
     panicked := panicked s |}.

Definition set_main (s : Batch Out) (pc : main_pc) : Batch Out :=
  {| main := pc; guard := guard s; wg := wg s; workers := workers s;
     calls := calls s; panicked := panicked s |}.

Definition set_guard (s : Batch Out) (g : nat) : Batch Out :=
  {| main := main s; guard := g; wg := wg s; workers := workers s;
     calls := calls s; panicked := panicked s |}.

(** The state after [wg.Add(len(req))] and [make(chan struct{}, ...)]. *)
Definition init : Batch Out :=
  {| main := MSend 0; guard := 0; wg := Z.of_nat n;
     workers := repeat WNone n; calls := []; panicked := false |}.

(** One step of the caller's goroutine; [None] when it cannot move. *)
Definition step_main (s : Batch Out) : option (Batch Out) :=
  match main s with
  | MSend i =>
      if (i <? n)%nat then
        (* guard <- struct{}{} blocks while the channel is full *)
        if (guard s <? capacity)%nat
        then Some (set_main (set_guard s (S (guard s))) (MGo i))
        else None
      else Some (set_main s MWait)
  | MGo i => Some (set_main (set_worker s i WGet) (MSend (S i)))
  | MWait =>
      (* wg.Wait() blocks until the counter is zero *)
      if wg s =? 0 then Some (set_main s MReturned) else None
  | MReturned => None
  end.

(** One step of the goroutine of the request of index [i]. *)
Definition step_worker (i : nat) (s : Batch Out) : option (Batch Out) :=
  match nth i (workers s) WNone with
  | WNone => None
  | WGet =>
      match crawl i with
      | Some out => Some (set_worker s i (WHandle out))
      | None => None
      end
  | WHandle out =>
      Some {| main := main s; guard := guard s; wg := wg s;
              workers := set_nth i WInHandle (workers s);
              calls := calls s ++ [(i, out)];
              panicked := panicked s |}
  | WInHandle => Some (set_worker s i WRecv)
  | WRecv =>
      (* <-guard blocks while the channel is empty *)
      match guard s with
      | S g => Some (set_worker (set_guard s g) i WDone)
      | O => None
      end
  | WDone =>
      (* wg.Done() panics when the counter becomes negative *)
      Some {| main := main s; guard := guard s; wg := wg s - 1;
              workers := set_nth i WExit (workers s);
              calls := calls s;
              panicked := wg s - 1 <? 0 |}
  | WExit => None
  end.

(** A panic ends the program. *)
Definition step (t : thread) (s : Batch Out) : option (Batch Out) :=
  if panicked s then None
  else match t with
       | Main => step_main s
       | Worker i => step_worker i s
       end.

(** The state after the goroutines have been given the turns of
    [sched], in order; a goroutine that cannot move loses its turn. *)
Fixpoint run (sched : list thread) (s : Batch Out) : Batch Out :=
  match sched with
  | [] => s
  | t :: sched' =>
      match step t s with
      | Some s' => run sched' s'
      | None => run sched' s
      end
  end.

(** The goroutines that are in [Get]. *)
Definition in_Get (w : worker_pc Out) : bool :=
  match w with WGet => true | _ => false end.

(** The goroutines that have put an element in [guard] and not taken
    one out yet. *)
Definition holds (w : worker_pc Out) : bool :=
  match w with
  | WGet | WHandle _ | WInHandle | WRecv => true
  | _ => false
  end.

Definition exited (w : worker_pc Out) : bool :=
  match w with WExit => true | _ => false end.

(** The goroutines that have called [h.Handle]. *)
Definition called (w : worker_pc Out) : bool :=
  match w with
  | WInHandle | WRecv | WDone | WExit => true
  | _ => false
  end.

Definition started (w : worker_pc Out) : bool :=
  match w with WNone => false | _ => true end.

Definition count (p : worker_pc Out -> bool) (l : list (worker_pc Out)) : nat :=
  length (filter p l).

(** The number of calls of [h.Handle] for the request of index [j]. *)
Definition times (j : nat) (cs : list (nat * Out)) : nat :=
  length (filter (fun c => Nat.eqb (fst c) j) cs).

(** The number of goroutines the caller has started. *)
Definition spawned (pc : main_pc) : nat :=
  match pc with
  | MSend i => i
  | MGo i => i
  | MWait | MReturned => n
  end.

Definition b2n (b : bool) : nat := if b then 1%nat else 0%nat.

Definition at_go (pc : main_pc) : bool :=
  match pc with MGo _ => true | _ => false end.

(** What holds of every state a call goes through. *)
Record BInv (s : Batch Out) : Prop := {
  b_len : length (workers s) = n;
  b_main : match main s with
           | MSend i => (i <= n)%nat
           | MGo i => (i < n)%nat
           | _ => True
           end;
  b_started : forall j, (j < n)%nat ->
                        started (nth j (workers s) WNone) = (j <? spawned (main s))%nat;
  b_guard : guard s = (count holds (workers s) + b2n (at_go (main s)))%nat;
  b_cap : (guard s <= capacity)%nat;
  b_wg : wg s = Z.of_nat n - Z.of_nat (count exited (workers s));
  b_calls : forall j, times j (calls s) = b2n (called (nth j (workers s) WNone));
  b_out : forall j out, In (j, out) (calls s) -> crawl j = Some out;
  b_handle : forall j out, nth j (workers s) WNone = WHandle out ->
                           crawl j = Some out;
  b_panic : panicked s = false;
  b_ret : main s = MReturned -> wg s = 0
}.

(** The steps that are left to a goroutine. *)
Definition main_left (pc : main_pc) : nat :=
  match pc with
  | MSend i => (2 * (n - i) + 2)%nat
  | MGo i => (2 * (n - i) + 1)%nat
  | MWait => 1%nat
  | MReturned => 0%nat
  end.

Definition worker_left (w : worker_pc Out) : nat :=
  match w with
  | WNone | WGet => 5%nat
  | WHandle _ => 4%nat
  | WInHandle => 3%nat
  | WRecv => 2%nat
  | WDone => 1%nat
  | WExit => 0%nat
  end.

Definition steps_left (s : Batch Out) : nat :=
  (main_left (main s) + list_sum (map worker_left (workers s)))%nat.

(** The request of index [j] is one whose [Get] never returns. *)
Definition hangs (j : nat) : bool := is_nil (crawl j).

(** The number of requests of the list whose [Get] never returns. *)
Definition hanging : nat := length (filter hangs (seq 0 n)).

End GetMultiple.

Arguments set_worker {Out}.
Arguments set_main {Out}.
Arguments set_guard {Out}.
Arguments in_Get {Out}.
Arguments holds {Out}.
Arguments exited {Out}.
Arguments called {Out}.
Arguments started {Out}.
Arguments count {Out}.
Arguments times {Out}.
Arguments worker_left {Out}.
Arguments steps_left {Out}.
Arguments hangs {Out}.
Arguments hanging {Out}.
Arguments init {Out}.
Arguments step {Out}.
Arguments step_main {Out}.
Arguments step_worker {Out}.
Arguments run {Out}.
Arguments BInv {Out}.
Arguments b_len {Out n NumCPU crawl s}.
Arguments b_main {Out n NumCPU crawl s}.
Arguments b_started {Out n NumCPU crawl s}.
Arguments b_guard {Out n NumCPU crawl s}.
Arguments b_cap {Out n NumCPU crawl s}.
Arguments b_wg {Out n NumCPU crawl s}.
Arguments b_calls {Out n NumCPU crawl s}.
Arguments b_out {Out n NumCPU crawl s}.
Arguments b_handle {Out n NumCPU crawl s}.
Arguments b_panic {Out n NumCPU crawl s}.
Arguments b_ret {Out n NumCPU crawl s}.

(** The turns of the goroutine of the request of index [i], from its
    start to its end: [Get] returns, [h.Handle] is called and returns,
    [<-guard], [wg.Done()]. *)
Definition whole_worker (i : nat) : list thread := repeat (Worker i) 5.

(** A schedule for six requests on one CPU, in two parts.  In the first
    the caller starts five goroutines and then finds [guard] full. *)
Definition schedule6_fill : list thread := repeat Main 11.

(** In the second the first goroutine runs to its end, the caller starts
    the sixth and goes on to wait, the other goroutines run to their ends
    one after the other, and the caller returns. *)
Definition schedule6_drain : list thread :=
  whole_worker 0 ++ [Main; Main; Main]
  ++ whole_worker 1 ++ whole_worker 2 ++ whole_worker 3
  ++ whole_worker 4 ++ whole_worker 5 ++ [Main].

(** A schedule for three requests: the caller starts the first two
    goroutines, these and the third one run one after the other, and the
    caller waits. *)
Definition schedule3 : list thread :=
  [Main; Main; Main; Worker 0; Main; Main; Main; Worker 1; Worker 0;
   Worker 0; Worker 0; Worker 0; Worker 1; Worker 1; Worker 1; Worker 1;
   Worker 2; Worker 2; Worker 2; Worker 2; Worker 2; Main; Main].
(** ** Auxiliary notions for the proofs about the scanner *)

Definition is_eol (c : byte) : bool := Byte.eqb c CR || Byte.eqb c LF.

Definition noeol (data : list byte) : bool :=
  forallb (fun x => negb (is_eol x)) data.

(** The bytes consumed behind the terminator [c]: the line feed that
    [post] starts with, when [c] is a carriage return. *)
Definition eol_extra (c : byte) (post : list byte) : Z :=
  if Byte.eqb c LF then 0
  else match post with
       | c' :: _ => if Byte.eqb c' LF then 1 else 0
       | [] => 0
       end.

Definition one_line (l : list byte) : list (list byte) :=
  match l with [] => [] | _ => [l] end.

(** What holds of the scanner of [ParseBody] between two turns of
    [Scan]: the limits are the default ones, the window lies inside the
    buffer, and the only error recorded so far is the end of the input,
    once the reader is empty. *)
Record Inv (s : Scanner) : Prop := {
  inv_max : maxTokenSize s = MaxScanTokenSize;
  inv_start : 0 <= start s;
  inv_end : s_end s <= buf_len s;
  inv_buf : buf_len s <= MaxScanTokenSize;
  inv_done : done s = false;
  inv_err : err s = None \/ (err s = Some EOF /\ r s = [])
}.

(** The outcomes of one turn of [Scan] on such a scanner. *)
Inductive iter_spec (s : Scanner) : Scanner * option bool -> Prop :=
| it_line pre c post s' :
    window s = pre ++ c :: post -> noeol pre = true -> is_eol c = true ->
    Inv s' -> r s' = r s -> err s' = err s -> token s' = Some pre ->
    window s' = skipn (Z.to_nat (eol_extra c post)) post ->
    iter_spec s (s', Some true)
| it_last s' :
    err s = Some EOF -> window s <> [] -> noeol (window s) = true ->
    Inv s' -> r s' = r s -> err s' = err s -> token s' = Some (window s) ->
    window s' = [] ->
    iter_spec s (s', Some true)
| it_more s' :
    err s = None -> noeol (window s) = true -> Inv s' ->
    window s' ++ r s' = window s ++ r s ->
    ((length (r s') < length (r s))%nat /\ err s' = None \/
     r s = [] /\ r s' = [] /\ err s' = Some EOF) ->
    iter_spec s (s', None)
| it_stop s' :
    err s = Some EOF -> window s = [] -> err s' = Some EOF ->
    iter_spec s (s', Some false)
| it_long s' :
    err s = None -> noeol (window s) = true ->
    MaxScanTokenSize <= len (window s) -> err s' = Some ErrTooLong ->
    iter_spec s (s', Some false).

(** [same_core s s1]: [s1] is [s] up to the fields [token] and
    [empties], which no decision of [Scan] depends on here. *)
Definition same_core (s s1 : Scanner) : Prop :=
  r s1 = r s /\ maxTokenSize s1 = maxTokenSize s /\ buf_len s1 = buf_len s /\
  start s1 = start s /\ window s1 = window s /\ err s1 = err s /\
  done s1 = done s.

(** The turns [Scan] needs at most. *)
Definition turns (s : Scanner) : nat :=
  if is_nil (err s) then S (S (length (r s))) else 1%nat.

(** The scanner is in no danger of cutting a CR LF pair in two: nothing
    is left to read, or there is no such pair ahead. *)
Definition whole_pairs (s : Scanner) : Prop :=
  r s = [] \/ no_CRLF_pair (window s ++ r s) = true.

Definition measure (s : Scanner) : nat :=
  (length (window s) + 3 * length (r s) + (if is_nil (err s) then 1 else 0))%nat.


(** ** Notions for the further properties *)

(** The lines of [b] that are not empty: the maximal runs of bytes
    other than CR and LF, in order.  [cur] holds the bytes of the
    current run, last byte first. *)
Fixpoint fragments (cur : list byte) (b : list byte) : list (list byte) :=
  match b with
  | [] => one_line (rev cur)
  | c :: rest =>
      if is_eol c then one_line (rev cur) ++ fragments [] rest
      else fragments (c :: cur) rest
  end.

Definition nonempty (line : string) : bool :=
  match line with EmptyString => false | _ => true end.

(** The scanner has room left in its buffer once it has met the end of
    the input. *)
Definition room (s : Scanner) : Prop :=
  err s = Some EOF -> s_end s < buf_len s.

(** The Record Parser [parseRecords] takes no notice of empty lines. *)
Definition skips_empty_lines {Records : Type}
    (parseRecords : list string -> Records) : Prop :=
  forall lines, parseRecords lines = parseRecords (filter nonempty lines).

(** [example_file] with CR LF line ends and a blank line more. *)
Definition example_file_crlf : list byte :=
  bs "example.com, 1234, DIRECT" ++ [CR; LF] ++ bs "#comment" ++ [CR; LF]
  ++ [CR; LF] ++ [CR] ++ bs "CONTACT=adops@example.com" ++ [CR; LF].

(** The lines [ls] written out, each followed by the terminator [t]. *)
Definition join (t : byte) (ls : list (list byte)) : list byte :=
  concat (map (fun l => l ++ [t]) ls).
(** * Properties *)

(** ** The split function *)

Lemma byte_eqb_eq (a b : byte) : Byte.eqb a b = true <-> a = b.
Proof.
  split.
  - apply Byte.byte_dec_bl.
  - apply Byte.byte_dec_lb.
Qed.

Lemma len_nonneg {A} (l : list A) : 0 <= len l.
Proof. unfold len; lia. Qed.

Lemma len_app {A} (l1 l2 : list A) : len (l1 ++ l2) = len l1 + len l2.
Proof. unfold len; rewrite length_app; lia. Qed.

Lemma len_cons {A} (a : A) (l : list A) : len (a :: l) = len l + 1.
Proof. unfold len; simpl length; lia. Qed.

Lemma len_nil {A} : len (@nil A) = 0.
Proof. reflexivity. Qed.

Lemma IndexAny_CRLF_range (data : list byte) :
  -1 <= IndexAny_CRLF data < len data.
Proof.
  induction data as [|c rest IH].
  - cbn; lia.
  - rewrite len_cons. cbn [IndexAny_CRLF].
    destruct (Byte.eqb c CR || Byte.eqb c LF); [lia|].
    destruct (Z.ltb_spec (IndexAny_CRLF rest) 0); lia.
Qed.

(** When [IndexAny] finds a terminator, the data is a terminator-free
    prefix, the terminator, and a rest. *)
Lemma IndexAny_CRLF_found (data : list byte) :
  0 <= IndexAny_CRLF data ->
  exists pre c post,
    data = pre ++ c :: post /\ len pre = IndexAny_CRLF data /\
    noeol pre = true /\ is_eol c = true.
Proof.
  unfold noeol.
  induction data as [|c rest IH]; cbn [IndexAny_CRLF].
  - lia.
  - destruct (Byte.eqb c CR || Byte.eqb c LF) eqn:E.
    + intros _. exists [], c, rest. auto.
    + destruct (Z.ltb_spec (IndexAny_CRLF rest) 0) as [Hn|Hn]; [lia|].
      intros _. destruct (IH Hn) as (pre & c' & post & -> & Hl & Hp & Hc).
      exists (c :: pre), c', post. rewrite len_cons.
      repeat split; auto; try lia.
      cbn [forallb]. unfold is_eol at 1. rewrite E. exact Hp.
Qed.

Lemma IndexAny_CRLF_none (data : list byte) :
  IndexAny_CRLF data < 0 ->
  noeol data = true.
Proof.
  unfold noeol.
  induction data as [|c rest IH]; cbn [IndexAny_CRLF forallb]; auto.
  unfold is_eol at 1.
  destruct (Byte.eqb c CR || Byte.eqb c LF); [lia|].
  destruct (Z.ltb_spec (IndexAny_CRLF rest) 0); [auto | lia].
Qed.

Lemma IndexAny_CRLF_prefix (pre : list byte) (c : byte) (post : list byte) :
  noeol pre = true -> is_eol c = true ->
  IndexAny_CRLF (pre ++ c :: post) = len pre.
Proof.
  unfold noeol.
  intros Hp Hc. induction pre as [|a pre IH]; cbn [IndexAny_CRLF app].
  - unfold is_eol in Hc. rewrite Hc. reflexivity.
  - cbn [forallb] in Hp. apply andb_true_iff in Hp as [Ha Hp].
    unfold is_eol in Ha. apply negb_true_iff in Ha. rewrite Ha.
    rewrite (IH Hp), len_cons.
    destruct (Z.ltb_spec (len pre) 0); [pose proof (len_nonneg pre)|]; lia.
Qed.

Lemma at_index_app (pre : list byte) (c : byte) (post : list byte) :
  at_index (pre ++ c :: post) (len pre) = c.
Proof.
  unfold at_index, len. rewrite Nat2Z.id, nth_middle. reflexivity.
Qed.

Lemma slice_prefix {A} (pre post : list A) :
  slice (pre ++ post) 0 (len pre) = pre.
Proof.
  unfold slice, len. cbn [Z.to_nat skipn]. rewrite Z.sub_0_r, Nat2Z.id.
  rewrite firstn_app, Nat.sub_diag, firstn_all. cbn. apply app_nil_r.
Qed.

(** What [split] answers for data holding a terminator: the prefix as
    the token, and an advance past the terminator, which is two bytes
    when a line feed is seen behind a carriage return. *)
Lemma split_found (pre : list byte) (c : byte) (post : list byte) (atEOF : bool) :
  noeol pre = true -> is_eol c = true ->
  split (pre ++ c :: post) atEOF =
  (len pre + 1 + eol_extra c post, Some pre, None).
Proof.
  intros Hp Hc. unfold split, eol_extra.
  replace (atEOF && (len (pre ++ c :: post) =? 0)) with false.
  2:{ rewrite len_app, len_cons.
      pose proof (len_nonneg pre); pose proof (len_nonneg post).
      destruct (Z.eqb_spec (len pre + (len post + 1)) 0); [lia|].
      now rewrite andb_false_r. }
  cbv zeta. rewrite (IndexAny_CRLF_prefix _ _ _ Hp Hc).
  pose proof (len_nonneg pre) as Hl.
  destruct (Z.geb_spec (len pre) 0) as [_|]; [|lia].
  rewrite at_index_app, slice_prefix.
  destruct (Byte.eqb c LF) eqn:E.
  - now rewrite Z.add_0_r.
  - destruct post as [|c' post'].
    + rewrite len_app, len_cons, len_nil.
      destruct (Z.gtb_spec (len pre + (0 + 1)) (len pre + 1)); [lia|].
      cbn [andb]. now rewrite Z.add_0_r.
    + rewrite len_app, !len_cons. pose proof (len_nonneg post').
      destruct (Z.gtb_spec (len pre + (len post' + 1 + 1)) (len pre + 1)); [|lia].
      cbn [andb].
      replace (at_index (pre ++ c :: c' :: post') (len pre + 1)) with c'.
      2:{ unfold at_index, len.
          replace (Z.to_nat (Z.of_nat (length pre) + 1)) with (S (length pre)) by lia.
          replace (pre ++ c :: c' :: post') with ((pre ++ [c]) ++ c' :: post')
            by now rewrite <- app_assoc.
          replace (S (length pre)) with (length (pre ++ [c]))
            by (rewrite length_app; simpl; lia).
          now rewrite nth_middle. }
      destruct (Byte.eqb c' LF); [reflexivity | now rewrite Z.add_0_r].
Qed.

(** What [split] answers for data without a terminator. *)
Lemma split_none (data : list byte) (atEOF : bool) :
  noeol data = true ->
  split data atEOF =
  if atEOF then
    match data with
    | [] => (0, None, None)
    | _ => (len data, Some data, None)
    end
  else (0, None, None).
Proof.
  intros Hp. unfold split.
  assert (Hi : IndexAny_CRLF data < 0).
  { destruct (Z.ltb_spec (IndexAny_CRLF data) 0) as [|Hge]; auto.
    destruct (IndexAny_CRLF_found data Hge) as (pre & c & post & -> & _ & _ & Hc).
    unfold noeol in Hp.
    rewrite forallb_app in Hp. apply andb_true_iff in Hp as [_ Hp].
    cbn [forallb] in Hp. rewrite Hc in Hp. discriminate. }
  destruct atEOF; cbn [andb].
  - destruct data as [|a data]; [reflexivity|].
    rewrite len_cons. pose proof (len_nonneg data).
    destruct (Z.eqb_spec (len data + 1) 0); [lia|].
    cbv zeta. destruct (Z.geb_spec (IndexAny_CRLF (a :: data)) 0); [lia|].
    reflexivity.
  - cbv zeta. destruct (Z.geb_spec (IndexAny_CRLF data) 0); [lia|]. reflexivity.
Qed.

(** ** Splitting as the specification words it *)

Lemma spec_split_none (data cur : list byte) :
  noeol data = true -> spec_split cur data = one_line (rev cur ++ data).
Proof.
  unfold noeol. revert cur.
  induction data as [|a data IH]; intros cur Hd.
  - cbn [spec_split]. rewrite app_nil_r.
    destruct cur as [|x cur]; [reflexivity|].
    cbn [rev]. destruct (rev cur ++ [x]) eqn:E; [|reflexivity].
    now destruct (rev cur).
  - cbn [forallb] in Hd. apply andb_true_iff in Hd as [Ha Hd].
    apply negb_true_iff in Ha. unfold is_eol in Ha.
    apply orb_false_iff in Ha as [Hcr Hlf].
    cbn [spec_split]. rewrite Hlf, Hcr, (IH _ Hd).
    cbn [rev]. now rewrite <- app_assoc.
Qed.

Lemma spec_split_found (pre : list byte) (c : byte) (post cur : list byte) :
  noeol pre = true -> is_eol c = true ->
  spec_split cur (pre ++ c :: post) =
  (rev cur ++ pre) :: spec_split [] (skipn (Z.to_nat (eol_extra c post)) post).
Proof.
  unfold noeol. intros Hp Hc. revert cur.
  induction pre as [|a pre IH]; intros cur.
  - cbn [app spec_split]. rewrite app_nil_r. unfold eol_extra.
    destruct (Byte.eqb c LF) eqn:Elf; [reflexivity|].
    unfold is_eol in Hc. rewrite Elf, orb_false_r in Hc. rewrite Hc.
    destruct post as [|c' post']; [reflexivity|].
    destruct (Byte.eqb c' LF); reflexivity.
  - cbn [forallb] in Hp. apply andb_true_iff in Hp as [Ha Hp].
    apply negb_true_iff in Ha. unfold is_eol in Ha.
    apply orb_false_iff in Ha as [Hcr Hlf].
    cbn [app spec_split]. rewrite Hlf, Hcr, (IH Hp).
    cbn [rev]. now rewrite <- app_assoc.
Qed.

(** ** The scanner *)

Lemma Inv_NewScanner (b : list byte) : Inv (NewScanner b).
Proof. constructor; cbn; auto; unfold MaxScanTokenSize; lia. Qed.

Lemma len_skipn {A} (n : Z) (l : list A) :
  0 <= n <= len l -> len (skipn (Z.to_nat n) l) = len l - n.
Proof. unfold len. intros H. rewrite length_skipn. lia. Qed.

Lemma eol_extra_range (c : byte) (post : list byte) :
  0 <= eol_extra c post <= len post.
Proof.
  unfold eol_extra. pose proof (len_nonneg post).
  destruct (Byte.eqb c LF); [lia|].
  destruct post as [|c' post']; [cbn; lia|].
  rewrite len_cons. pose proof (len_nonneg post').
  destruct (Byte.eqb c' LF); lia.
Qed.

(** [split] hands out a token only together with a positive advance:
    [Scan] never counts an empty token that does not progress. *)
Lemma split_token_advances (data : list byte) (atEOF : bool)
    (adv : Z) (tok : list byte) (e : option error) :
  split data atEOF = (adv, Some tok, e) -> 0 < adv <= len data /\ e = None.
Proof.
  destruct (Z.ltb_spec (IndexAny_CRLF data) 0) as [Hnone|Hfound].
  - rewrite (split_none data atEOF (IndexAny_CRLF_none data Hnone)).
    destruct atEOF; [|discriminate].
    destruct data as [|a data]; [discriminate|].
    intros [= <- _ <-]. rewrite len_cons. pose proof (len_nonneg data).
    split; [lia | reflexivity].
  - destruct (IndexAny_CRLF_found data Hfound)
      as (pre & c & post & -> & _ & Hp & Hc).
    rewrite (split_found pre c post atEOF Hp Hc). intros [= <- _ <-].
    pose proof (eol_extra_range c post). pose proof (len_nonneg pre).
    rewrite len_app, len_cons. split; [lia | reflexivity].
Qed.

Lemma skipn_past (pre : list byte) (c : byte) (post : list byte) (k : Z) :
  0 <= k ->
  skipn (Z.to_nat (len pre + 1 + k)) (pre ++ c :: post) = skipn (Z.to_nat k) post.
Proof.
  intros Hk. unfold len.
  replace (Z.to_nat (Z.of_nat (length pre) + 1 + k))
    with (length pre + S (Z.to_nat k))%nat by lia.
  rewrite skipn_app, Nat.add_comm, Nat.add_sub.
  rewrite skipn_all2 by lia. reflexivity.
Qed.

(** The first half of a turn, when the window holds a terminator. *)
Lemma try_token_found (s : Scanner) (pre : list byte) (c : byte) (post : list byte) :
  window s = pre ++ c :: post -> noeol pre = true -> is_eol c = true ->
  try_token s =
  ({| r := r s; maxTokenSize := maxTokenSize s; token := Some pre;
      buf_len := buf_len s; start := start s + (len pre + 1 + eol_extra c post);
      window := skipn (Z.to_nat (eol_extra c post)) post;
      err := err s; empties := 0; done := done s |}, Some true).
Proof.
  intros Hw Hp Hc. unfold try_token, s_end. rewrite Hw.
  pose proof (len_nonneg pre) as Hl. pose proof (len_nonneg post) as Hl'.
  pose proof (eol_extra_range c post) as He.
  replace (start s + len (pre ++ c :: post) >? start s) with true.
  2:{ rewrite len_app, len_cons. symmetry. apply Z.gtb_lt. lia. }
  cbn [orb]. rewrite (split_found _ _ _ _ Hp Hc).
  unfold advance, s_end. rewrite Hw, len_app, len_cons.
  destruct (Z.ltb_spec (len pre + 1 + eol_extra c post) 0); [lia|].
  destruct (Z.gtb_spec (len pre + 1 + eol_extra c post)
              (start s + (len pre + (len post + 1)) - start s)); [lia|].
  cbn [negb]. cbn [err done empties].
  replace (len pre + 1 + eol_extra c post >? 0) with true
    by (symmetry; apply Z.gtb_lt; lia).
  rewrite orb_true_r. unfold with_token. cbn.
  rewrite (skipn_past pre c post) by lia. reflexivity.
Qed.

Lemma same_core_Inv (s s1 : Scanner) : same_core s s1 -> Inv s -> Inv s1.
Proof.
  intros (Hr & Hm & Hb & Hs & Hw & He & Hd) [].
  constructor; unfold s_end in *; try congruence.
  all: rewrite ?He, ?Hr; assumption.
Qed.

(** The first half of a turn, when the window holds no terminator. *)
Lemma try_token_more (s : Scanner) :
  err s = None -> noeol (window s) = true ->
  exists s1, try_token s = (s1, None) /\ same_core s s1.
Proof.
  intros He Hw. unfold try_token, s_end. rewrite He. cbn [is_nil negb orb].
  rewrite orb_false_r.
  destruct (Z.gtb_spec (start s + len (window s)) (start s)) as [Hgt|Hle].
  - rewrite (split_none _ false Hw). unfold advance, s_end.
    destruct (Z.ltb_spec 0 0); [lia|].
    destruct (Z.gtb_spec 0 (start s + len (window s) - start s)); [lia|].
    cbn [negb]. eexists. split; [reflexivity|].
    unfold same_core, with_token. cbn. rewrite Z.add_0_r. auto 10.
  - exists s. split; [reflexivity|]. unfold same_core. auto 10.
Qed.

Lemma try_token_stop (s : Scanner) :
  err s = Some EOF -> window s = [] ->
  exists s1, try_token s = (s1, None) /\ same_core s s1.
Proof.
  intros He Hw. unfold try_token, s_end. rewrite He, Hw. cbn [is_nil negb].
  rewrite orb_true_r. cbn [split len length andb Z.of_nat Z.eqb].
  unfold advance, s_end. rewrite Hw. cbn [len length Z.of_nat].
  destruct (Z.ltb_spec 0 0); [lia|].
  destruct (Z.gtb_spec 0 (start s + 0 - start s)); [lia|].
  cbn [negb]. eexists. split; [reflexivity|].
  unfold same_core, with_token. cbn. rewrite Z.add_0_r. auto 10.
Qed.

Lemma try_token_last (s : Scanner) :
  err s = Some EOF -> window s <> [] -> noeol (window s) = true ->
  try_token s =
  ({| r := r s; maxTokenSize := maxTokenSize s; token := Some (window s);
      buf_len := buf_len s; start := start s + len (window s);
      window := [];
      err := err s; empties := 0; done := done s |}, Some true).
Proof.
  intros He Hne Hw. unfold try_token, s_end. rewrite He. cbn [is_nil negb].
  rewrite orb_true_r. rewrite (split_none _ true Hw).
  destruct (window s) as [|a w] eqn:E; [congruence|].
  unfold advance, s_end. rewrite E. rewrite len_cons.
  pose proof (len_nonneg w).
  destruct (Z.ltb_spec (len w + 1) 0); [lia|].
  destruct (Z.gtb_spec (len w + 1) (start s + (len w + 1) - start s)); [lia|].
  cbn [negb err]. rewrite He.
  replace (len w + 1 >? 0) with true by (symmetry; apply Z.gtb_lt; lia).
  cbn [is_nil orb]. unfold with_token. cbn [r maxTokenSize buf_len start window err done].
  replace (Z.to_nat (len w + 1)) with (length (a :: w))
    by (unfold len; simpl length; lia).
  now rewrite skipn_all.
Qed.

(** The second half of a turn. *)
Lemma read_more_stop (s1 : Scanner) :
  err s1 = Some EOF ->
  exists s', read_more s1 = (s', Some false) /\ err s' = Some EOF.
Proof.
  intros He. unfold read_more. rewrite He. cbn [is_nil negb].
  eexists. split; [reflexivity|]. reflexivity.
Qed.

Lemma shift_spec (s : Scanner) :
  Inv s ->
  Inv (shift s) /\ r (shift s) = r s /\ window (shift s) = window s /\
  err (shift s) = err s /\ buf_len (shift s) = buf_len s /\
  maxTokenSize (shift s) = maxTokenSize s /\
  (s_end (shift s) = buf_len (shift s) -> start (shift s) = 0).
Proof.
  intros []. unfold shift.
  destruct (Z.gtb_spec (start s) 0) as [Hs|Hs]; cbn [andb].
  - destruct (Z.eqb_spec (s_end s) (buf_len s)) as [He|He]; cbn [orb].
    + repeat split; cbn; auto; unfold s_end in *; cbn; lia.
    + destruct (Z.gtb_spec (start s) (buf_len s / 2)).
      * repeat split; cbn; auto; unfold s_end in *; cbn; lia.
      * repeat split; auto. intros. lia.
  - repeat split; auto. intros. lia.
Qed.

Lemma fill_spec (s : Scanner) :
  Inv s -> err s = None -> s_end s < buf_len s ->
  Inv (fill s) /\ window (fill s) ++ r (fill s) = window s ++ r s /\
  ((length (r (fill s)) < length (r s))%nat /\ err (fill s) = None \/
   r s = [] /\ r (fill s) = [] /\ err (fill s) = Some EOF).
Proof.
  intros [] He Hlt. unfold fill, Reader_Read.
  destruct (r s) as [|a r0] eqn:Er.
  - cbn [len length Z.of_nat]. destruct (Z.ltb_spec 0 0); [lia|].
    destruct (Z.ltb_spec (buf_len s - s_end s) 0); [lia|].
    cbn [orb]. unfold setErr. cbn [err]. rewrite He. cbn [is_nil orb].
    unfold with_err. cbn. rewrite !app_nil_r.
    repeat split; cbn; auto;
      unfold s_end in *; cbn; rewrite ?app_nil_r; lia.
  - set (k := Z.to_nat (buf_len s - s_end s)).
    set (got := firstn k (a :: r0)).
    assert (Hk : (0 < k)%nat) by (unfold k; lia).
    assert (Hgot : 0 < len got <= buf_len s - s_end s).
    { unfold got, len. rewrite length_firstn. simpl length. lia. }
    destruct (Z.ltb_spec (len got) 0); [lia|].
    destruct (Z.ltb_spec (buf_len s - s_end s) (len got)); [lia|].
    cbn [orb].
    replace (len got >? 0) with true by (symmetry; apply Z.gtb_lt; lia).
    unfold with_token. cbn [r maxTokenSize token buf_len start window err done].
    repeat split; cbn [r maxTokenSize token buf_len start window err done]; auto.
    + unfold s_end in *. cbn [start window]. rewrite len_app. lia.
    + rewrite <- app_assoc. unfold got. now rewrite firstn_skipn.
    + left. split; auto. rewrite length_skipn. simpl length. lia.
Qed.

Lemma maxInt_half : maxInt / 2 = 4611686018427387903.
Proof. reflexivity. Qed.

Lemma read_more_live (s1 : Scanner) :
  Inv s1 -> err s1 = None ->
  (exists s', read_more s1 = (s', Some false) /\ err s' = Some ErrTooLong /\
              MaxScanTokenSize <= len (window s1)) \/
  (exists s', read_more s1 = (s', None) /\ Inv s' /\
              window s' ++ r s' = window s1 ++ r s1 /\
              ((length (r s') < length (r s1))%nat /\ err s' = None \/
               r s1 = [] /\ r s' = [] /\ err s' = Some EOF)).
Proof.
  intros HI He. unfold read_more. rewrite He. cbn [is_nil negb]. cbv zeta.
  destruct (shift_spec s1 HI) as (HI2 & Hr & Hw & He2 & Hb & Hm & H0).
  set (s2 := shift s1) in *. rewrite He in He2.
  destruct (Z.eqb_spec (s_end s2) (buf_len s2)) as [Hfull|Hroom].
  - specialize (H0 Hfull).
    assert (Hlw : len (window s1) = buf_len s2).
    { rewrite <- Hw, <- Hfull. unfold s_end. lia. }
    destruct HI2. rewrite inv_max0, maxInt_half.
    destruct (Z.geb_spec (buf_len s2) MaxScanTokenSize) as [Hge|Hlt'].
    + left. cbn [orb]. eexists. split; [reflexivity|].
      split; [|lia]. unfold setErr. rewrite He2. reflexivity.
    + destruct (Z.gtb_spec (buf_len s2) 4611686018427387903) as [Hbig|_].
      { unfold MaxScanTokenSize in *. lia. }
      right. cbn [orb].
      set (newSize := Z.min _ _).
      assert (Hn : buf_len s2 < newSize <= MaxScanTokenSize).
      { unfold newSize. pose proof (len_nonneg (window s1)).
        destruct (Z.eqb_spec (buf_len s2 * 2) 0); unfold startBufSize; lia. }
      assert (HI3 : Inv (resize s2 newSize)).
      { destruct HI as [? ? ? ? Hd ?].
        constructor; cbn; auto; unfold s_end, MaxScanTokenSize in *; cbn; lia. }
      destruct (fill_spec (resize s2 newSize) HI3) as (HI4 & Hcat & Hprog).
      { exact He2. }
      { unfold s_end in *. cbn. lia. }
      eexists. split; [reflexivity|]. split; [exact HI4|].
      cbn [resize r window] in Hcat, Hprog. rewrite Hr, Hw in *.
      split; assumption.
  - right. destruct (fill_spec s2 HI2 He2) as (HI4 & Hcat & Hprog).
    { destruct HI2. lia. }
    eexists. split; [reflexivity|]. split; [exact HI4|].
    rewrite Hr, Hw in *. split; assumption.
Qed.

(** One turn of [Scan] does one of five things. *)
Lemma Scan_iter_spec (s : Scanner) : Inv s -> iter_spec s (Scan_iter s).
Proof.
  intros HI. unfold Scan_iter.
  destruct (Z.ltb_spec (IndexAny_CRLF (window s)) 0) as [Hnone|Hfound].
  - (* no terminator in the window *)
    apply IndexAny_CRLF_none in Hnone.
    destruct (inv_err s HI) as [He|[He Hr]].
    + destruct (try_token_more s He Hnone) as (s1 & -> & Hc).
      pose proof (same_core_Inv _ _ Hc HI) as HI1.
      destruct Hc as (Hr1 & _ & _ & _ & Hw1 & He1 & _).
      rewrite He in He1.
      destruct (read_more_live s1 HI1 He1)
        as [(s' & -> & He' & Hlong)|(s' & -> & HI' & Hcat & Hprog)].
      * apply it_long; auto. now rewrite <- Hw1.
      * apply it_more; auto; now rewrite <- ?Hw1, <- ?Hr1.
    + assert (Hcase : window s = [] \/ window s <> [])
        by (destruct (window s); [left|right]; congruence).
      destruct Hcase as [Ew|Hne].
      * destruct (try_token_stop s He Ew) as (s1 & -> & Hc).
        destruct Hc as (_ & _ & _ & _ & _ & He1 & _). rewrite He in He1.
        destruct (read_more_stop s1 He1) as (s' & -> & He').
        now apply it_stop.
      * rewrite (try_token_last s He Hne Hnone).
        apply it_last; auto.
        pose proof (len_nonneg (window s)).
        destruct HI. constructor; cbn; auto; unfold s_end in *; cbn; lia.
  - (* a terminator in the window *)
    destruct (IndexAny_CRLF_found _ Hfound) as (pre & c & post & Hw & _ & Hp & Hc).
    rewrite (try_token_found s pre c post Hw Hp Hc).
    eapply it_line; eauto.
    pose proof (eol_extra_range c post) as Hx.
    pose proof (len_nonneg pre). pose proof (len_nonneg post).
    destruct HI. constructor; cbn; auto.
    + lia.
    + unfold s_end in *. cbn. rewrite len_skipn by lia.
      rewrite Hw, len_app, len_cons in inv_end0. lia.
Qed.

(** More fuel does not change what [Scan_loop] returns. *)
Lemma Scan_loop_mono (f f' : nat) (s : Scanner) (x : Scanner * bool) :
  Scan_loop f s = Some x -> (f <= f')%nat -> Scan_loop f' s = Some x.
Proof.
  revert f' s. induction f as [|f IH]; intros f' s; [discriminate|].
  intros H Hle. destruct f' as [|f']; [lia|].
  cbn [Scan_loop] in *. destruct (Scan_iter s) as [s' [b|]]; auto.
  apply IH; auto. lia.
Qed.

Lemma Scan_loop_enough (f : nat) :
  forall s, Inv s -> (turns s <= f)%nat -> exists x, Scan_loop f s = Some x.
Proof.
  induction f as [|f IH]; intros s HI Hf.
  - unfold turns in Hf. destruct (is_nil (err s)); lia.
  - cbn [Scan_loop]. pose proof (Scan_iter_spec s HI) as Hspec.
    destruct (Scan_iter s) as [s' [b|]]; [eauto|].
    inversion Hspec as [| |? He Hn HI' Hcat Hprog| |]; subst.
    apply IH; auto. unfold turns in *. rewrite He in Hf. cbn [is_nil] in Hf.
    destruct Hprog as [[Hlt ->]|(_ & _ & ->)]; cbn [is_nil]; lia.
Qed.

(** [Scan] returns: the fuel it is given is enough. *)
Lemma Scan_loop_returns (s : Scanner) :
  Inv s -> exists x, Scan_loop (Scan_fuel s) s = Some x.
Proof.
  intros HI. apply Scan_loop_enough; auto.
  unfold turns, Scan_fuel. destruct (is_nil (err s)); lia.
Qed.

Lemma Scan_eq (s : Scanner) (f : nat) (x : Scanner * bool) :
  Inv s -> Scan_loop f s = Some x -> Scan s = x.
Proof.
  intros HI Hx. unfold Scan. rewrite (inv_done s HI).
  destruct (Scan_loop_returns s HI) as (y & Hy). rewrite Hy.
  apply (Scan_loop_mono _ (Nat.max f (Scan_fuel s))) in Hx; [|lia].
  apply (Scan_loop_mono _ (Nat.max f (Scan_fuel s))) in Hy; [|lia].
  congruence.
Qed.

(** [Scan] is its first turn followed, unless that returns, by [Scan]. *)
Lemma Scan_unfold (s : Scanner) :
  Inv s ->
  Scan s = match Scan_iter s with
           | (s', Some b) => (s', b)
           | (s', None) => Scan s'
           end.
Proof.
  intros HI. pose proof (Scan_iter_spec s HI) as Hspec.
  destruct (Scan_iter s) as [s' [b|]] eqn:E.
  - apply (Scan_eq s 1); auto. cbn [Scan_loop]. now rewrite E.
  - assert (HI' : Inv s') by (inversion Hspec; auto).
    destruct (Scan_loop_returns s' HI') as (y & Hy).
    rewrite (Scan_eq s' _ y HI' Hy).
    apply (Scan_eq s (S (Scan_fuel s'))); auto.
    cbn [Scan_loop]. now rewrite E.
Qed.

(** ** The lines [ParseBody] collects *)

Lemma no_CRLF_pair_tail (a : byte) (l : list byte) :
  no_CRLF_pair (a :: l) = true -> no_CRLF_pair l = true.
Proof.
  cbn [no_CRLF_pair]. destruct l as [|c l]; [reflexivity|].
  intros H. apply andb_true_iff in H as [_ H]. exact H.
Qed.

Lemma no_CRLF_pair_app_r (l1 l2 : list byte) :
  no_CRLF_pair (l1 ++ l2) = true -> no_CRLF_pair l2 = true.
Proof.
  induction l1 as [|a l1 IH]; [auto|].
  intros H. apply IH. now apply no_CRLF_pair_tail in H.
Qed.

Lemma no_CRLF_pair_skipn (n : nat) (l : list byte) :
  no_CRLF_pair l = true -> no_CRLF_pair (skipn n l) = true.
Proof.
  intros H. rewrite <- (firstn_skipn n l) in H.
  now apply no_CRLF_pair_app_r in H.
Qed.

(** The terminator [c] of the window is seen by [split] with what
    follows it in the window only; under [whole_pairs] that is what
    follows it in the input. *)
Lemma eol_extra_app (s : Scanner) (pre : list byte) (c : byte) (post : list byte) :
  window s = pre ++ c :: post -> is_eol c = true -> whole_pairs s ->
  eol_extra c (post ++ r s) = eol_extra c post.
Proof.
  intros Hw Hc [Hr|Hn].
  - now rewrite Hr, app_nil_r.
  - unfold eol_extra. destruct (Byte.eqb c LF) eqn:Elf; [reflexivity|].
    destruct post as [|c' post']; [|reflexivity].
    cbn [app]. destruct (r s) as [|x r0]; [reflexivity|].
    destruct (Byte.eqb x LF) eqn:Ex; [|reflexivity].
    exfalso. rewrite Hw, <- app_assoc in Hn. apply no_CRLF_pair_app_r in Hn.
    cbn [app no_CRLF_pair] in Hn. unfold is_eol in Hc.
    rewrite Elf, orb_false_r in Hc. rewrite Hc, Ex in Hn. discriminate.
Qed.

(** The loop of [ParseBody] from any state of the scanner: it ends, and
    it ends either with the token-too-long error, met while at least
    [MaxScanTokenSize] bytes were ahead, or with no error, and then,
    when no CR LF pair is in danger, having appended the lines of the
    specification for the bytes ahead. *)
Lemma scan_lines_spec (m : nat) :
  forall s fuel acc,
    (measure s < m)%nat -> Inv s ->
    (length (window s) + length (r s) < fuel)%nat ->
    exists s' lines,
      scan_lines fuel s acc = Some (s', lines) /\
      ((Scanner_Err s' = Some ErrTooLong /\
        MaxScanTokenSize <= len (window s) + len (r s)) \/
       (Scanner_Err s' = None /\
        (whole_pairs s ->
         lines = acc ++ map string_of_list_byte (spec_split [] (window s ++ r s))))).
Proof.
  induction m as [|m IH]; intros s fuel acc Hm HI Hfuel; [lia|].
  destruct fuel as [|fuel]; [lia|].
  cbn [scan_lines]. rewrite (Scan_unfold s HI).
  pose proof (Scan_iter_spec s HI) as Hspec.
  destruct (Scan_iter s) as [s' o].
  inversion Hspec as
    [pre c post s0 Hw Hp Hc HI' Hr' He' Ht' Hw'
    |s0 He Hne Hp HI' Hr' He' Ht' Hw'
    |s0 He Hp HI' Hcat Hprog
    |s0 He Hw He'
    |s0 He Hp Hlong He']; subst.
  - (* a terminated line *)
    pose proof (eol_extra_range c post) as Hx.
    assert (Hlen : (length (window s') < length (window s))%nat).
    { rewrite Hw', Hw, length_skipn, length_app. simpl length. lia. }
    destruct (IH s' fuel (acc ++ [Text s'])) as (s'' & lines & Hrun & Hres).
    { unfold measure in *. rewrite Hr', He'. lia. }
    { exact HI'. }
    { rewrite Hr'. lia. }
    exists s'', lines. split; [exact Hrun|].
    destruct Hres as [[Hel Hl]|[Hen Hl]].
    + left. split; auto. unfold len in *. rewrite Hr' in Hl. lia.
    + right. split; auto. intros Hwp.
      rewrite Hl.
      2:{ destruct Hwp as [Hr0|Hn]; [left; congruence|right].
          rewrite Hr', Hw'. rewrite Hw, <- app_assoc in Hn.
          apply no_CRLF_pair_app_r, no_CRLF_pair_tail in Hn.
          apply (no_CRLF_pair_skipn (Z.to_nat (eol_extra c post))) in Hn.
          rewrite skipn_app in Hn.
          replace (Z.to_nat (eol_extra c post) - length post)%nat with 0%nat in Hn
            by (unfold len in Hx; lia).
          exact Hn. }
      rewrite <- app_assoc. f_equal.
      rewrite Hw at 1. rewrite <- app_assoc. cbn [app].
      rewrite (spec_split_found pre c (post ++ r s) [] Hp Hc).
      rewrite (eol_extra_app s pre c post Hw Hc Hwp).
      cbn [map rev app]. unfold Text. rewrite Ht'. f_equal. f_equal.
      rewrite Hr', Hw', skipn_app.
      replace (Z.to_nat (eol_extra c post) - length post)%nat with 0%nat
        by (unfold len in Hx; lia).
      reflexivity.
  - (* the last, unterminated line *)
    destruct (inv_err s HI) as [He0|[_ Hr]]; [congruence|].
    assert (Hlen : (0 < length (window s))%nat).
    { destruct (window s); [congruence | simpl; lia]. }
    destruct (IH s' fuel (acc ++ [Text s'])) as (s'' & lines & Hrun & Hres).
    { unfold measure in *. rewrite Hr', He', Hw'. simpl length. lia. }
    { exact HI'. }
    { rewrite Hr', Hw'. simpl length. lia. }
    exists s'', lines. split; [exact Hrun|].
    destruct Hres as [[Hel Hl]|[Hen Hl]].
    + left. split; auto. rewrite Hw', Hr' in Hl. pose proof (len_nonneg (window s)).
      cbn [len length Z.of_nat] in Hl. lia.
    + right. split; auto. intros _. rewrite Hl by (left; congruence).
      rewrite Hw', Hr', Hr, app_nil_r. cbn [app spec_split map].
      rewrite app_nil_r, (spec_split_none _ [] Hp). cbn [rev app].
      unfold Text. rewrite Ht'.
      destruct (window s); [congruence | reflexivity].
  - (* more data read, or the end of the input recorded *)
    assert (Hlens : (length (window s') + length (r s')
                     = length (window s) + length (r s))%nat).
    { rewrite <- !length_app. now rewrite Hcat. }
    destruct (IH s' (S fuel) acc) as (s'' & lines & Hrun & Hres).
    { unfold measure in *. rewrite He in Hm. cbn [is_nil] in Hm.
      destruct Hprog as [[Hlt ->]|(Hr0 & Hr1 & ->)]; cbn [is_nil]; [lia|].
      rewrite Hr0, Hr1 in *. lia. }
    { exact HI'. }
    { lia. }
    cbn [scan_lines] in Hrun.
    exists s'', lines. split; [exact Hrun|].
    unfold len in *. rewrite Hcat in Hres.
    destruct Hres as [[Hel Hl]|[Hen Hl]]; [left; split; auto; lia|].
    right. split; auto. intros Hwp. apply Hl.
    destruct Hwp as [Hr0|Hn]; [|right; now rewrite Hcat].
    left. destruct Hprog as [[Hlt _]|(_ & Hr1 & _)]; [|exact Hr1].
    rewrite Hr0 in Hlt. simpl in Hlt. lia.
  - (* nothing left *)
    destruct (inv_err s HI) as [He0|[_ Hr]]; [congruence|].
    exists s', acc. split; [reflexivity|]. right.
    unfold Scanner_Err. rewrite He'. cbn [is_EOF]. split; auto.
    intros _. rewrite Hw, Hr. cbn. now rewrite app_nil_r.
  - (* the buffer is full and cannot grow *)
    exists s', acc. split; [reflexivity|]. left.
    unfold Scanner_Err. rewrite He'. cbn [is_EOF]. split; auto.
    pose proof (len_nonneg (r s)). lia.
Qed.

(** [ParseBody]'s loop ends for every input, with the outcome above. *)
Lemma read_lines_spec (b : list byte) :
  exists s lines,
    read_lines b = Some (s, lines) /\
    ((Scanner_Err s = Some ErrTooLong /\ MaxScanTokenSize <= len b) \/
     (Scanner_Err s = None /\
      (no_CRLF_pair b = true -> lines = spec_lines b))).
Proof.
  unfold read_lines.
  destruct (scan_lines_spec (S (measure (NewScanner b))) (NewScanner b)
              (S (length b)) []) as (s & lines & Hrun & Hres).
  { lia. }
  { apply Inv_NewScanner. }
  { cbn. lia. }
  exists s, lines. split; [exact Hrun|].
  cbn [NewScanner window r app len length Z.of_nat] in Hres.
  destruct Hres as [[He Hl]|[He Hl]]; [left; split; auto; unfold len in *; try lia|].
  right. split; auto. intros Hn. apply Hl. right. exact Hn.
Qed.

(** The first turn of the first [Scan] on an input that fits the initial
    buffer: the buffer is allocated and holds the whole input. *)
Lemma first_turn (b : list byte) :
  b <> [] -> len b <= startBufSize ->
  Scan_iter (NewScanner b) =
  ({| r := []; maxTokenSize := MaxScanTokenSize; token := None;
      buf_len := startBufSize; start := 0; window := b; err := None;
      empties := 0; done := false |}, None).
Proof.
  intros Hne Hlen.
  change (Scan_iter (NewScanner b))
    with (fill (resize (NewScanner b) startBufSize), @None bool).
  f_equal. unfold fill, Reader_Read.
  change (buf_len (resize (NewScanner b) startBufSize)
          - s_end (resize (NewScanner b) startBufSize)) with 4096.
  change (r (resize (NewScanner b) startBufSize)) with b.
  destruct b as [|a b]; [congruence|].
  unfold startBufSize, len in Hlen.
  rewrite firstn_all2 by lia.
  rewrite skipn_all2 by lia.
  assert (Hl : 0 < len (a :: b) <= 4096) by (unfold len in *; simpl length in *; lia).
  destruct (Z.ltb_spec (len (a :: b)) 0); [lia|].
  destruct (Z.ltb_spec 4096 (len (a :: b))); [lia|].
  cbn [orb].
  replace (len (a :: b) >? 0) with true by (symmetry; apply Z.gtb_lt; lia).
  reflexivity.
Qed.

Lemma read_lines_small (b : list byte) :
  len b <= startBufSize ->
  exists s, read_lines b = Some (s, spec_lines b) /\ Scanner_Err s = None.
Proof.
  intros Hlen. destruct b as [|a b].
  - eexists. split; reflexivity.
  - set (b' := a :: b) in *.
    assert (Hne : b' <> []) by discriminate.
    unfold read_lines. cbn [scan_lines].
    rewrite (Scan_unfold _ (Inv_NewScanner b')), (first_turn b' Hne Hlen).
    set (s1 := {| r := []; window := b' |}).
    assert (HI : Inv s1).
    { constructor; cbn; auto; unfold s_end, startBufSize, MaxScanTokenSize, len;
        cbn [start window]; lia. }
    destruct (scan_lines_spec (S (measure s1)) s1 (S (length b')) [])
      as (s & lines & Hrun & Hres); auto.
    { cbn. lia. }
    cbn [scan_lines] in Hrun.
    destruct Hres as [[He Hl]|[He Hl]].
    + exfalso. unfold s1 in Hl. cbn [window r] in Hl.
      unfold MaxScanTokenSize, startBufSize, len in *. simpl length in *. lia.
    + exists s. split; auto. rewrite Hrun, Hl by (left; reflexivity).
      cbn [s1 window r]. now rewrite app_nil_r.
Qed.

(** ** The lines of an input no CR LF pair of which is cut by a read *)

Lemma last_app_cons {A} (pre : list A) (c : A) (post : list A) (d : A) :
  last (pre ++ c :: post) d = last (c :: post) d.
Proof.
  induction pre as [|a pre IH]; [reflexivity|].
  cbn [app]. rewrite <- IH. cbn [last].
  destruct (pre ++ c :: post) eqn:E; [|reflexivity].
  now destruct pre.
Qed.

(** When no pair is cut, the terminator [c] of the window is seen by
    [split] with what follows it in the input. *)
Lemma eol_extra_whole (s : Scanner) (pre : list byte) (c : byte) (post : list byte) :
  window s = pre ++ c :: post -> is_eol c = true -> cut_pair s = false ->
  eol_extra c (post ++ r s) = eol_extra c post.
Proof.
  intros Hw Hc Hcut. unfold eol_extra.
  destruct (Byte.eqb c LF) eqn:Elf; [reflexivity|].
  destruct post as [|c' post']; [|reflexivity].
  cbn [app]. destruct (r s) as [|x r0] eqn:Er; [reflexivity|].
  unfold cut_pair in Hcut. rewrite Er, Hw, last_app_cons in Hcut.
  cbn [last] in Hcut. unfold is_eol in Hc. rewrite Elf, orb_false_r in Hc.
  rewrite Hc in Hcut. cbn [andb] in Hcut.
  destruct (pre ++ [c]) eqn:E; [now destruct pre|]. now rewrite Hcut.
Qed.

(** The loop of [ParseBody] from any state of the scanner: when it ends
    without an error and no read on the way has cut a CR LF pair, it has
    appended the lines of the specification for the bytes ahead. *)
Lemma scan_lines_whole (m : nat) :
  forall s fuel acc s'' lines,
    (measure s < m)%nat -> Inv s ->
    existsb cut_pair (turn_states m s) = false ->
    scan_lines fuel s acc = Some (s'', lines) -> Scanner_Err s'' = None ->
    lines = acc ++ map string_of_list_byte (spec_split [] (window s ++ r s)).
Proof.
  induction m as [|m IH]; intros s fuel acc s'' lines Hm HI Hcut Hrun Herr; [lia|].
  destruct fuel as [|fuel]; [discriminate|].
  cbn [scan_lines] in Hrun. rewrite (Scan_unfold s HI) in Hrun.
  cbn [turn_states existsb] in Hcut. apply orb_false_iff in Hcut as [Hc0 Hcut].
  pose proof (Scan_iter_spec s HI) as Hspec.
  destruct (Scan_iter s) as [s' o].
  inversion Hspec as
    [pre c post s0 Hw Hp Hc HI' Hr' He' Ht' Hw'
    |s0 He Hne Hp HI' Hr' He' Ht' Hw'
    |s0 He Hp HI' Hcat Hprog
    |s0 He Hw He'
    |s0 He Hp Hlong He']; subst.
  - (* a terminated line *)
    pose proof (eol_extra_range c post) as Hx.
    assert (Hlen : (length (window s') < length (window s))%nat).
    { rewrite Hw', Hw, length_skipn, length_app. simpl length. lia. }
    apply IH in Hrun; auto.
    2:{ unfold measure in *. rewrite Hr', He'. lia. }
    rewrite Hrun, <- app_assoc. f_equal.
    rewrite Hw at 1. rewrite <- app_assoc. cbn [app].
    rewrite (spec_split_found pre c (post ++ r s) [] Hp Hc).
    rewrite (eol_extra_whole s pre c post Hw Hc Hc0).
    cbn [map rev app]. unfold Text. rewrite Ht'. f_equal. f_equal.
    rewrite Hr', Hw', skipn_app.
    replace (Z.to_nat (eol_extra c post) - length post)%nat with 0%nat
      by (unfold len in Hx; lia).
    reflexivity.
  - (* the last, unterminated line *)
    destruct (inv_err s HI) as [He0|[_ Hr]]; [congruence|].
    assert (Hlen : (0 < length (window s))%nat).
    { destruct (window s); [congruence | simpl; lia]. }
    apply IH in Hrun; auto.
    2:{ unfold measure in *. rewrite Hr', He', Hw'. simpl length. lia. }
    rewrite Hrun, Hw', Hr', Hr, app_nil_r. cbn [app spec_split map].
    rewrite app_nil_r, (spec_split_none _ [] Hp). cbn [rev app].
    unfold Text. rewrite Ht'.
    destruct (window s); [congruence | reflexivity].
  - (* more data read, or the end of the input recorded *)
    change (scan_lines (S fuel) s' acc = Some (s'', lines)) in Hrun.
    apply IH in Hrun; auto.
    2:{ unfold measure in *. rewrite He in Hm. cbn [is_nil] in Hm.
        assert (Hlens : (length (window s') + length (r s')
                         = length (window s) + length (r s))%nat)
          by (rewrite <- !length_app; now rewrite Hcat).
        destruct Hprog as [[Hlt ->]|(Hr0 & Hr1 & ->)]; cbn [is_nil]; [lia|].
        rewrite Hr0, Hr1 in *. lia. }
    now rewrite Hrun, Hcat.
  - (* nothing left *)
    destruct (inv_err s HI) as [He0|[_ Hr]]; [congruence|].
    injection Hrun as _ <-. rewrite Hw, Hr. cbn. now rewrite app_nil_r.
  - (* the buffer is full and cannot grow *)
    injection Hrun as <- _. unfold Scanner_Err in Herr. rewrite He' in Herr.
    discriminate Herr.
Qed.

Lemma turn_states_S (m : nat) (s : Scanner) :
  turn_states (S m) s =
  s :: match Scan_iter s with
       | (_, Some false) => []
       | (s', _) => turn_states m s'
       end.
Proof. reflexivity. Qed.

(** Every turn that is followed by another takes bytes from the window,
    or from the reader, or records the end of the input. *)
Lemma turn_measure (s s' : Scanner) (o : option bool) :
  Inv s -> Scan_iter s = (s', o) -> o <> Some false ->
  Inv s' /\ (measure s' < measure s)%nat.
Proof.
  intros HI E Ho. pose proof (Scan_iter_spec s HI) as Hspec. rewrite E in Hspec.
  inversion Hspec as
    [pre c post s0 Hw Hp Hc HI' Hr' He' Ht' Hw'
    |s0 He Hne Hp HI' Hr' He' Ht' Hw'
    |s0 He Hp HI' Hcat Hprog
    |s0 He Hw He'
    |s0 He Hp Hlong He']; subst; try congruence; (split; [exact HI'|]).
  - pose proof (eol_extra_range c post) as Hx.
    unfold measure. rewrite Hr', He', Hw', Hw, length_skipn, length_app.
    simpl length. lia.
  - unfold measure. rewrite Hr', He', Hw'.
    destruct (window s); [congruence | simpl length; lia].
  - unfold measure. rewrite He. cbn [is_nil].
    assert (Hlens : (length (window s') + length (r s')
                     = length (window s) + length (r s))%nat)
      by (rewrite <- !length_app; now rewrite Hcat).
    destruct Hprog as [[Hlt ->]|(Hr0 & Hr1 & ->)]; cbn [is_nil]; [lia|].
    rewrite Hr0, Hr1 in *. lia.
Qed.

(** More turns than the measure of the scanner are never taken. *)
Lemma turn_states_enough (m : nat) :
  forall s k, Inv s -> (measure s < m)%nat ->
              turn_states (m + k) s = turn_states m s.
Proof.
  induction m as [|m IH]; intros s k HI Hm; [lia|].
  cbn [Nat.add]. rewrite !turn_states_S. f_equal.
  destruct (Scan_iter s) as [s' o] eqn:E.
  destruct o as [[|]|]; [|reflexivity|].
  all: destruct (turn_measure s s' _ HI E ltac:(discriminate)) as [HI' Hlt];
    apply IH; [exact HI' | lia].
Qed.

(** The turns [cuts_a_pair] looks at are all the turns there are. *)
Lemma cuts_a_pair_all (b : list byte) (k : nat) :
  existsb cut_pair (turn_states (3 * length b + 2 + k) (NewScanner b))
  = cuts_a_pair b.
Proof.
  unfold cuts_a_pair. rewrite turn_states_enough; [reflexivity| |].
  - apply Inv_NewScanner.
  - cbn. lia.
Qed.

Lemma no_CRLF_pair_last (w : list byte) (x : byte) (rest : list byte) :
  w <> [] -> no_CRLF_pair (w ++ x :: rest) = true ->
  Byte.eqb (last w x00) CR && Byte.eqb x LF = false.
Proof.
  induction w as [|a w IH]; intros Hne Hn; [congruence|].
  destruct w as [|a' w].
  - cbn [app no_CRLF_pair last] in *.
    apply andb_true_iff in Hn as [Hn _]. now apply negb_true_iff in Hn.
  - change (last (a :: a' :: w) x00) with (last (a' :: w) x00).
    apply IH; [discriminate|]. now apply no_CRLF_pair_tail in Hn.
Qed.

(** A scanner that has read all the input, or has no CR LF pair ahead,
    cuts none. *)
Lemma whole_pairs_cut (s : Scanner) : whole_pairs s -> cut_pair s = false.
Proof.
  intros [Hr|Hn]; unfold cut_pair.
  - rewrite Hr. now destruct (window s).
  - destruct (window s) as [|a w] eqn:Ew; [reflexivity|].
    destruct (r s) as [|x r0]; [reflexivity|].
    rewrite <- Ew in *. apply (no_CRLF_pair_last _ x r0); [|exact Hn].
    rewrite Ew. discriminate.
Qed.

Lemma whole_pairs_turn (s s' : Scanner) (o : option bool) :
  Inv s -> Scan_iter s = (s', o) -> o <> Some false -> whole_pairs s ->
  Inv s' /\ whole_pairs s'.
Proof.
  intros HI E Ho Hwp. pose proof (Scan_iter_spec s HI) as Hspec. rewrite E in Hspec.
  inversion Hspec as
    [pre c post s0 Hw Hp Hc HI' Hr' He' Ht' Hw'
    |s0 He Hne Hp HI' Hr' He' Ht' Hw'
    |s0 He Hp HI' Hcat Hprog
    |s0 He Hw He'
    |s0 He Hp Hlong He']; subst; try congruence; (split; [exact HI'|]).
  - pose proof (eol_extra_range c post) as Hx.
    destruct Hwp as [Hr0|Hn]; [left; congruence|right].
    rewrite Hr', Hw'. rewrite Hw, <- app_assoc in Hn.
    apply no_CRLF_pair_app_r, no_CRLF_pair_tail in Hn.
    apply (no_CRLF_pair_skipn (Z.to_nat (eol_extra c post))) in Hn.
    rewrite skipn_app in Hn.
    replace (Z.to_nat (eol_extra c post) - length post)%nat with 0%nat in Hn
      by (unfold len in Hx; lia).
    exact Hn.
  - destruct (inv_err s HI) as [He0|[_ Hr]]; [congruence|].
    left. congruence.
  - destruct Hwp as [Hr0|Hn]; [|right; now rewrite Hcat].
    left. destruct Hprog as [[Hlt _]|(_ & Hr1 & _)]; [|exact Hr1].
    rewrite Hr0 in Hlt. simpl in Hlt. lia.
Qed.

Lemma whole_pairs_no_cut (m : nat) :
  forall s, Inv s -> whole_pairs s -> existsb cut_pair (turn_states m s) = false.
Proof.
  induction m as [|m IH]; intros s HI Hwp; [reflexivity|].
  cbn [turn_states existsb]. rewrite (whole_pairs_cut s Hwp). cbn [orb].
  destruct (Scan_iter s) as [s' o] eqn:E.
  destruct o as [[|]|]; [| reflexivity |].
  all: destruct (whole_pairs_turn s s' _ HI E ltac:(discriminate) Hwp) as [HI' Hwp'];
    now apply IH.
Qed.

(** No read cuts a pair of an input that has none. *)
Lemma no_CRLF_pair_no_cut (b : list byte) :
  no_CRLF_pair b = true -> cuts_a_pair b = false.
Proof.
  intros Hn. apply whole_pairs_no_cut; [apply Inv_NewScanner|].
  right. exact Hn.
Qed.

(** No read cuts a pair of an input that fits the initial buffer: the
    first read takes it all. *)
Lemma small_no_cut (b : list byte) :
  len b <= startBufSize -> cuts_a_pair b = false.
Proof.
  intros Hlen. destruct b as [|a b]; [reflexivity|].
  set (b' := a :: b) in *.
  assert (Hne : b' <> []) by discriminate.
  unfold cuts_a_pair.
  replace (3 * length b' + 2)%nat with (S (3 * length b' + 1)) by lia.
  rewrite turn_states_S, (first_turn b' Hne Hlen).
  apply orb_false_iff. split; [reflexivity|].
  apply whole_pairs_no_cut; [|left; reflexivity].
  constructor; cbn; auto; unfold s_end, startBufSize, MaxScanTokenSize, len in *;
    cbn [start window]; lia.
Qed.

(** The Line Splitter ends either without an error or with the
    token-too-long error, the latter only on inputs of at least
    [MaxScanTokenSize] bytes and with no line handed on. *)
Lemma Lines_error (b : list byte) :
  snd (Lines b) = None \/
  (snd (Lines b) = Some ErrTooLong /\ MaxScanTokenSize <= len b).
Proof.
  unfold Lines.
  destruct (read_lines_spec b) as (s & lines & -> & [[He Hl]|[He _]]).
  - right. cbn [snd]. auto.
  - left. exact He.
Qed.

(** ** The claims about [ParseBody] *)

Example Lines_empty : Lines [] = ([], None).
Proof. reflexivity. Qed.

Example Lines_mixed_file :
  Lines mixed_file =
  (["a.com, 1, DIRECT"; "b.com, 2, RESELLER, f08c47fec0942fa0"; "# end";
    "subdomain=c.a.com"]%string, None).
Proof. reflexivity. Qed.

(** C1 (amended): for every byte input on which the scanner does not
    stop with its token-too-long error and on which no read of the
    scanner ends between the two bytes of a CR LF pair, the lines
    [ParseBody] collects are the lines obtained by splitting the input on
    [\r?\n|\r]: a boundary at each lone [\n], at each [\r\n] pair and at
    each lone [\r], with a final unterminated fragment as the last line.
    The inputs that fit the scanner's first buffer of 4096 bytes meet
    both conditions, the empty input among them, which gives no line;
    the inputs of any length without a CR LF pair meet the second. *)
Theorem Lines_spec_lines (b : list byte) :
  (snd (Lines b) = None -> cuts_a_pair b = false ->
   Lines b = (spec_lines b, None)) /\
  (len b <= startBufSize -> snd (Lines b) = None /\ cuts_a_pair b = false) /\
  (no_CRLF_pair b = true -> cuts_a_pair b = false).
Proof.
  split; [|split].
  - unfold Lines.
    destruct (read_lines_spec b) as (s & lines & Hrun & _). rewrite Hrun.
    cbn [snd]. intros Herr Hcut. rewrite Herr. f_equal.
    unfold read_lines in Hrun.
    apply (scan_lines_whole (3 * length b + 2)) in Hrun; auto.
    + cbn. lia.
    + apply Inv_NewScanner.
  - intros Hsmall. split; [|exact (small_no_cut b Hsmall)].
    unfold Lines. destruct (read_lines_small b Hsmall) as (s & -> & He).
    exact He.
  - exact (no_CRLF_pair_no_cut b).
Qed.

(** A file of 10841 bytes with CR LF pairs, a lone CR, a lone LF and a
    last line without a line end: the scanner reads it in three reads,
    none of which ends inside a pair. *)
Lemma Lines_spec_lines_witness :
  2 * startBufSize < len long_file /\ no_CRLF_pair long_file = false /\
  snd (Lines long_file) = None /\ cuts_a_pair long_file = false /\
  Lines long_file = (spec_lines long_file, None).
Proof.
  assert (He : snd (Lines long_file) = None) by (vm_compute; reflexivity).
  assert (Hc : cuts_a_pair long_file = false) by (vm_compute; reflexivity).
  split; [vm_compute; reflexivity|]. split; [vm_compute; reflexivity|].
  split; [exact He|]. split; [exact Hc|].
  exact (proj1 (Lines_spec_lines long_file) He Hc).
Defined.

(** What the scanner makes of a CR LF pair that lies across the end of
    its first buffer: two line ends, hence an empty line that the
    specification's splitting does not have. *)
Example Lines_crlf_across_buffers :
  map String.length (fst (Lines crlf_across_buffers)) = [4095; 0]%nat /\
  snd (Lines crlf_across_buffers) = None /\
  map String.length (spec_lines crlf_across_buffers) = [4095]%nat.
Proof. vm_compute. auto. Qed.

Example cuts_crlf_across_buffers : cuts_a_pair crlf_across_buffers = true.
Proof. vm_compute. reflexivity. Qed.

(** C1, as stated, fails: on 4095 bytes followed by CR LF the scanner
    yields one line more than the splitting on [\r?\n|\r], and on one
    line of 65536 bytes it yields no line at all, but an error. *)
Lemma Lines_spec_lines_counterexample :
  Lines crlf_across_buffers <> (spec_lines crlf_across_buffers, None) /\
  Lines long_line <> (spec_lines long_line, None).
Proof.
  split; intros H.
  - apply (f_equal (fun x => List.length (fst x))) in H.
    vm_compute in H. discriminate H.
  - apply (f_equal snd) in H. cbn [snd] in H.
    vm_compute in H. discriminate H.
Qed.

(** C2: [ParseBody] on the file of the specification gives the Data
    Record of its first line and the Variable Record of its last line,
    in this order, and nothing else: the comment line and the blank line
    give no record. *)
Theorem ParseBody_example_file :
  ParseBody RecordParser.Records RecordParser.parseRecords example_file =
  (Some [RecordParser.DataRec
           {| RecordParser.AdSystemDomain := "example.com";
              RecordParser.PublisherAccountID := "1234";
              RecordParser.Relationship := RecordParser.DIRECT;
              RecordParser.CertificationAuthorityID := None |};
         RecordParser.VariableRec
           {| RecordParser.Name := "CONTACT";
              RecordParser.Value := "adops@example.com" |}],
   None) /\
  fst (Lines example_file) =
  ["example.com, 1234, DIRECT"; "#comment"; ""; "CONTACT=adops@example.com"]%string /\
  RecordParser.parseRecords ["#comment"%string] = [] /\
  RecordParser.parseRecords [""%string] = [].
Proof. repeat split; reflexivity. Qed.

(** C3 (amended): for every byte input [ParseBody] returns either a
    record sequence, the one [parseRecords] makes of the lines, with a
    nil error, or no records with the scanner's token-too-long error; the
    error is returned only for an input of at least 65536 bytes.  The
    Record Parser itself is a total function and reports no error. *)
Theorem ParseBody_error (Records : Type) (parseRecords : list string -> Records)
    (b : list byte) :
  ParseBody Records parseRecords b = (Some (parseRecords (fst (Lines b))), None) \/
  (ParseBody Records parseRecords b = (None, Some ErrTooLong) /\
   MaxScanTokenSize <= len b).
Proof.
  unfold ParseBody. destruct (Lines_error b) as [H|[H Hl]];
    destruct (Lines b) as [lines e]; cbn [fst snd] in *; subst e; auto.
Qed.

(** C3, as stated, fails: a line of 65536 bytes makes [ParseBody] return
    a non-nil error, whatever the Record Parser. *)
Lemma ParseBody_error_counterexample :
  ParseBody (list string) (fun lines => lines) long_line = (None, Some ErrTooLong).
Proof. vm_compute. reflexivity. Qed.

(** ** The claims about [Get] *)

Section GetProperties.

Context {W Recs : Type}.
Variable c : Crawler W.
Variable env : Env W Recs.

(** Every turn of the loop makes exactly one fetch, of the URL the
    request holds when the turn begins. *)
Lemma iteration_fetched (req : loc) (st : LoopState W) :
  fetched (fst (iteration c env req st)) =
  fetched st ++ [URL (store (mem st) req)].
Proof.
  unfold iteration.
  destruct (sendRequest c req (mem st)) as [m1 [res [e|]]]; [reflexivity|].
  cbn [mem deferred fetched].
  destruct ((300 <=? StatusCode res) && (StatusCode res <? 400)).
  { destruct (handleRedirect c req res m1) as [m2 [redirect [e|]]]; reflexivity. }
  destruct ((400 <=? StatusCode res) && (StatusCode res <? 500)); [reflexivity|].
  destruct (StatusCode res =? 200); [|reflexivity].
  destruct (readBody c req res m1) as [m2 [body [e|]]]; [reflexivity|].
  destruct (ParseBody Recs (parseRecords env) body) as [records [e|]];
    [reflexivity|].
  destruct (parseExpires c res m2) as [m3 [expires e]]. reflexivity.
Qed.

Lemma Get_loop_S (n : nat) (req : loc) (st : LoopState W) :
  Get_loop c env (S n) req st =
  match iteration c env req st with
  | (st', Some out) => (st', Some out)
  | (st', None) => Get_loop c env n req st'
  end.
Proof. reflexivity. Qed.

Lemma is_3xx (res : HTTPResponse) :
  300 <= StatusCode res < 400 ->
  (300 <=? StatusCode res) && (StatusCode res <? 400) = true.
Proof.
  intros H. apply andb_true_iff. split; [apply Z.leb_le | apply Z.ltb_lt]; lia.
Qed.

Lemma not_3xx (res : HTTPResponse) :
  ~ 300 <= StatusCode res < 400 ->
  (300 <=? StatusCode res) && (StatusCode res <? 400) = false.
Proof.
  intros H. apply andb_false_iff.
  destruct (Z.leb_spec 300 (StatusCode res)); [right|left; reflexivity].
  apply Z.ltb_ge. lia.
Qed.

(** The turn of the loop when the fetch is answered with a status in
    300-399. *)
Lemma iteration_redirect (req : loc) (st : LoopState W)
    (m1 m2 : Mem W) (res : HTTPResponse) (target : string) (e : option error) :
  sendRequest c req (mem st) = (m1, (res, None)) ->
  300 <= StatusCode res < 400 ->
  handleRedirect c req res m1 = (m2, (target, e)) ->
  iteration c env req st =
  match e with
  | Some err =>
      ({| mem := m2; deferred := res :: deferred st;
          fetched := fetched st ++ [URL (store (mem st) req)] |},
       Some (None, Some err))
  | None =>
      ({| mem := {| store := setURL req target (store m2);
                    world := world m2 |};
          deferred := res :: deferred st;
          fetched := fetched st ++ [URL (store (mem st) req)] |},
       None)
  end.
Proof.
  intros Hs H3 Hh. unfold iteration. rewrite Hs. cbn [mem deferred fetched].
  rewrite (is_3xx res H3), Hh. destruct e; reflexivity.
Qed.

(** C4 (amended): when a fetch inside [Get] is answered with a status
    in 300-399 and [handleRedirect] gives the target without an error,
    the turn rewrites the URL of the request to the target and the
    loop goes round: its next turn begins with one fetch, of the
    target, before anything else is classified.  When
    [handleRedirect] fails, [Get] returns no response and that error,
    and fetches nothing more. *)
Theorem Get_redirect (req : loc) (st : LoopState W)
    (m1 m2 : Mem W) (res : HTTPResponse) (target : string) (e : option error) :
  sendRequest c req (mem st) = (m1, (res, None)) ->
  300 <= StatusCode res < 400 ->
  handleRedirect c req res m1 = (m2, (target, e)) ->
  match e with
  | None =>
      exists st',
        iteration c env req st = (st', None) /\
        URL (store (mem st') req) = target /\
        fetched st' = fetched st ++ [URL (store (mem st) req)] /\
        fetched (fst (iteration c env req st')) =
          fetched st ++ [URL (store (mem st) req); target] /\
        forall n, Get_loop c env (S n) req st = Get_loop c env n req st'
  | Some err =>
      exists st',
        fetched st' = fetched st ++ [URL (store (mem st) req)] /\
        store (mem st') = store m2 /\
        forall n, Get_loop c env (S n) req st = (st', Some (None, Some err))
  end.
Proof.
  intros Hs H3 Hh.
  pose proof (iteration_redirect req st m1 m2 res target e Hs H3 Hh) as Hit.
  destruct e as [err|].
  - eexists. split; [|split]; [| |intros n; rewrite Get_loop_S, Hit; reflexivity];
      reflexivity.
  - eexists. split; [exact Hit|].
    assert (Hurl : URL (setURL req target (store m2) req) = target).
    { unfold setURL. now rewrite Nat.eqb_refl. }
    repeat split.
    + exact Hurl.
    + rewrite iteration_fetched. cbn [mem store fetched].
      now rewrite Hurl, <- app_assoc.
    + intros n. now rewrite Get_loop_S, Hit.
Qed.

(** C5: when a fetch inside [Get] is answered with a status in
    400-499, [Get] returns at once no response and the client error
    made of the status, the domain and the URL; with any status other
    than 200 and outside 300-499 it returns at once no response and
    the general error made of the same three; in both cases the fetch
    is the last one. *)
Theorem Get_status_error (req : loc) (st : LoopState W)
    (m1 : Mem W) (res : HTTPResponse) :
  sendRequest c req (mem st) = (m1, (res, None)) ->
  ~ 300 <= StatusCode res < 400 -> StatusCode res <> 200 ->
  exists st',
    fetched st' = fetched st ++ [URL (store (mem st) req)] /\
    forall n,
      Get_loop c env (S n) req st =
      (st', Some (None,
                  Some (Errorf
                          (if (400 <=? StatusCode res) && (StatusCode res <? 500)
                           then errHTTPClientError env
                           else errHTTPGeneralError env)
                          [Status res; Domain (store m1 req); URL (store m1 req)]))).
Proof.
  intros Hs H3 H2. eexists. split; [|intros n; rewrite Get_loop_S].
  2:{ unfold iteration. rewrite Hs. cbn [mem deferred fetched].
      rewrite (not_3xx res H3).
      destruct ((400 <=? StatusCode res) && (StatusCode res <? 500));
        [reflexivity|].
      destruct (Z.eqb_spec (StatusCode res) 200); [contradiction|reflexivity]. }
  reflexivity.
Qed.

(** C6: when a fetch inside [Get] is answered with status 200 and the
    body is read and parsed without an error, [Get] returns a response
    and no error, whatever [parseExpires] says; the response expires
    at the time [parseExpires] gives, verbatim, when it gives one
    without an error, and otherwise seven days, that is 7 * 86400
    seconds of 1000000000 nanoseconds each, after the time the clock
    shows when the body has been read. *)
Theorem Get_expires (req : loc) (st : LoopState W)
    (m1 m2 m3 : Mem W) (res : HTTPResponse) (body : list byte)
    (records : option Recs) (expires : Time) (e : option error) :
  sendRequest c req (mem st) = (m1, (res, None)) ->
  StatusCode res = 200 ->
  readBody c req res m1 = (m2, (body, None)) ->
  ParseBody Recs (parseRecords env) body = (records, None) ->
  parseExpires c res m2 = (m3, (expires, e)) ->
  exists st',
    forall n,
      Get_loop c env (S n) req st =
      (st', Some (Some {| Response_Request := req;
                          Response_Records := records;
                          Response_Expires :=
                            match e with
                            | None => expires
                            | Some _ =>
                                Now env (world m2) + 7 * 86400 * 1000000000
                            end |}, None)).
Proof.
  intros Hs H2 Hb Hp He. eexists. intros n. rewrite Get_loop_S.
  unfold iteration. rewrite Hs. cbn [mem deferred fetched].
  rewrite H2. cbn [Z.leb Z.ltb Z.compare Pos.compare Pos.compare_cont andb Z.eqb Pos.eqb].
  rewrite Hb, Hp, He. destruct e; reflexivity.
Qed.

(** When a turn ends in a [return], its fetch failed, or was answered
    with a status outside 300-399, or [handleRedirect] failed. *)
Lemma iteration_returns (req : loc) (st st' : LoopState W) (out : Outcome Recs) :
  iteration c env req st = (st', Some out) ->
  let '(m1, (res, e)) := sendRequest c req (mem st) in
  e <> None \/ ~ 300 <= StatusCode res < 400 \/
  snd (snd (handleRedirect c req res m1)) <> None.
Proof.
  unfold iteration.
  destruct (sendRequest c req (mem st)) as [m1 [res [e|]]];
    [intros _; left; discriminate|].
  cbn [mem deferred fetched].
  destruct (Z.leb_spec 300 (StatusCode res)); cbn [andb];
    [|intros _; right; left; lia].
  destruct (Z.ltb_spec (StatusCode res) 400); [|intros _; right; left; lia].
  destruct (handleRedirect c req res m1) as [m2 [redirect [e|]]];
    [intros _; right; right; discriminate | discriminate].
Qed.

(** C7: [Get] bounds the number of redirects by nothing.  A turn of
    its loop ends in a [return] only when the fetch failed, or was
    answered with a status outside 300-399, or [handleRedirect]
    failed; and on a web that answers every fetch with a status in
    300-399, with a target that [handleRedirect] extracts, the loop of
    [Get] has not returned after any number [fuel] of turns, and has
    made [fuel] fetches. *)
Theorem Get_redirects_forever (req : loc) :
  (forall st st' out,
      iteration c env req st = (st', Some out) ->
      let '(m1, (res, e)) := sendRequest c req (mem st) in
      e <> None \/ ~ 300 <= StatusCode res < 400 \/
      snd (snd (handleRedirect c req res m1)) <> None) /\
  ((forall m, exists m1 res,
       sendRequest c req m = (m1, (res, None)) /\
       300 <= StatusCode res < 400 /\
       snd (snd (handleRedirect c req res m1)) = None) ->
   forall fuel m,
     exists st, Get c env fuel req m = (st, None) /\
                length (fetched st) = fuel).
Proof.
  split; [exact (iteration_returns req)|].
  intros Hsend fuel m. unfold Get.
  assert (Hloop : forall st,
             exists st', Get_loop c env fuel req st = (st', None) /\
                         length (fetched st') = (length (fetched st) + fuel)%nat).
  { induction fuel as [|n IH]; intros st.
    - exists st. split; [reflexivity | lia].
    - destruct (Hsend (mem st)) as (m1 & res & Hs & H3 & Hr).
      destruct (handleRedirect c req res m1) as [m2 [target e]] eqn:Hh.
      cbn [snd] in Hr. subst e.
      pose proof (iteration_redirect req st m1 m2 res target None Hs H3 Hh)
        as Hit.
      rewrite Get_loop_S, Hit.
      destruct (IH {| mem := {| store := setURL req target (store m2);
                                world := world m2 |};
                      deferred := res :: deferred st;
                      fetched := fetched st ++ [URL (store (mem st) req)] |})
        as (st' & Hrun & Hlen).
      exists st'. split; [exact Hrun|].
      rewrite Hlen. cbn [fetched]. rewrite length_app. simpl. lia. }
  destruct (Hloop {| mem := m; deferred := []; fetched := [] |})
    as (st' & -> & Hlen).
  exists st'. split; [reflexivity | exact Hlen].
Qed.

Lemma same_but_URL_refl (req : loc) (st : Store) : same_but_URL req st st.
Proof. split; auto. Qed.

Lemma same_but_URL_setURL (req : loc) (url : string) (st st' : Store) :
  same_but_URL req st st' -> same_but_URL req st (setURL req url st').
Proof.
  intros [Ho Hd]. unfold setURL. split.
  - intros l Hl. destruct (Nat.eqb_spec l req); [contradiction|]. now apply Ho.
  - now rewrite Nat.eqb_refl.
Qed.

Lemma iteration_frame (req : loc) (st : LoopState W) (st0 : Store) :
  keeps_store c -> same_but_URL req st0 (store (mem st)) ->
  same_but_URL req st0 (store (mem (fst (iteration c env req st)))).
Proof.
  intros (Hk1 & Hk2 & Hk3 & Hk4) Hsame. unfold iteration.
  pose proof (Hk1 req (mem st)) as H1.
  destruct (sendRequest c req (mem st)) as [m1 [res [e|]]];
    cbn [fst mem] in *; [now rewrite H1|].
  destruct ((300 <=? StatusCode res) && (StatusCode res <? 400)).
  { pose proof (Hk2 req res m1) as H2.
    destruct (handleRedirect c req res m1) as [m2 [redirect [e|]]];
      cbn [fst mem with_mem store] in *.
    - now rewrite H2, H1.
    - apply same_but_URL_setURL. now rewrite H2, H1. }
  destruct ((400 <=? StatusCode res) && (StatusCode res <? 500));
    [cbn [fst mem]; now rewrite H1|].
  destruct (StatusCode res =? 200); [|cbn [fst mem]; now rewrite H1].
  pose proof (Hk3 req res m1) as H3.
  destruct (readBody c req res m1) as [m2 [body [e|]]];
    cbn [fst mem with_mem] in *; [now rewrite H3, H1|].
  destruct (ParseBody Recs (parseRecords env) body) as [records [e|]];
    cbn [fst mem with_mem]; [now rewrite H3, H1|].
  pose proof (Hk4 res m2) as H4.
  destruct (parseExpires c res m2) as [m3 [expires e]].
  cbn [fst mem with_mem] in *. now rewrite H4, H3, H1.
Qed.

Lemma Get_loop_frame (fuel : nat) (req : loc) (st0 : Store) :
  keeps_store c ->
  forall st, same_but_URL req st0 (store (mem st)) ->
             same_but_URL req st0 (store (mem (fst (Get_loop c env fuel req st)))).
Proof.
  intros Hk. induction fuel as [|n IH]; intros st Hsame; [exact Hsame|].
  rewrite Get_loop_S.
  pose proof (iteration_frame req st st0 Hk Hsame) as Hit.
  destruct (iteration c env req st) as [st' [out|]]; cbn [fst] in *; auto.
Qed.

(** A turn that ends in a [return] writes nothing to the store. *)
Lemma iteration_return_store (req : loc) (st st' : LoopState W)
    (out : Outcome Recs) :
  keeps_store c -> iteration c env req st = (st', Some out) ->
  store (mem st') = store (mem st).
Proof.
  intros (Hk1 & Hk2 & Hk3 & Hk4). unfold iteration.
  pose proof (Hk1 req (mem st)) as H1.
  destruct (sendRequest c req (mem st)) as [m1 [res [e|]]];
    cbn [fst mem] in *; [intros [= <- _]; exact H1|].
  destruct ((300 <=? StatusCode res) && (StatusCode res <? 400)).
  { pose proof (Hk2 req res m1) as H2.
    destruct (handleRedirect c req res m1) as [m2 [redirect [e|]]];
      cbn [fst mem with_mem store] in *; [|discriminate].
    intros [= <- _]. cbn [with_mem mem]. congruence. }
  destruct ((400 <=? StatusCode res) && (StatusCode res <? 500));
    [intros [= <- _]; exact H1|].
  destruct (StatusCode res =? 200); [|intros [= <- _]; exact H1].
  pose proof (Hk3 req res m1) as H3.
  destruct (readBody c req res m1) as [m2 [body [e|]]];
    cbn [fst mem with_mem] in *;
    [intros [= <- _]; cbn [with_mem mem]; congruence|].
  destruct (ParseBody Recs (parseRecords env) body) as [records [e|]];
    [intros [= <- _]; cbn [with_mem mem]; congruence|].
  pose proof (Hk4 res m2) as H4.
  destruct (parseExpires c res m2) as [m3 [expires e]].
  cbn [fst] in H4. intros [= <- _]. cbn [with_mem mem]. congruence.
Qed.

(** C9: when the methods of the crawler write nothing to the store of
    requests, [Get] leaves every other request as it was and changes
    of the caller's request at most the URL: the domain is the same
    after [Get], whatever it returns and however many turns it takes;
    and the turn in which [Get] returns writes nothing at all, so that
    the URL is rewritten only in the turns that follow a redirect. *)
Theorem Get_frame (fuel : nat) (req : loc) (m : Mem W) :
  keeps_store c ->
  (forall l, l <> req ->
             store (mem (fst (Get c env fuel req m))) l = store m l) /\
  Domain (store (mem (fst (Get c env fuel req m))) req) = Domain (store m req) /\
  (forall st st' out, iteration c env req st = (st', Some out) ->
                      store (mem st') = store (mem st)).
Proof.
  intros Hk. unfold Get.
  pose proof (Get_loop_frame fuel req (store m) Hk
                {| mem := m; deferred := []; fetched := [] |}
                (same_but_URL_refl req (store m))) as [H1 H2].
  assert (H3 : forall st st' out, iteration c env req st = (st', Some out) ->
                                  store (mem st') = store (mem st))
    by (intros st st' out; now apply iteration_return_store).
  destruct (Get_loop c env fuel req _) as [st [out|]]; auto.
Qed.

Lemma iteration_exactly_one (req : loc) (st st' : LoopState W) (out : Outcome Recs) :
  iteration c env req st = (st', Some out) -> exactly_one req out.
Proof.
  unfold iteration, exactly_one.
  destruct (sendRequest c req (mem st)) as [m1 [res [e|]]].
  { intros [= _ <-]. left. split; [reflexivity | discriminate]. }
  cbn [mem deferred fetched].
  destruct ((300 <=? StatusCode res) && (StatusCode res <? 400)).
  { destruct (handleRedirect c req res m1) as [m2 [redirect [e|]]];
      [|discriminate].
    intros [= _ <-]. left. split; [reflexivity | discriminate]. }
  destruct ((400 <=? StatusCode res) && (StatusCode res <? 500)).
  { intros [= _ <-]. left. split; [reflexivity | discriminate]. }
  destruct (StatusCode res =? 200).
  2:{ intros [= _ <-]. left. split; [reflexivity | discriminate]. }
  destruct (readBody c req res m1) as [m2 [body [e|]]].
  { intros [= _ <-]. left. split; [reflexivity | discriminate]. }
  destruct (ParseBody Recs (parseRecords env) body) as [records [e|]].
  { intros [= _ <-]. left. split; [reflexivity | discriminate]. }
  destruct (parseExpires c res m2) as [m3 [expires e]].
  intros [= _ <-]. right. eexists. split; [reflexivity|].
  split; [|reflexivity]. destruct (is_nil e); reflexivity.
Qed.

(** C10: after any number [fuel] of turns of its loop, [Get] either has
    returned, and then exactly one of the response and the error is
    nil, a response referring to the request [Get] was called with, or
    has made [fuel] fetches and is still following redirects. *)
Theorem Get_exactly_one (fuel : nat) (req : loc) (m : Mem W) :
  match Get c env fuel req m with
  | (_, Some out) =>
      (fst out = None /\ snd out <> None) \/
      (exists r, fst out = Some r /\ Response_Request r = req /\ snd out = None)
  | (st, None) => length (fetched st) = fuel
  end.
Proof.
  unfold Get.
  assert (Hloop : forall st,
             match Get_loop c env fuel req st with
             | (_, Some out) => exactly_one req out
             | (st', None) =>
                 length (fetched st') = (length (fetched st) + fuel)%nat
             end).
  { induction fuel as [|n IH]; intros st; [cbn; lia|].
    rewrite Get_loop_S.
    pose proof (iteration_fetched req st) as Hf.
    destruct (iteration c env req st) as [st1 [out|]] eqn:E.
    - eapply iteration_exactly_one; eauto.
    - specialize (IH st1). cbn [fst] in Hf.
      destruct (Get_loop c env n req st1) as [st' [out|]]; auto.
      rewrite IH, Hf, length_app. simpl. lia. }
  specialize (Hloop {| mem := m; deferred := []; fetched := [] |}).
  destruct (Get_loop c env fuel req _) as [st [out|]]; exact Hloop.
Qed.

End GetProperties.

Local Open Scope string_scope.

Lemma Get_redirect_witness :
  300 <= StatusCode (Web.answer "http://example.com/ads.txt") < 400 /\
  exists st',
    iteration Web.crawler Web.env Web.req (Web.start "http://example.com/ads.txt")
      = (st', None) /\
    URL (store (mem st') Web.req) = "https://example.com/ads.txt" /\
    fetched st' = ["http://example.com/ads.txt"] /\
    fetched (fst (iteration Web.crawler Web.env Web.req st')) =
      ["http://example.com/ads.txt"; "https://example.com/ads.txt"] /\
    forall n,
      Get_loop Web.crawler Web.env (S n) Web.req
        (Web.start "http://example.com/ads.txt")
      = Get_loop Web.crawler Web.env n Web.req st'.
Proof.
  assert (H : 300 <= StatusCode (Web.answer "http://example.com/ads.txt") < 400)
    by (cbn; lia).
  split; [exact H|].
  exact (Get_redirect Web.crawler Web.env Web.req
           (Web.start "http://example.com/ads.txt")
           (Web.memory "example.com" "http://example.com/ads.txt" 1000000000)
           (Web.memory "example.com" "http://example.com/ads.txt" 1000000000)
           (Web.answer "http://example.com/ads.txt")
           "https://example.com/ads.txt" None
           eq_refl H eq_refl).
Defined.

(** The crawl of the specification's example: a 301 with a Location
    header, followed once, then a 200. *)
Example Get_follows_301 :
  let '(st, out) := Get Web.crawler Web.env 2 Web.req
                      (Web.memory "example.com" "http://example.com/ads.txt" 0) in
  fetched st = ["http://example.com/ads.txt"; "https://example.com/ads.txt"] /\
  exists r, out = Some (Some r, None).
Proof. vm_compute. split; [reflexivity | eexists; reflexivity]. Qed.

(** C4, as stated, fails: a fetch answered with 304 and no Location
    header is in the range 300-399, and [Get] returns the error of
    [handleRedirect] without rewriting the URL and without a second
    fetch. *)
Lemma Get_redirect_counterexample :
  300 <= StatusCode (Web.answer "http://cached.example/ads.txt") < 400 /\
  let '(st, out) := Get Web.crawler Web.env 10 Web.req
                      (Web.memory "cached.example" "http://cached.example/ads.txt" 0) in
  out = Some (None, Some (ErrCrawler "no Location header")) /\
  fetched st = ["http://cached.example/ads.txt"] /\
  URL (store (mem st) Web.req) = "http://cached.example/ads.txt".
Proof.
  split; [cbn; lia|]. vm_compute. repeat split; reflexivity.
Qed.

Lemma Get_status_error_witness :
  (exists st',
      fetched st' = ["http://missing.example/ads.txt"] /\
      forall n,
        Get_loop Web.crawler Web.env (S n) Web.req
          (Web.start "http://missing.example/ads.txt")
        = (st', Some (None,
                      Some (Errorf "client error %s for %s (%s)"
                              ["404 Not Found"; "example.com";
                               "http://missing.example/ads.txt"])))) /\
  (exists st',
      fetched st' = ["http://down.example/ads.txt"] /\
      forall n,
        Get_loop Web.crawler Web.env (S n) Web.req
          (Web.start "http://down.example/ads.txt")
        = (st', Some (None,
                      Some (Errorf "unexpected status %s for %s (%s)"
                              ["500 Internal Server Error"; "example.com";
                               "http://down.example/ads.txt"])))).
Proof.
  split.
  - apply (Get_status_error Web.crawler Web.env Web.req
             (Web.start "http://missing.example/ads.txt")
             (Web.memory "example.com" "http://missing.example/ads.txt" 1000000000)
             (Web.answer "http://missing.example/ads.txt") eq_refl);
      cbn; lia.
  - apply (Get_status_error Web.crawler Web.env Web.req
             (Web.start "http://down.example/ads.txt")
             (Web.memory "example.com" "http://down.example/ads.txt" 1000000000)
             (Web.answer "http://down.example/ads.txt") eq_refl);
      cbn; lia.
Defined.

(** The clock of the small web shows 0 when [Get] is called and every
    fetch takes a second: a file without an expiry date expires at one
    second plus seven days, 1000000000 + 604800000000000 nanoseconds;
    the file of [fresh.example] at the date its header gives. *)
Lemma Get_expires_witness :
  (exists st', forall n,
      Get_loop Web.crawler Web.env (S n) Web.req
        (Web.start "https://example.com/ads.txt")
      = (st', Some (Some {| Response_Request := Web.req;
                            Response_Records := Some Web.example_records;
                            Response_Expires := 604801000000000 |},
                    None))) /\
  (exists st', forall n,
      Get_loop Web.crawler Web.env (S n) Web.req
        (Web.start "https://fresh.example/ads.txt")
      = (st', Some (Some {| Response_Request := Web.req;
                            Response_Records := Some Web.example_records;
                            Response_Expires := 1767225600 * 1000000000 |},
                    None))).
Proof.
  assert (Hparse : ParseBody _ (parseRecords Web.env) example_file
                   = (Some Web.example_records, None))
    by (vm_compute; reflexivity).
  split.
  - exact (Get_expires Web.crawler Web.env Web.req
             (Web.start "https://example.com/ads.txt")
             (Web.memory "example.com" "https://example.com/ads.txt" 1000000000)
             (Web.memory "example.com" "https://example.com/ads.txt" 1000000000)
             (Web.memory "example.com" "https://example.com/ads.txt" 1000000000)
             (Web.answer "https://example.com/ads.txt") example_file
             (Some Web.example_records) 0 (Some (ErrCrawler "no Expires header"))
             eq_refl eq_refl eq_refl Hparse eq_refl).
  - exact (Get_expires Web.crawler Web.env Web.req
             (Web.start "https://fresh.example/ads.txt")
             (Web.memory "example.com" "https://fresh.example/ads.txt" 1000000000)
             (Web.memory "example.com" "https://fresh.example/ads.txt" 1000000000)
             (Web.memory "example.com" "https://fresh.example/ads.txt" 1000000000)
             (Web.answer "https://fresh.example/ads.txt") example_file
             (Some Web.example_records) (1767225600 * 1000000000) None
             eq_refl eq_refl eq_refl Hparse eq_refl).
Defined.

Lemma Get_redirects_forever_witness :
  exists st,
    Get Web.looping Web.env 1000 Web.req
      (Web.memory "loop.example" "http://loop.example/ads.txt" 0) = (st, None) /\
    length (fetched st) = 1000%nat.
Proof.
  apply (proj2 (Get_redirects_forever Web.looping Web.env Web.req)).
  intros m. eexists. eexists. split; [reflexivity|]. cbn. split; [lia | reflexivity].
Defined.

Lemma Get_frame_witness :
  keeps_store Web.crawler /\
  Domain (store (mem (fst (Get Web.crawler Web.env 5 Web.req
                             (Web.memory "example.com" "http://example.com/ads.txt" 0))))
            Web.req)
  = "example.com".
Proof.
  assert (H : keeps_store Web.crawler).
  { repeat split; intros; cbn.
    - destruct (String.eqb _ _); reflexivity.
    - destruct (Web.lookup _ _); reflexivity.
    - destruct (Web.lookup _ _) as [v|]; [destruct (String.eqb v _)|]; reflexivity. }
  split; [exact H|].
  exact (proj1 (proj2 (Get_frame Web.crawler Web.env 5 Web.req
                         (Web.memory "example.com" "http://example.com/ads.txt" 0) H))).
Defined.

(** The URL, on the other hand, is rewritten in place. *)
Example Get_rewrites_URL :
  URL (store (mem (fst (Get Web.crawler Web.env 5 Web.req
                          (Web.memory "example.com" "http://example.com/ads.txt" 0))))
         Web.req)
  = "https://example.com/ads.txt".
Proof. reflexivity. Qed.

Local Close Scope string_scope.

(** ** The claims about [GetMultiple] *)

Section ListUpdate.

Context {A : Type}.

Lemma length_set_nth (i : nat) (x : A) (l : list A) :
  length (set_nth i x l) = length l.
Proof.
  revert i. induction l as [|a l IH]; intros [|i]; cbn; auto.
Qed.

Lemma nth_set_nth_eq (i : nat) (x d : A) (l : list A) :
  (i < length l)%nat -> nth i (set_nth i x l) d = x.
Proof.
  revert i. induction l as [|a l IH]; intros [|i] H; cbn in *; try lia; auto.
  apply IH. lia.
Qed.

Lemma nth_set_nth_neq (i j : nat) (x d : A) (l : list A) :
  i <> j -> nth j (set_nth i x l) d = nth j l d.
Proof.
  revert i j. induction l as [|a l IH]; intros [|i] [|j] H; cbn; auto;
    try congruence.
Qed.

Lemma sum_set_nth (f : A -> nat) (i : nat) (x d : A) (l : list A) :
  (i < length l)%nat ->
  (list_sum (map f (set_nth i x l)) + f (nth i l d)
   = list_sum (map f l) + f x)%nat.
Proof.
  unfold list_sum. revert i.
  induction l as [|a l IH]; intros [|i] H;
    cbn [set_nth map fold_right nth length] in *; try lia.
  specialize (IH i ltac:(lia)). lia.
Qed.

Lemma filter_set_nth (p : A -> bool) (i : nat) (x d : A) (l : list A) :
  (i < length l)%nat ->
  (length (filter p (set_nth i x l)) + (if p (nth i l d) then 1 else 0)
   = length (filter p l) + (if p x then 1 else 0))%nat.
Proof.
  revert i. induction l as [|a l IH]; intros [|i] H; cbn in *; try lia.
  - destruct (p a), (p x); cbn; lia.
  - specialize (IH i ltac:(lia)). destruct (p a); cbn; lia.
Qed.

Lemma filter_length_le (p : A -> bool) (l : list A) :
  (length (filter p l) <= length l)%nat.
Proof.
  induction l as [|a l IH]; cbn; [lia|]. destruct (p a); cbn; lia.
Qed.

Lemma filter_all (p : A -> bool) (d : A) (l : list A) :
  length (filter p l) = length l ->
  forall j, (j < length l)%nat -> p (nth j l d) = true.
Proof.
  induction l as [|a l IH]; cbn; intros H j Hj; [lia|].
  pose proof (filter_length_le p l).
  destruct (p a) eqn:E; cbn in H; [|lia].
  destruct j as [|j]; auto. apply IH; lia.
Qed.

Lemma filter_some (p : A -> bool) (d : A) (l : list A) :
  (0 < length (filter p l))%nat ->
  exists j, (j < length l)%nat /\ p (nth j l d) = true.
Proof.
  induction l as [|a l IH]; cbn; intros H; [lia|].
  destruct (p a) eqn:E.
  - exists 0%nat. split; [lia | exact E].
  - destruct (IH H) as (j & Hj & Hp). exists (S j). split; [lia | exact Hp].
Qed.

Lemma filter_missing (p : A -> bool) (d : A) (l : list A) :
  (length (filter p l) < length l)%nat ->
  exists j, (j < length l)%nat /\ p (nth j l d) = false.
Proof.
  induction l as [|a l IH]; cbn; intros H; [lia|].
  destruct (p a) eqn:E.
  - cbn in H. destruct (IH ltac:(lia)) as (j & Hj & Hp).
    exists (S j). split; [lia | exact Hp].
  - exists 0%nat. split; [lia | exact E].
Qed.

Lemma filter_has (p : A -> bool) (d : A) (l : list A) (j : nat) :
  (j < length l)%nat -> p (nth j l d) = true ->
  (0 < length (filter p l))%nat.
Proof.
  revert j. induction l as [|a l IH]; cbn; intros j Hj Hp; [lia|].
  destruct j as [|j].
  - rewrite Hp. cbn. lia.
  - destruct (p a); cbn; [lia|]. apply (IH j); [lia | exact Hp].
Qed.

Lemma filter_imp (p q : A -> bool) (l : list A) :
  (forall a, p a = true -> q a = true) ->
  (length (filter p l) <= length (filter q l))%nat.
Proof.
  intros H. induction l as [|a l IH]; cbn; [lia|].
  destruct (p a) eqn:E.
  - rewrite (H a E). cbn. lia.
  - destruct (q a); cbn; lia.
Qed.

Lemma forallb_false (p : A -> bool) (l : list A) :
  forallb p l = false -> exists x, In x l /\ p x = false.
Proof.
  induction l as [|a l IH]; cbn; [discriminate|].
  destruct (p a) eqn:E; cbn.
  - intros H. destruct (IH H) as (x & Hin & Hx). exists x. auto.
  - intros _. exists a. auto.
Qed.

(** There are no more elements with [p] in [l] than indices with [q],
    when [q] holds of the index of every element with [p]. *)
Lemma filter_indices (p : A -> bool) (q : nat -> bool) (d : A) (l : list A) :
  forall a,
    (forall j, (j < length l)%nat -> p (nth j l d) = true -> q (a + j)%nat = true) ->
    (length (filter p l) <= length (filter q (seq a (length l))))%nat.
Proof.
  induction l as [|x l IH]; intros a H; cbn [length filter seq]; [lia|].
  assert (Hl : (length (filter p l) <= length (filter q (seq (S a) (length l))))%nat).
  { apply IH. intros j Hj Hp. replace (S a + j)%nat with (a + S j)%nat by lia.
    apply H; [cbn; lia | exact Hp]. }
  destruct (p x) eqn:E.
  - specialize (H 0%nat ltac:(cbn; lia) E). rewrite Nat.add_0_r in H.
    rewrite H. cbn [length]. lia.
  - destruct (q a); cbn [length]; lia.
Qed.

End ListUpdate.

Section BatchProperties.

Variable Out : Type.
Variable n : nat.
Variable NumCPU : nat.
Variable crawl : nat -> option Out.

Local Abbreviation BInv := (BInv n NumCPU crawl).
Local Abbreviation Step := (step n NumCPU crawl).
Local Abbreviation Run := (run n NumCPU crawl).

Lemma count_set_nth (p : worker_pc Out -> bool) (i : nat) (w : worker_pc Out)
    (l : list (worker_pc Out)) :
  (i < length l)%nat ->
  (count p (set_nth i w l) + b2n (p (nth i l WNone)) = count p l + b2n (p w))%nat.
Proof. intros H. unfold count, b2n. now apply filter_set_nth. Qed.

Lemma count_repeat_WNone (p : worker_pc Out -> bool) (k : nat) :
  p WNone = false -> count p (repeat WNone k) = 0%nat.
Proof.
  intros H. unfold count. induction k as [|k IH]; cbn; [reflexivity|].
  now rewrite H.
Qed.

Lemma BInv_init : BInv (init n).
Proof.
  constructor; cbn [init main guard wg workers calls panicked]; auto.
  - apply repeat_length.
  - lia.
  - intros j Hj. rewrite nth_repeat. reflexivity.
  - now rewrite count_repeat_WNone.
  - lia.
  - rewrite count_repeat_WNone by reflexivity. lia.
  - intros j. rewrite nth_repeat. reflexivity.
  - intros j out [].
  - intros j out. rewrite nth_repeat. discriminate.
  - discriminate.
Qed.

Lemma worker_index (s : Batch Out) (i : nat) :
  BInv s -> nth i (workers s) WNone <> WNone -> (i < n)%nat.
Proof.
  intros HI H. destruct (Nat.lt_ge_cases i n) as [|Hge]; auto.
  exfalso. apply H. apply nth_overflow. rewrite (b_len HI). exact Hge.
Qed.

Lemma times_app (j i : nat) (out : Out) (cs : list (nat * Out)) :
  times j (cs ++ [(i, out)]) = (times j cs + b2n (Nat.eqb i j))%nat.
Proof.
  unfold times. rewrite filter_app, length_app. cbn [filter fst].
  destruct (Nat.eqb i j); reflexivity.
Qed.

Lemma nth_set_worker (s : Batch Out) (i j : nat) (w : worker_pc Out) :
  (i < length (workers s))%nat ->
  nth j (set_nth i w (workers s)) WNone =
  if Nat.eqb i j then w else nth j (workers s) WNone.
Proof.
  intros Hi. destruct (Nat.eqb_spec i j) as [->|Hne].
  - now apply nth_set_nth_eq.
  - now apply nth_set_nth_neq.
Qed.

(** The invariant when the goroutine of the request of index [i]
    moves from the place [w] to the place [w']. *)
Lemma worker_move (s : Batch Out) (i : nat) (w w' : worker_pc Out)
    (g : nat) (z : Z) (cs : list (nat * Out)) :
  BInv s -> nth i (workers s) WNone = w ->
  started w = true -> started w' = true ->
  (holds w' = true -> holds w = true) ->
  (g + b2n (holds w) = guard s + b2n (holds w'))%nat ->
  z + Z.of_nat (b2n (exited w')) = wg s + Z.of_nat (b2n (exited w)) ->
  (called w = true -> called w' = true) ->
  (forall j, times j cs =
             (times j (calls s) +
              (if Nat.eqb i j then b2n (called w') - b2n (called w) else 0))%nat) ->
  (forall j out, In (j, out) cs -> crawl j = Some out) ->
  (forall out, w' = WHandle out -> crawl i = Some out) ->
  (main s = MReturned -> z = 0) ->
  BInv {| main := main s; guard := g; wg := z;
          workers := set_nth i w' (workers s); calls := cs;
          panicked := false |}.
Proof.
  intros HI Hw Hsw Hsw' Hh Hg Hz Hc Hcs Hout Hhandle Hret.
  assert (Hi : (i < n)%nat).
  { apply (worker_index s i HI). rewrite Hw. destruct w; discriminate. }
  assert (Hlen : (i < length (workers s))%nat) by (now rewrite (b_len HI)).
  constructor; cbn [main guard wg workers calls panicked].
  - rewrite length_set_nth. exact (b_len HI).
  - exact (b_main HI).
  - intros j Hj. rewrite nth_set_worker by exact Hlen.
    destruct (Nat.eqb_spec i j) as [<-|Hne]; [|now apply (b_started HI)].
    rewrite Hsw'. rewrite <- (b_started HI i Hi), Hw. now symmetry.
  - pose proof (count_set_nth holds i w' _ Hlen) as Hcount.
    rewrite Hw in Hcount. pose proof (b_guard HI). lia.
  - pose proof (b_cap HI).
    destruct (holds w') eqn:E1; [rewrite (Hh eq_refl) in Hg|];
      destruct (holds w) eqn:E2; cbn [b2n] in Hg; lia.
  - pose proof (count_set_nth exited i w' _ Hlen) as Hcount.
    rewrite Hw in Hcount. pose proof (b_wg HI). lia.
  - intros j. rewrite nth_set_worker by exact Hlen. rewrite Hcs, (b_calls HI).
    destruct (Nat.eqb_spec i j) as [<-|Hne]; [|lia].
    rewrite Hw. destruct (called w); [rewrite (Hc eq_refl)|];
      destruct (called w'); cbn [b2n]; lia.
  - exact Hout.
  - intros j out. rewrite nth_set_worker by exact Hlen.
    destruct (Nat.eqb_spec i j) as [<-|Hne]; [apply Hhandle | apply (b_handle HI)].
  - reflexivity.
  - exact Hret.
Qed.

(** One step keeps the invariant. *)
Lemma step_inv (t : thread) (s s' : Batch Out) :
  BInv s -> Step t s = Some s' -> BInv s'.
Proof.
  intros HI. unfold step. rewrite (b_panic HI).
  destruct t as [|i].
  - (* the caller *)
    unfold step_main. destruct (main s) as [i|i| |] eqn:Em;
      pose proof (b_main HI) as Hm; pose proof (b_started HI) as Hst;
      pose proof (b_guard HI) as Hg; pose proof (b_ret HI) as Hr;
      rewrite Em in Hm, Hst, Hg; cbn [spawned at_go b2n] in *.
    + destruct (Nat.ltb_spec i n) as [Hi|Hi].
      * destruct (Nat.ltb_spec (guard s) (capacity NumCPU)) as [Hc|Hc];
          [|discriminate].
        intros [= <-].
        constructor;
          cbn [set_main set_guard main guard wg workers calls panicked
               spawned at_go b2n];
          try exact (b_len HI); try exact (b_wg HI); try exact (b_calls HI);
          try exact (b_out HI); try exact (b_handle HI);
          try exact (b_panic HI); try discriminate; try lia.
        exact Hst.
      * intros [= <-].
        constructor;
          cbn [set_main set_guard main guard wg workers calls panicked
               spawned at_go b2n];
          try exact (b_len HI); try exact (b_wg HI); try exact (b_calls HI);
          try exact (b_out HI); try exact (b_handle HI); try exact (b_cap HI);
          try exact (b_panic HI); try discriminate; try lia; auto.
        intros j Hj. rewrite Hst by exact Hj.
        destruct (Nat.ltb_spec j i), (Nat.ltb_spec j n); auto; lia.
    + intros [= <-].
      assert (Hw : nth i (workers s) WNone = WNone).
      { specialize (Hst i Hm). rewrite Nat.ltb_irrefl in Hst.
        destruct (nth i (workers s) WNone); try discriminate. reflexivity. }
      assert (Hlen : (i < length (workers s))%nat) by (now rewrite (b_len HI)).
      constructor; cbn [set_main set_worker main guard wg workers calls panicked].
      * rewrite length_set_nth. exact (b_len HI).
      * exact Hm.
      * intros j Hj. rewrite nth_set_worker by exact Hlen. cbn [spawned].
        destruct (Nat.eqb_spec i j) as [->|Hne].
        -- cbn [started]. symmetry. apply Nat.ltb_lt. lia.
        -- rewrite Hst by exact Hj.
           destruct (Nat.ltb_spec j i), (Nat.ltb_spec j (S i)); auto; lia.
      * pose proof (count_set_nth holds i WGet _ Hlen) as Hc.
        rewrite Hw in Hc. cbn [holds b2n at_go] in *. lia.
      * exact (b_cap HI).
      * pose proof (count_set_nth exited i WGet _ Hlen) as Hc.
        rewrite Hw in Hc. cbn [exited b2n] in Hc.
        rewrite (b_wg HI). lia.
      * intros j. rewrite nth_set_worker by exact Hlen.
        destruct (Nat.eqb_spec i j) as [->|Hne]; [|apply (b_calls HI)].
        rewrite (b_calls HI), Hw. reflexivity.
      * exact (b_out HI).
      * intros j out. rewrite nth_set_worker by exact Hlen.
        destruct (Nat.eqb_spec i j) as [->|Hne]; [discriminate|].
        apply (b_handle HI).
      * exact (b_panic HI).
      * discriminate.
    + destruct (Z.eqb_spec (wg s) 0) as [Hz|Hz]; [|discriminate].
      intros [= <-].
      constructor;
        cbn [set_main set_guard main guard wg workers calls panicked
             spawned at_go b2n];
        try exact (b_len HI); try exact (b_wg HI); try exact (b_calls HI);
        try exact (b_out HI); try exact (b_handle HI); try exact (b_cap HI);
        try exact (b_panic HI); auto.
    + discriminate.
  - (* the goroutine of a request *)
    unfold step_worker.
    destruct (nth i (workers s) WNone) as [| |out| | | |] eqn:Hw;
      try discriminate;
      assert (Hi : (i < n)%nat)
        by (apply (worker_index s i HI); rewrite Hw; discriminate);
      assert (Hlen : (i < length (workers s))%nat)
        by (now rewrite (b_len HI)).
    + (* Get returns *)
      destruct (crawl i) as [out|] eqn:Hc; [|discriminate].
      intros [= <-]. unfold set_worker, set_guard.
      cbn [main guard wg workers calls panicked]. rewrite (b_panic HI).
      apply (worker_move s i WGet (WHandle out));
        auto; try (cbn; lia); try exact (b_out HI); try exact (b_ret HI).
      * intros j. destruct (Nat.eqb i j); cbn; lia.
      * intros out' [= <-]. exact Hc.
    + (* h.Handle is called *)
      intros [= <-]. unfold set_worker, set_guard.
      cbn [main guard wg workers calls panicked]. rewrite (b_panic HI).
      apply (worker_move s i (WHandle out) WInHandle);
        auto; try (cbn; lia); try exact (b_ret HI); try discriminate.
      * intros j. rewrite times_app. destruct (Nat.eqb i j); cbn; lia.
      * intros j out' Hin. apply in_app_or in Hin as [Hin|[[= <- <-]|[]]].
        -- now apply (b_out HI).
        -- now apply (b_handle HI).
    + (* h.Handle returns *)
      intros [= <-]. unfold set_worker, set_guard.
      cbn [main guard wg workers calls panicked]. rewrite (b_panic HI).
      apply (worker_move s i WInHandle WRecv);
        auto; try (cbn; lia); try exact (b_out HI); try exact (b_ret HI);
        try discriminate.
      intros j. destruct (Nat.eqb i j); cbn; lia.
    + (* <-guard *)
      destruct (guard s) as [|g] eqn:Eg; [discriminate|].
      intros [= <-]. unfold set_worker, set_guard.
      cbn [main guard wg workers calls panicked]. rewrite (b_panic HI).
      apply (worker_move s i WRecv WDone);
        auto; try (cbn; lia); try exact (b_out HI); try exact (b_ret HI);
        try discriminate.
      intros j. destruct (Nat.eqb i j); cbn; lia.
    + (* wg.Done() *)
      intros [= <-].
      pose proof (count_set_nth exited i WExit _ Hlen) as Hcount.
      rewrite Hw in Hcount. cbn [exited b2n] in Hcount.
      pose proof (filter_length_le exited (set_nth i WExit (workers s))) as Hle.
      rewrite length_set_nth, (b_len HI) in Hle.
      pose proof (b_wg HI) as Hwg. unfold count in Hcount, Hwg.
      replace (wg s - 1 <? 0) with false by (symmetry; apply Z.ltb_ge; lia).
      apply (worker_move s i WDone WExit); auto; try (cbn; lia);
        try exact (b_out HI); try discriminate.
      * intros j. destruct (Nat.eqb i j); cbn; lia.
      * intros Hm. pose proof (b_ret HI Hm). lia.
Qed.

Lemma run_inv (sched : list thread) :
  forall s, BInv s -> BInv (Run sched s).
Proof.
  induction sched as [|t sched IH]; intros s HI; cbn [run]; auto.
  destruct (Step t s) as [s'|] eqn:E; auto.
  apply IH. exact (step_inv t s s' HI E).
Qed.

(** Every step is one of the steps that are left. *)
Lemma step_steps_left (t : thread) (s s' : Batch Out) :
  BInv s -> Step t s = Some s' ->
  (steps_left n s' + 1 = steps_left n s)%nat.
Proof.
  intros HI. unfold step. rewrite (b_panic HI). unfold steps_left.
  destruct t as [|i].
  - unfold step_main. pose proof (b_main HI) as Hm.
    destruct (main s) as [i|i| |] eqn:Em.
    + destruct (Nat.ltb_spec i n).
      * destruct (guard s <? capacity NumCPU)%nat; [|discriminate].
        intros [= <-]. cbn [main workers guard set_main set_guard set_worker main_left worker_left] in *. lia.
      * intros [= <-]. cbn [main workers guard set_main set_guard set_worker main_left worker_left] in *. lia.
    + intros [= <-]. cbn [set_main set_worker main workers main_left].
      assert (Hlen : (i < length (workers s))%nat) by (now rewrite (b_len HI)).
      pose proof (sum_set_nth worker_left i WGet WNone (workers s) Hlen) as Hsum.
      pose proof (b_started HI i Hm) as Hst. rewrite Em in Hst.
      cbn [spawned] in Hst. rewrite Nat.ltb_irrefl in Hst.
      destruct (nth i (workers s) WNone); try discriminate.
      cbn [worker_left] in Hsum. lia.
    + destruct (wg s =? 0); [|discriminate]. intros [= <-]. cbn [main workers guard set_main set_guard set_worker main_left worker_left] in *. lia.
    + discriminate.
  - unfold step_worker.
    destruct (nth i (workers s) WNone) as [| |out| | | |] eqn:Hw;
      try discriminate;
      assert (Hi : (i < n)%nat)
        by (apply (worker_index s i HI); rewrite Hw; discriminate);
      assert (Hlen : (i < length (workers s))%nat)
        by (now rewrite (b_len HI)).
    + destruct (crawl i) as [out|]; [|discriminate]. intros [= <-].
      pose proof (sum_set_nth worker_left i (WHandle out) WNone _ Hlen) as Hsum.
      rewrite Hw in Hsum. cbn [main workers guard set_main set_guard set_worker main_left worker_left] in *. lia.
    + intros [= <-].
      pose proof (sum_set_nth worker_left i WInHandle WNone _ Hlen) as Hsum.
      rewrite Hw in Hsum. cbn [main workers guard set_main set_guard set_worker main_left worker_left] in *. lia.
    + intros [= <-].
      pose proof (sum_set_nth worker_left i WRecv WNone _ Hlen) as Hsum.
      rewrite Hw in Hsum. cbn [main workers guard set_main set_guard set_worker main_left worker_left] in *. lia.
    + destruct (guard s); [discriminate|]. intros [= <-].
      pose proof (sum_set_nth worker_left i WDone WNone _ Hlen) as Hsum.
      rewrite Hw in Hsum. cbn [main workers guard set_main set_guard set_worker main_left worker_left] in *. lia.
    + intros [= <-].
      pose proof (sum_set_nth worker_left i WExit WNone _ Hlen) as Hsum.
      rewrite Hw in Hsum. cbn [main workers guard set_main set_guard set_worker main_left worker_left] in *. lia.
Qed.

(** A goroutine that holds an element of [guard] can move, when its
    [Get] returns. *)
Lemma holder_steps (s : Batch Out) (j : nat) :
  BInv s -> (j < n)%nat -> holds (nth j (workers s) WNone) = true ->
  crawl j <> None ->
  exists s', Step (Worker j) s = Some s'.
Proof.
  intros HI Hj Hh Hc. unfold step, step_worker.
  rewrite (b_panic HI).
  assert (Hg : (0 < guard s)%nat).
  { rewrite (b_guard HI).
    assert (0 < count holds (workers s))%nat; [|lia].
    apply (filter_has holds WNone _ j); [now rewrite (b_len HI) | exact Hh]. }
  destruct (nth j (workers s) WNone); try discriminate; eauto.
  - destruct (crawl j); [eauto | congruence].
  - destruct (guard s); [lia | eauto].
Qed.

(** No deadlock: while the call has not returned, some goroutine can
    move, provided every [Get] returns. *)
Lemma progress (s : Batch Out) :
  BInv s -> (0 < NumCPU)%nat ->
  (forall j, (j < n)%nat -> crawl j <> None) ->
  main s <> MReturned ->
  exists t s', Step t s = Some s'.
Proof.
  intros HI Hcpu Hcrawl Hmain.
  assert (Hmainstep : forall s', step_main n NumCPU s = Some s' ->
                                 exists t s', Step t s = Some s').
  { intros s' E. exists Main, s'. unfold step.
    now rewrite (b_panic HI). }
  assert (Hworker : forall j, (j < n)%nat ->
                              holds (nth j (workers s) WNone) = true ->
                              exists t s', Step t s = Some s').
  { intros j Hj Hh.
    destruct (holder_steps s j HI Hj Hh (Hcrawl j Hj)) as (s' & E).
    now exists (Worker j), s'. }
  destruct (main s) as [i|i| |] eqn:Em; [| | |congruence].
  - destruct (Nat.ltb_spec i n) as [Hi|Hi].
    + destruct (Nat.ltb_spec (guard s) (capacity NumCPU)) as [Hc|Hc].
      * eapply Hmainstep. unfold step_main. rewrite Em.
        destruct (Nat.ltb_spec i n); [|lia].
        destruct (Nat.ltb_spec (guard s) (capacity NumCPU)); [|lia].
        reflexivity.
      * (* the channel is full: one of the goroutines holds an element *)
        pose proof (b_guard HI) as Hg. rewrite Em in Hg. cbn in Hg.
        unfold capacity in Hc.
        destruct (filter_some holds WNone (workers s)) as (j & Hj & Hh).
        { unfold count in Hg. lia. }
        rewrite (b_len HI) in Hj. now apply (Hworker j).
    + eapply Hmainstep. unfold step_main. rewrite Em.
      destruct (Nat.ltb_spec i n); [lia|]. reflexivity.
  - eapply Hmainstep. unfold step_main. rewrite Em. reflexivity.
  - destruct (Z.eqb_spec (wg s) 0) as [Hz|Hz].
    + eapply Hmainstep. unfold step_main. rewrite Em.
      destruct (Z.eqb_spec (wg s) 0); [|lia]. reflexivity.
    + (* a goroutine has not finished *)
      pose proof (b_wg HI) as Hwg.
      pose proof (filter_length_le exited (workers s)) as Hle.
      destruct (filter_missing exited WNone (workers s)) as (j & Hj & He).
      { unfold count in Hwg. rewrite (b_len HI) in *. lia. }
      rewrite (b_len HI) in Hj.
      pose proof (b_started HI j Hj) as Hst. rewrite Em in Hst.
      cbn [spawned] in Hst.
      replace (j <? n)%nat with true in Hst by (symmetry; now apply Nat.ltb_lt).
      destruct (nth j (workers s) WNone) eqn:Hw; try discriminate;
        try (apply (Hworker j Hj); rewrite Hw; reflexivity).
      exists (Worker j). unfold step, step_worker.
      rewrite (b_panic HI), Hw. eauto.
Qed.

(** The call can always be run to its return. *)
Lemma completion (k : nat) :
  forall s, (steps_left n s <= k)%nat -> BInv s -> (0 < NumCPU)%nat ->
            (forall j, (j < n)%nat -> crawl j <> None) ->
            exists more, main (Run more s) = MReturned.
Proof.
  induction k as [|k IH]; intros s Hk HI Hcpu Hcrawl.
  - destruct (main s) eqn:Em; try (exists []; exact Em);
      unfold steps_left in Hk; rewrite Em in Hk; cbn in Hk; lia.
  - destruct (main s) eqn:Em; try (exists []; exact Em).
    all: destruct (progress s HI Hcpu Hcrawl) as (t & s' & E);
      [rewrite Em; discriminate|].
    all: pose proof (step_steps_left t s s' HI E) as Hdec.
    all: destruct (IH s') as (more & Hmore);
      [lia | exact (step_inv t s s' HI E) | exact Hcpu | exact Hcrawl |].
    all: exists (t :: more); cbn [run]; rewrite E; exact Hmore.
Qed.

Lemma times_In (j : nat) (cs : list (nat * Out)) :
  (0 < times j cs)%nat -> exists out, In (j, out) cs.
Proof.
  unfold times. induction cs as [|[i out] cs IH]; cbn; [lia|].
  destruct (Nat.eqb_spec i j) as [->|Hne].
  - intros _. exists out. now left.
  - intros H. destruct (IH H) as (out' & Hin). exists out'. now right.
Qed.

Lemma In_times (j : nat) (out : Out) (cs : list (nat * Out)) :
  In (j, out) cs -> (0 < times j cs)%nat.
Proof.
  unfold times. induction cs as [|[i o] cs IH]; cbn; [intros []|].
  intros [[= -> ->]|Hin].
  - rewrite Nat.eqb_refl. cbn. lia.
  - destruct (Nat.eqb i j); cbn; [lia | auto].
Qed.

(** When [GetMultiple] has returned, the goroutine of every request
    has finished. *)
Lemma returned_exited (s : Batch Out) (j : nat) :
  BInv s -> main s = MReturned -> (j < n)%nat ->
  nth j (workers s) WNone = WExit.
Proof.
  intros HI Hret Hj.
  pose proof (b_ret HI Hret) as Hz. pose proof (b_wg HI) as Hwg.
  pose proof (filter_length_le exited (workers s)) as Hle.
  assert (He : exited (nth j (workers s) WNone) = true).
  { apply filter_all; rewrite ?(b_len HI) in *; unfold count in *; lia. }
  destruct (nth j (workers s) WNone); try discriminate; reflexivity.
Qed.

(** [h.Handle] has been called once for a request whose goroutine has
    finished, with what [Get] returned. *)
Lemma exited_called (s : Batch Out) (j : nat) :
  BInv s -> nth j (workers s) WNone = WExit ->
  times j (calls s) = 1%nat /\
  exists out, crawl j = Some out /\ In (j, out) (calls s).
Proof.
  intros HI Hw.
  assert (Ht : times j (calls s) = 1%nat).
  { rewrite (b_calls HI), Hw. reflexivity. }
  split; [exact Ht|].
  destruct (times_In j (calls s)) as (out & Hin); [lia|].
  exists out. split; [exact (b_out HI j out Hin) | exact Hin].
Qed.

(** A request whose [Get] never returns: [h.Handle] is not called for
    it, and [GetMultiple] does not return. *)
Lemma hanging_request (s : Batch Out) (j : nat) :
  BInv s -> (j < n)%nat -> crawl j = None ->
  times j (calls s) = 0%nat /\ main s <> MReturned.
Proof.
  intros HI Hj Hc.
  assert (Ht : times j (calls s) = 0%nat).
  { destruct (times j (calls s)) as [|k] eqn:E; [reflexivity|].
    destruct (times_In j (calls s)) as (out & Hin); [lia|].
    pose proof (b_out HI j out Hin). congruence. }
  split; [exact Ht|]. intros Hret.
  pose proof (returned_exited s j HI Hret Hj) as Hw.
  destruct (exited_called s j HI Hw) as [Ht1 _]. lia.
Qed.

(** While the goroutine of a request whose [Get] returns has not
    finished, some goroutine can move, provided fewer requests than
    [guard] has room for have a [Get] that never returns. *)
Lemma progress_some (s : Batch Out) (j : nat) :
  BInv s -> (hanging n crawl < NumCPU * 5)%nat ->
  (j < n)%nat -> crawl j <> None -> nth j (workers s) WNone <> WExit ->
  exists t s', Step t s = Some s'.
Proof.
  intros HI Hh Hj Hc Hw.
  assert (Hmainstep : forall s', step_main n NumCPU s = Some s' ->
                                 exists t s', Step t s = Some s').
  { intros s' E. exists Main, s'. unfold step.
    now rewrite (b_panic HI). }
  assert (Hworker : forall i, (i < n)%nat ->
                              holds (nth i (workers s) WNone) = true ->
                              crawl i <> None ->
                              exists t s', Step t s = Some s').
  { intros i Hi Hhold Hci.
    destruct (holder_steps s i HI Hi Hhold Hci) as (s' & E).
    now exists (Worker i), s'. }
  destruct (nth j (workers s) WNone) as [| |out| | | |] eqn:Ew;
    try (apply (Hworker j Hj); [rewrite Ew; reflexivity | exact Hc]).
  - (* not started: the caller is still in its loop *)
    pose proof (b_started HI j Hj) as Hst. rewrite Ew in Hst.
    cbn [started] in Hst. symmetry in Hst. apply Nat.ltb_ge in Hst.
    destruct (main s) as [i|i| |] eqn:Em; cbn [spawned] in Hst; try lia.
    + destruct (Nat.ltb_spec (guard s) (capacity NumCPU)) as [Hg|Hg].
      * eapply Hmainstep. unfold step_main. rewrite Em.
        destruct (Nat.ltb_spec i n); [|lia].
        destruct (Nat.ltb_spec (guard s) (capacity NumCPU)); [|lia].
        reflexivity.
      * (* the channel is full: one of its holders is not stuck *)
        destruct (forallb (fun i => negb (holds (nth i (workers s) WNone))
                                    || hangs crawl i) (seq 0 n)) eqn:Eall.
        -- exfalso.
           pose proof (b_guard HI) as Hgd. rewrite Em in Hgd.
           cbn [at_go b2n] in Hgd.
           pose proof (filter_indices holds (hangs crawl) WNone (workers s) 0) as Hle.
           rewrite (b_len HI) in Hle. unfold capacity, count, hanging in *.
           assert (length (filter holds (workers s))
                   <= length (filter (hangs crawl) (seq 0 n)))%nat; [|lia].
           apply Hle. intros k Hk Hp. cbn [Nat.add].
           rewrite forallb_forall in Eall.
           specialize (Eall k ltac:(apply in_seq; lia)).
           rewrite Hp in Eall. exact Eall.
        -- destruct (forallb_false _ _ Eall) as (k & Hin & Hk).
           apply in_seq in Hin. apply orb_false_iff in Hk as [Hk1 Hk2].
           apply negb_false_iff in Hk1.
           apply (Hworker k); [lia | exact Hk1|].
           unfold hangs in Hk2. destruct (crawl k); [discriminate | discriminate Hk2].
    + eapply Hmainstep. unfold step_main. rewrite Em. reflexivity.
  - (* at its [wg.Done()] *)
    exists (Worker j). unfold step, step_worker.
    rewrite (b_panic HI), Ew. eauto.
  - congruence.
Qed.

(** The call can always be run until [h.Handle] has been called, and
    has returned, for every request whose [Get] returns. *)
Lemma completion_some (k : nat) :
  forall s, (steps_left n s <= k)%nat -> BInv s ->
            (hanging n crawl < NumCPU * 5)%nat ->
            exists more,
              forall j, (j < n)%nat -> crawl j <> None ->
                        nth j (workers (Run more s)) WNone = WExit.
Proof.
  induction k as [|k IH]; intros s Hk HI Hh.
  all: destruct (forallb (fun j => hangs crawl j
                                   || exited (nth j (workers s) WNone))
                   (seq 0 n)) eqn:Eall.
  1, 3: exists []; cbn [run]; intros j Hj Hc;
    rewrite forallb_forall in Eall;
    specialize (Eall j ltac:(apply in_seq; lia));
    unfold hangs in Eall;
    destruct (crawl j); [|congruence]; cbn [is_nil orb] in Eall;
    destruct (nth j (workers s) WNone); try discriminate; reflexivity.
  all: destruct (forallb_false _ _ Eall) as (j & Hin & Hj);
    apply in_seq in Hin; apply orb_false_iff in Hj as [Hj1 Hj2].
  all: assert (Hc : crawl j <> None)
    by (unfold hangs in Hj1; destruct (crawl j); [discriminate | discriminate Hj1]).
  all: assert (Hw : nth j (workers s) WNone <> WExit)
    by (intros Ew; rewrite Ew in Hj2; discriminate Hj2).
  all: destruct (progress_some s j HI Hh ltac:(lia) Hc Hw) as (t & s' & E).
  all: pose proof (step_steps_left t s s' HI E) as Hdec.
  - lia.
  - destruct (IH s') as (more & Hmore);
      [lia | exact (step_inv t s s' HI E) | exact Hh |].
    exists (t :: more). cbn [run]. rewrite E. exact Hmore.
Qed.

(** C8 (amended): in every state a call of [GetMultiple] goes through,
    whatever the interleaving of its goroutines: at most
    [runtime.NumCPU()*5] goroutines are in [Get]; no goroutine has
    panicked; [h.Handle] has been called at most once for each
    request, and only for a request of the list, with what [Get]
    returned for it, success or failure; when [GetMultiple] has
    returned, the goroutine of every request has finished, and
    [h.Handle] has been called, and has returned, exactly once for
    each request; provided every [Get] returns, the call can always
    be run to its return, and every step of a goroutine is one of a
    number of steps that are left.  For a request whose [Get] never
    returns, [h.Handle] is never called and [GetMultiple] does not
    return; as long as there are fewer such requests than
    [runtime.NumCPU()*5], the call can still be run until [h.Handle]
    has been called, and has returned, exactly once for every other
    request. *)
Theorem GetMultiple_spec (sched : list thread) :
  (0 < NumCPU)%nat ->
  let s := Run sched (init n) in
  (count in_Get (workers s) <= NumCPU * 5)%nat /\
  panicked s = false /\
  (forall j, (times j (calls s) <= 1)%nat) /\
  (forall j out, In (j, out) (calls s) -> (j < n)%nat /\ crawl j = Some out) /\
  (main s = MReturned ->
   forall j, (j < n)%nat ->
             nth j (workers s) WNone = WExit /\
             times j (calls s) = 1%nat /\
             exists out, crawl j = Some out /\ In (j, out) (calls s)) /\
  ((forall j, (j < n)%nat -> crawl j <> None) ->
   exists more, main (Run more s) = MReturned) /\
  (forall t s', Step t s = Some s' ->
                (steps_left n s' + 1 = steps_left n s)%nat) /\
  (forall j, (j < n)%nat -> crawl j = None ->
             times j (calls s) = 0%nat /\ main s <> MReturned) /\
  ((hanging n crawl < NumCPU * 5)%nat ->
   exists more,
     forall j, (j < n)%nat -> crawl j <> None ->
               nth j (workers (Run more s)) WNone = WExit /\
               times j (calls (Run more s)) = 1%nat).
Proof.
  intros Hcpu s.
  assert (HI : BInv s) by (apply run_inv, BInv_init).
  split; [|split; [|split; [|split; [|split; [|split; [|split; [|split]]]]]]].
  - pose proof (filter_imp in_Get holds (workers s)) as Hle.
    pose proof (b_guard HI). pose proof (b_cap HI).
    unfold capacity, count in *.
    assert (length (filter in_Get (workers s))
            <= length (filter holds (workers s)))%nat; [|lia].
    apply Hle. intros [] E; try discriminate; reflexivity.
  - exact (b_panic HI).
  - intros j. rewrite (b_calls HI). destruct (called _); cbn; lia.
  - intros j out Hin. split; [|exact (b_out HI j out Hin)].
    apply In_times in Hin. rewrite (b_calls HI) in Hin.
    apply (worker_index s j HI). intros E. rewrite E in Hin. cbn in Hin. lia.
  - intros Hret j Hj.
    pose proof (returned_exited s j HI Hret Hj) as Hw.
    split; [exact Hw | exact (exited_called s j HI Hw)].
  - intros Hcrawl. now apply (completion (steps_left n s)).
  - intros t s'. now apply step_steps_left.
  - intros j Hj Hc. exact (hanging_request s j HI Hj Hc).
  - intros Hh.
    destruct (completion_some (steps_left n s) s (Nat.le_refl _) HI Hh)
      as (more & Hmore).
    exists more. intros j Hj Hc.
    pose proof (Hmore j Hj Hc) as Hw. split; [exact Hw|].
    exact (proj1 (exited_called (Run more s) j (run_inv more s HI) Hw)).
Qed.

End BatchProperties.

(** Six requests on one CPU, whose [Get] all return.  After the first
    part of the schedule five goroutines are in [Get], which is the
    ceiling, [guard] is full and the caller cannot move; after the
    second part [GetMultiple] has returned and [h.Handle] has been
    called once for each of the six.  And three requests on two CPUs,
    of which the second has a [Get] that never returns: the call can be
    run until [h.Handle] has been called for the two others. *)
Lemma GetMultiple_spec_witness :
  (0 < 1)%nat /\
  (let s := run 6 1 (fun i => Some i) schedule6_fill (init 6) in
   count in_Get (workers s) = 5%nat /\ guard s = 5%nat /\
   main s = MSend 5 /\ step 6 1 (fun i => Some i) Main s = None /\
   (count in_Get (workers s) <= 1 * 5)%nat) /\
  (let s := run 6 1 (fun i => Some i) (schedule6_fill ++ schedule6_drain) (init 6) in
   main s = MReturned /\
   forall j, (j < 6)%nat ->
             nth j (workers s) WNone = WExit /\
             times j (calls s) = 1%nat /\
             exists out, Some j = Some out /\ In (j, out) (calls s)) /\
  (hanging 3 (fun i => if Nat.eqb i 1 then None else Some i) < 2 * 5)%nat /\
  (exists more,
      let s := run 3 2 (fun i => if Nat.eqb i 1 then None else Some i) more (init 3) in
      forall j, (j < 3)%nat -> (if Nat.eqb j 1 then None else Some j) <> None ->
                nth j (workers s) WNone = WExit /\ times j (calls s) = 1%nat).
Proof.
  assert (H : (0 < 1)%nat) by lia.
  assert (H2 : (0 < 2)%nat) by lia.
  assert (Hh : (hanging 3 (fun i => if Nat.eqb i 1 then None else Some i) < 2 * 5)%nat)
    by (vm_compute; lia).
  split; [exact H|]. split; [|split; [|split; [exact Hh|]]].
  3:{ exact (proj2 (proj2 (proj2 (proj2 (proj2 (proj2 (proj2 (proj2
               (GetMultiple_spec nat 3 2
                  (fun i => if Nat.eqb i 1 then None else Some i) [] H2))))))))
             Hh). }
  - pose proof (GetMultiple_spec nat 6 1 (fun i => Some i) schedule6_fill H) as Hs.
    cbv zeta in *. do 4 (split; [reflexivity|]). exact (proj1 Hs).
  - pose proof (GetMultiple_spec nat 6 1 (fun i => Some i)
                  (schedule6_fill ++ schedule6_drain) H) as Hs.
    cbv zeta in *. split; [reflexivity|].
    exact (proj1 (proj2 (proj2 (proj2 (proj2 Hs)))) eq_refl).
Defined.

(** C8, as stated, fails: with three requests of which the second has a
    [Get] that never returns (it follows redirects for ever), no
    interleaving brings [GetMultiple] to its return, and none has
    [h.Handle] called for that request. *)
Lemma GetMultiple_spec_counterexample :
  (~ exists sched,
       main (run 3 2 (fun i => if Nat.eqb i 1 then None else Some i) sched (init 3))
       = MReturned) /\
  (~ exists sched out,
       In (1%nat, out)
          (calls (run 3 2 (fun i => if Nat.eqb i 1 then None else Some i) sched
                    (init 3)))).
Proof.
  assert (HI : forall sched,
             BInv 3 2 (fun i => if Nat.eqb i 1 then None else Some i)
               (run 3 2 (fun i => if Nat.eqb i 1 then None else Some i) sched (init 3))).
  { intros sched. apply run_inv, BInv_init. }
  split.
  - intros (sched & Hret).
    apply (proj2 (hanging_request nat 3 2 _ _ 1 (HI sched) ltac:(lia) eq_refl)).
    exact Hret.
  - intros (sched & out & Hin).
    pose proof (b_out (HI sched) 1%nat out Hin) as Hc. discriminate Hc.
Qed.

(** * Further properties *)

(** ** The split function and the lines of [ParseBody] *)

Lemma noeol_app (l1 l2 : list byte) :
  noeol (l1 ++ l2) = noeol l1 && noeol l2.
Proof. unfold noeol. apply forallb_app. Qed.

Lemma firstn_prefix {A} (pre post : list A) :
  firstn (length pre) (pre ++ post) = pre.
Proof.
  rewrite firstn_app, Nat.sub_diag, firstn_all. cbn. apply app_nil_r.
Qed.

(** X1: the contract [split] keeps with the scanner.  It never reports
    an error.  A token is either the data up to its first CR or LF, and
    then the advance covers the token and the terminator and nothing
    else: the LF alone, the CR together with the LF that follows it in
    the data, or the CR alone when no LF follows it in the data (also
    when the CR is the last byte of the data and more may come); or, at
    the end of the input and with no CR or LF in the data, the token is
    all the data, which is not empty, and the advance covers it.  No
    token means no advance and no CR or LF in the data, with nothing
    held back at the end of the input. *)
Theorem split_contract (data : list byte) (atEOF : bool) :
  let '(adv, tok, e) := split data atEOF in
  e = None /\ 0 <= adv <= len data /\
  match tok with
  | Some t =>
      (exists c post,
          data = t ++ c :: post /\ noeol t = true /\
          ((c = LF /\ adv = len t + 1) \/
           (c = CR /\ (exists post', post = LF :: post') /\ adv = len t + 2) \/
           (c = CR /\ (forall post', post <> LF :: post') /\ adv = len t + 1))) \/
      (atEOF = true /\ noeol data = true /\ data <> [] /\
       t = data /\ adv = len data)
  | None => adv = 0 /\ noeol data = true /\ (atEOF = true -> data = [])
  end.
Proof.
  destruct (Z.ltb_spec (IndexAny_CRLF data) 0) as [Hnone|Hfound].
  - pose proof (IndexAny_CRLF_none data Hnone) as Hn.
    rewrite (split_none data atEOF Hn). pose proof (len_nonneg data).
    destruct atEOF.
    + destruct data as [|a data].
      * repeat split; auto; cbn; lia.
      * split; [reflexivity|]. split; [lia|]. right.
        repeat split; auto; discriminate.
    + repeat split; auto; try lia; discriminate.
  - destruct (IndexAny_CRLF_found data Hfound)
      as (pre & c & post & -> & _ & Hp & Hc).
    rewrite (split_found pre c post atEOF Hp Hc).
    pose proof (eol_extra_range c post) as Hx. pose proof (len_nonneg pre).
    rewrite len_app, len_cons.
    split; [reflexivity|]. split; [lia|]. left.
    exists c, post. split; [reflexivity|]. split; [exact Hp|].
    unfold eol_extra in *. unfold is_eol in Hc.
    destruct (Byte.eqb c LF) eqn:Elf.
    + left. apply byte_eqb_eq in Elf. split; [exact Elf | lia].
    + rewrite orb_false_r in Hc. apply byte_eqb_eq in Hc. right.
      destruct post as [|c' post'].
      * right. split; [exact Hc|]. split; [discriminate | lia].
      * destruct (Byte.eqb c' LF) eqn:Elf'.
        -- left. apply byte_eqb_eq in Elf'. subst c'.
           split; [exact Hc|]. split; [now exists post' | lia].
        -- right. split; [exact Hc|]. split; [|lia].
           intros post'' [= E _]. subst c'.
           now rewrite (proj2 (byte_eqb_eq LF LF) eq_refl) in Elf'.
Qed.

Lemma fragments_none (data cur : list byte) :
  noeol data = true -> fragments cur data = one_line (rev cur ++ data).
Proof.
  unfold noeol. revert cur.
  induction data as [|a data IH]; intros cur Hd; cbn [fragments].
  - now rewrite app_nil_r.
  - cbn [forallb] in Hd. apply andb_true_iff in Hd as [Ha Hd].
    apply negb_true_iff in Ha. rewrite Ha, (IH _ Hd).
    cbn [rev]. now rewrite <- app_assoc.
Qed.

Lemma fragments_found (pre : list byte) (c : byte) (rest cur : list byte) :
  noeol pre = true -> is_eol c = true ->
  fragments cur (pre ++ c :: rest) = one_line (rev cur ++ pre) ++ fragments [] rest.
Proof.
  unfold noeol. intros Hp Hc. revert cur.
  induction pre as [|a pre IH]; intros cur; cbn [app fragments].
  - now rewrite Hc, app_nil_r.
  - cbn [forallb] in Hp. apply andb_true_iff in Hp as [Ha Hp].
    apply negb_true_iff in Ha. rewrite Ha, (IH Hp).
    cbn [rev]. now rewrite <- app_assoc.
Qed.

(** The line feed consumed behind a carriage return starts no line. *)
Lemma fragments_skip_extra (c : byte) (post rest : list byte) :
  fragments [] (skipn (Z.to_nat (eol_extra c post)) post ++ rest) =
  fragments [] (post ++ rest).
Proof.
  unfold eol_extra. destruct (Byte.eqb c LF); [reflexivity|].
  destruct post as [|c' post']; [reflexivity|].
  destruct (Byte.eqb c' LF) eqn:E; [|reflexivity].
  cbn [Z.to_nat Pos.to_nat Pos.iter_op Nat.add skipn app fragments].
  unfold is_eol. rewrite E, orb_true_r. reflexivity.
Qed.

Lemma one_line_nonempty (l : list byte) :
  filter nonempty [string_of_list_byte l] =
  map string_of_list_byte (one_line l).
Proof. destruct l; reflexivity. Qed.

(** The lines of the specification's splitting that are not empty are
    the fragments. *)
Lemma spec_split_fragments (b cur : list byte) :
  filter nonempty (map string_of_list_byte (spec_split cur b)) =
  map string_of_list_byte (fragments cur b).
Proof.
  revert cur. induction b as [|c rest IH]; intros cur.
  - cbn [spec_split fragments]. destruct cur as [|x cur]; [reflexivity|].
    cbn [map]. rewrite one_line_nonempty. reflexivity.
  - cbn [spec_split fragments]. unfold is_eol.
    destruct (Byte.eqb c LF) eqn:Elf.
    { rewrite orb_true_r. change (rev cur :: spec_split [] rest)
        with ([rev cur] ++ spec_split [] rest).
      rewrite !map_app, filter_app, IH. cbn [map].
      now rewrite one_line_nonempty. }
    rewrite orb_false_r. destruct (Byte.eqb c CR) eqn:Ecr; [|apply IH].
    assert (Hgen : filter nonempty
                     (map string_of_list_byte (rev cur :: spec_split [] rest)) =
                   map string_of_list_byte (one_line (rev cur) ++ fragments [] rest)).
    { change (rev cur :: spec_split [] rest)
        with ([rev cur] ++ spec_split [] rest).
      rewrite !map_app, filter_app, IH. cbn [map].
      now rewrite one_line_nonempty. }
    destruct rest as [|c' rest']; [exact Hgen|].
    destruct (Byte.eqb c' LF) eqn:E'; [|exact Hgen].
    assert (Hs : filter nonempty (map string_of_list_byte (spec_split [] rest')) =
                 map string_of_list_byte (fragments [] (c' :: rest'))).
    { rewrite <- (IH []). cbn [spec_split]. rewrite E'. reflexivity. }
    change (rev cur :: spec_split [] rest')
      with ([rev cur] ++ spec_split [] rest').
    rewrite !map_app, filter_app, Hs. cbn [map].
    now rewrite one_line_nonempty.
Qed.

(** A run of bytes other than CR and LF at the head of the input is the
    beginning of a fragment. *)
Lemma fragments_cur (rest cur : list byte) :
  cur <> [] -> exists f, In f (fragments cur rest) /\ len cur <= len f.
Proof.
  revert cur. induction rest as [|c rest IH]; intros cur Hne; cbn [fragments].
  - exists (rev cur). unfold len. rewrite length_rev.
    destruct (rev cur) eqn:E; [|split; [now left | lia]].
    apply (f_equal (@length byte)) in E. rewrite length_rev in E.
    destruct cur; [congruence | discriminate].
  - destruct (is_eol c).
    + exists (rev cur). unfold len. rewrite length_rev. split; [|lia].
      apply in_or_app. left.
      destruct (rev cur) eqn:E; [|now left].
      apply (f_equal (@length byte)) in E. rewrite length_rev in E.
      destruct cur; [congruence | discriminate].
    + destruct (IH (c :: cur)) as (f & Hin & Hl); [discriminate|].
      exists f. split; [exact Hin|]. rewrite len_cons in Hl. lia.
Qed.

Lemma fragments_noeol_app (w rest cur : list byte) :
  noeol w = true -> fragments cur (w ++ rest) = fragments (rev w ++ cur) rest.
Proof.
  unfold noeol. revert cur.
  induction w as [|a w IH]; intros cur Hw; [reflexivity|].
  cbn [forallb] in Hw. apply andb_true_iff in Hw as [Ha Hw].
  apply negb_true_iff in Ha. cbn [app fragments]. rewrite Ha, (IH _ Hw).
  cbn [rev]. now rewrite <- app_assoc.
Qed.

Lemma fragments_long_prefix (w rest : list byte) :
  noeol w = true -> w <> [] ->
  exists f, In f (fragments [] (w ++ rest)) /\ len w <= len f.
Proof.
  intros Hw Hne. rewrite (fragments_noeol_app w rest [] Hw), app_nil_r.
  destruct (fragments_cur rest (rev w)) as (f & Hin & Hl).
  - intros E. apply (f_equal (@rev byte)) in E. rewrite rev_involutive in E.
    now apply Hne.
  - exists f. split; [exact Hin|]. unfold len in *. rewrite length_rev in Hl. lia.
Qed.

Lemma In_one_line (f l : list byte) : In f (one_line l) -> f = l.
Proof. destruct l; cbn; [intros [] | intros [H|[]]; congruence]. Qed.

(** The scanner keeps room in its buffer after the end of the input. *)
Lemma fill_room (s : Scanner) :
  Inv s -> err s = None -> s_end s < buf_len s -> room (fill s).
Proof.
  intros HI He Hlt. unfold room, fill, Reader_Read.
  destruct (r s) as [|a r0] eqn:Er.
  - cbn [len length Z.of_nat]. destruct (Z.ltb_spec 0 0); [lia|].
    destruct (Z.ltb_spec (buf_len s - s_end s) 0); [lia|].
    cbn [orb]. unfold setErr. cbn [err]. rewrite He. cbn [is_nil orb].
    unfold with_err, s_end in *. cbn. rewrite app_nil_r. intros _. exact Hlt.
  - set (got := firstn (Z.to_nat (buf_len s - s_end s)) (a :: r0)).
    assert (Hgot : 0 < len got <= buf_len s - s_end s).
    { unfold got, len. rewrite length_firstn. simpl length. lia. }
    destruct (Z.ltb_spec (len got) 0); [lia|].
    destruct (Z.ltb_spec (buf_len s - s_end s) (len got)); [lia|].
    cbn [orb].
    replace (len got >? 0) with true by (symmetry; apply Z.gtb_lt; lia).
    unfold with_token. cbn [err]. rewrite He. discriminate.
Qed.

Lemma read_more_room (s1 : Scanner) :
  Inv s1 -> room s1 -> room (fst (read_more s1)).
Proof.
  intros HI Hroom. unfold read_more.
  destruct (inv_err s1 HI) as [He|[He Hr]].
  - rewrite He. cbn [is_nil negb]. cbv zeta.
    destruct (shift_spec s1 HI) as (HI2 & Hr & Hw & He2 & Hb & Hm & H0).
    set (s2 := shift s1) in *. rewrite He in He2.
    destruct (Z.eqb_spec (s_end s2) (buf_len s2)) as [Hfull|Hnot].
    + specialize (H0 Hfull). destruct HI2.
      rewrite inv_max0, maxInt_half.
      destruct (Z.geb_spec (buf_len s2) MaxScanTokenSize) as [Hge|Hlt'];
        cbn [orb fst].
      { unfold room, setErr. rewrite He2. cbn. discriminate. }
      destruct (Z.gtb_spec (buf_len s2) 4611686018427387903) as [Hbig|_].
      { unfold MaxScanTokenSize in *. lia. }
      cbn [fst]. set (newSize := Z.min _ _).
      assert (Hn : buf_len s2 < newSize <= MaxScanTokenSize).
      { unfold newSize. pose proof (len_nonneg (window s2)).
        unfold s_end in Hfull.
        destruct (Z.eqb_spec (buf_len s2 * 2) 0); unfold startBufSize; lia. }
      apply fill_room.
      * constructor; cbn; auto; unfold s_end, MaxScanTokenSize in *; cbn; lia.
      * exact He2.
      * unfold s_end in *. cbn. lia.
    + cbn [fst]. apply fill_room; auto. destruct HI2. lia.
  - rewrite He. cbn [is_nil negb fst]. unfold room, s_end. cbn.
    intros _. specialize (Hroom He). destruct HI.
    pose proof (len_nonneg (window s1)). unfold s_end in *. lia.
Qed.

Lemma Scan_iter_room (s : Scanner) :
  Inv s -> room s -> room (fst (Scan_iter s)).
Proof.
  intros HI Hroom. unfold Scan_iter.
  destruct (Z.ltb_spec (IndexAny_CRLF (window s)) 0) as [Hnone|Hfound].
  - apply IndexAny_CRLF_none in Hnone.
    assert (Hsame : forall s1, same_core s s1 -> room s1).
    { intros s1 (_ & _ & Hb & Hs & Hw & He & _). unfold room, s_end in *.
      rewrite Hb, Hs, Hw, He. exact Hroom. }
    destruct (inv_err s HI) as [He|[He Hr]].
    + destruct (try_token_more s He Hnone) as (s1 & -> & Hc).
      apply read_more_room; [exact (same_core_Inv _ _ Hc HI) | now apply Hsame].
    + assert (Hcase : window s = [] \/ window s <> [])
        by (destruct (window s); [left|right]; congruence).
      destruct Hcase as [Ew|Hne].
      * destruct (try_token_stop s He Ew) as (s1 & -> & Hc).
        apply read_more_room; [exact (same_core_Inv _ _ Hc HI) | now apply Hsame].
      * rewrite (try_token_last s He Hne Hnone). cbn [fst].
        unfold room, s_end in *. cbn. intros _. specialize (Hroom He). lia.
  - destruct (IndexAny_CRLF_found _ Hfound) as (pre & c & post & Hw & _ & Hp & Hc).
    rewrite (try_token_found s pre c post Hw Hp Hc). cbn [fst].
    pose proof (eol_extra_range c post) as Hx.
    unfold room, s_end in *. cbn. intros He. specialize (Hroom He).
    rewrite len_skipn by lia. rewrite Hw, len_app, len_cons in Hroom. lia.
Qed.

(** The loop of [ParseBody] from any state of the scanner: it ends with
    the token-too-long error exactly when a fragment of at least
    [MaxScanTokenSize] bytes is ahead, and otherwise with no error,
    having appended lines of which those that are not empty are the
    fragments ahead. *)
Lemma scan_lines_fragments (m : nat) :
  forall s fuel acc,
    (measure s < m)%nat -> Inv s -> room s ->
    (length (window s) + length (r s) < fuel)%nat ->
    exists s' lines,
      scan_lines fuel s acc = Some (s', lines) /\
      ((Scanner_Err s' = Some ErrTooLong /\
        exists f, In f (fragments [] (window s ++ r s)) /\
                  MaxScanTokenSize <= len f) \/
       (Scanner_Err s' = None /\
        (forall f, In f (fragments [] (window s ++ r s)) ->
                   len f < MaxScanTokenSize) /\
        filter nonempty lines =
        filter nonempty acc
        ++ map string_of_list_byte (fragments [] (window s ++ r s)))).
Proof.
  induction m as [|m IH]; intros s fuel acc Hm HI Hroom Hfuel; [lia|].
  destruct fuel as [|fuel]; [lia|].
  cbn [scan_lines]. rewrite (Scan_unfold s HI).
  pose proof (Scan_iter_spec s HI) as Hspec.
  pose proof (Scan_iter_room s HI Hroom) as Hroom'.
  destruct (Scan_iter s) as [s' o]. cbn [fst] in Hroom'.
  inversion Hspec as
    [pre c post s0 Hw Hp Hc HI' Hr' He' Ht' Hw'
    |s0 He Hne Hp HI' Hr' He' Ht' Hw'
    |s0 He Hp HI' Hcat Hprog
    |s0 He Hw He'
    |s0 He Hp Hlong He']; subst.
  - (* a terminated line *)
    pose proof (eol_extra_range c post) as Hx.
    assert (Hlen : (length (window s') < length (window s))%nat).
    { rewrite Hw', Hw, length_skipn, length_app. simpl length. lia. }
    assert (Hfr : fragments [] (window s ++ r s) =
                  one_line pre ++ fragments [] (window s' ++ r s')).
    { rewrite Hw, <- app_assoc. cbn [app].
      rewrite (fragments_found pre c (post ++ r s) [] Hp Hc).
      now rewrite Hw', Hr', fragments_skip_extra. }
    assert (Hpre : len pre < MaxScanTokenSize).
    { destruct HI. unfold s_end in *.
      rewrite Hw, len_app, len_cons in inv_end0.
      pose proof (len_nonneg post). lia. }
    destruct (IH s' fuel (acc ++ [Text s'])) as (s'' & lines & Hrun & Hres);
      auto.
    { unfold measure in *. rewrite Hr', He'. lia. }
    { rewrite Hr'. lia. }
    exists s'', lines. split; [exact Hrun|]. rewrite Hfr.
    destruct Hres as [[Hel (f & Hin & Hl)]|(Hen & Hshort & Hl)].
    + left. split; auto. exists f. split; [|exact Hl].
      apply in_or_app. now right.
    + right. split; auto. split.
      * intros f Hin. apply in_app_or in Hin as [Hin|Hin]; [|now apply Hshort].
        apply In_one_line in Hin. now subst f.
      * rewrite Hl, filter_app, map_app, <- app_assoc. f_equal. f_equal.
        unfold Text. rewrite Ht'. apply one_line_nonempty.
  - (* the last, unterminated line *)
    destruct (inv_err s HI) as [He0|[_ Hr]]; [congruence|].
    assert (Hlen : (0 < length (window s))%nat).
    { destruct (window s); [congruence | simpl; lia]. }
    assert (Hfr : fragments [] (window s ++ r s) = [window s]).
    { rewrite Hr, app_nil_r, (fragments_none _ [] Hp). cbn [rev app].
      destruct (window s); [congruence | reflexivity]. }
    assert (Hshort : len (window s) < MaxScanTokenSize).
    { specialize (Hroom He). destruct HI. unfold s_end in *. lia. }
    destruct (IH s' fuel (acc ++ [Text s'])) as (s'' & lines & Hrun & Hres);
      auto.
    { unfold measure in *. rewrite Hr', He', Hw'. simpl length. lia. }
    { rewrite Hr', Hw'. simpl length. lia. }
    exists s'', lines. split; [exact Hrun|]. rewrite Hfr.
    rewrite Hw', Hr', Hr in Hres. cbn [app fragments rev one_line] in Hres.
    destruct Hres as [[Hel (f & [] & _)]|(Hen & _ & Hl)].
    right. split; auto. split.
    + intros f [<-|[]]. exact Hshort.
    + rewrite Hl, filter_app. cbn [map]. rewrite app_nil_r. f_equal.
      unfold Text. rewrite Ht'. rewrite one_line_nonempty.
      destruct (window s); [congruence | reflexivity].
  - (* more data read, or the end of the input recorded *)
    assert (Hlens : (length (window s') + length (r s')
                     = length (window s) + length (r s))%nat).
    { rewrite <- !length_app. now rewrite Hcat. }
    destruct (IH s' (S fuel) acc) as (s'' & lines & Hrun & Hres); auto.
    { unfold measure in *. rewrite He in Hm. cbn [is_nil] in Hm.
      destruct Hprog as [[Hlt ->]|(Hr0 & Hr1 & ->)]; cbn [is_nil]; [lia|].
      rewrite Hr0, Hr1 in *. lia. }
    { lia. }
    cbn [scan_lines] in Hrun.
    exists s'', lines. split; [exact Hrun|]. now rewrite <- Hcat.
  - (* nothing left *)
    destruct (inv_err s HI) as [He0|[_ Hr]]; [congruence|].
    exists s', acc. split; [reflexivity|]. right.
    unfold Scanner_Err. rewrite He'. cbn [is_EOF]. split; auto.
    rewrite Hw, Hr. cbn. split; [intros f []|]. now rewrite app_nil_r.
  - (* the buffer is full and cannot grow *)
    exists s', acc. split; [reflexivity|]. left.
    unfold Scanner_Err. rewrite He'. cbn [is_EOF]. split; auto.
    destruct (fragments_long_prefix (window s) (r s) Hp) as (f & Hin & Hl).
    { intros E. rewrite E in Hlong. unfold MaxScanTokenSize in Hlong.
      cbn in Hlong. lia. }
    exists f. split; [exact Hin | lia].
Qed.

Lemma read_lines_fragments (b : list byte) :
  exists s lines,
    read_lines b = Some (s, lines) /\
    ((Scanner_Err s = Some ErrTooLong /\
      exists f, In f (fragments [] b) /\ MaxScanTokenSize <= len f) \/
     (Scanner_Err s = None /\
      (forall f, In f (fragments [] b) -> len f < MaxScanTokenSize) /\
      filter nonempty lines = map string_of_list_byte (fragments [] b))).
Proof.
  unfold read_lines.
  destruct (scan_lines_fragments (S (measure (NewScanner b))) (NewScanner b)
              (S (length b)) []) as (s & lines & Hrun & Hres).
  { lia. }
  { apply Inv_NewScanner. }
  { unfold room. cbn. discriminate. }
  { cbn. lia. }
  exists s, lines. split; [exact Hrun|]. exact Hres.
Qed.

(** The lines that are not empty are the fragments of the input. *)
Lemma Lines_fragments (b : list byte) :
  snd (Lines b) = None ->
  filter nonempty (fst (Lines b)) = map string_of_list_byte (fragments [] b).
Proof.
  unfold Lines.
  destruct (read_lines_fragments b)
    as (s & lines & -> & [[He _]|(He & _ & Hl)]); cbn [fst snd].
  - congruence.
  - intros _. exact Hl.
Qed.

Lemma fragments_len (b cur f : list byte) :
  In f (fragments cur b) -> len f <= len cur + len b.
Proof.
  revert cur. induction b as [|c rest IH]; intros cur; cbn [fragments].
  - intros Hin. apply In_one_line in Hin. subst f. unfold len.
    rewrite length_rev. simpl. lia.
  - rewrite len_cons. destruct (is_eol c).
    + intros Hin. apply in_app_or in Hin as [Hin|Hin].
      * apply In_one_line in Hin. subst f. unfold len. rewrite length_rev.
        lia.
      * apply IH in Hin. rewrite len_nil in Hin.
        pose proof (len_nonneg cur). lia.
    + intros Hin. apply IH in Hin. rewrite len_cons in Hin. lia.
Qed.

Lemma fragments_noeol (b cur f : list byte) :
  noeol cur = true -> In f (fragments cur b) -> noeol f = true.
Proof.
  revert cur. induction b as [|c rest IH]; intros cur Hc; cbn [fragments].
  - intros Hin. apply In_one_line in Hin. subst f.
    unfold noeol in *. rewrite forallb_forall in *.
    intros x Hx. apply Hc. now apply in_rev.
  - destruct (is_eol c) eqn:E.
    + intros Hin. apply in_app_or in Hin as [Hin|Hin].
      * apply In_one_line in Hin. subst f.
        unfold noeol in *. rewrite forallb_forall in *.
        intros x Hx. apply Hc. now apply in_rev.
      * now apply (IH []).
    + apply IH. unfold noeol in *. cbn [forallb]. now rewrite E, Hc.
Qed.

Lemma concat_one_line (l : list byte) : concat (one_line l) = l.
Proof. destruct l; cbn; [reflexivity|]. now rewrite app_nil_r. Qed.

Lemma concat_fragments (b cur : list byte) :
  concat (fragments cur b) = rev cur ++ filter (fun c => negb (is_eol c)) b.
Proof.
  revert cur. induction b as [|c rest IH]; intros cur; cbn [fragments filter].
  - now rewrite concat_one_line, app_nil_r.
  - destruct (is_eol c); cbn [negb].
    + rewrite concat_app, concat_one_line, IH. reflexivity.
    + rewrite IH. cbn [rev]. now rewrite <- app_assoc.
Qed.

Lemma concat_nonempty (lines : list string) :
  concat (map list_byte_of_string (filter nonempty lines)) =
  concat (map list_byte_of_string lines).
Proof.
  induction lines as [|l lines IH]; [reflexivity|].
  cbn [filter map concat]. destruct l; cbn [nonempty]; [exact IH|].
  cbn [map concat]. now rewrite IH.
Qed.

(** X2: for every input that is scanned without an error, the lines
    [ParseBody] collects that are not empty are the non-empty lines of
    the splitting on [\r?\n|\r], in the same order: the two can differ
    only by empty lines. *)
Theorem Lines_nonempty (b : list byte) :
  snd (Lines b) = None ->
  filter nonempty (fst (Lines b)) = filter nonempty (spec_lines b).
Proof.
  intros Hok. unfold spec_lines. rewrite spec_split_fragments.
  now apply Lines_fragments.
Qed.

Lemma Lines_nonempty_witness :
  snd (Lines crlf_across_buffers) = None /\
  filter nonempty (fst (Lines crlf_across_buffers)) =
  filter nonempty (spec_lines crlf_across_buffers).
Proof.
  assert (H : snd (Lines crlf_across_buffers) = None)
    by (vm_compute; reflexivity).
  split; [exact H | exact (Lines_nonempty crlf_across_buffers H)].
Defined.

(** When the Line Splitter ends with an error. *)
Lemma Lines_too_long (b : list byte) :
  snd (Lines b) <> None <->
  exists f, In f (fragments [] b) /\ MaxScanTokenSize <= len f.
Proof.
  unfold Lines.
  destruct (read_lines_fragments b)
    as (s & lines & -> & [[He Hf]|(He & Hshort & _)]); cbn [snd]; rewrite He.
  - split; [intros _; exact Hf | discriminate].
  - split; [congruence|]. intros (f & Hin & Hl).
    specialize (Hshort f Hin). lia.
Qed.

(** X3: [ParseBody] returns an error exactly when the input has a line
    (a run of bytes other than CR and LF) of at least 65536 bytes; the
    error is then the scanner's token-too-long error and no records are
    returned. *)
Theorem ParseBody_fails_iff (Records : Type)
    (parseRecords : list string -> Records) (b : list byte) :
  (snd (ParseBody Records parseRecords b) <> None <->
   exists f, In f (fragments [] b) /\ MaxScanTokenSize <= len f) /\
  (snd (ParseBody Records parseRecords b) <> None ->
   ParseBody Records parseRecords b = (None, Some ErrTooLong)).
Proof.
  pose proof (Lines_too_long b) as Hiff.
  pose proof (Lines_error b) as Herr.
  unfold ParseBody. destruct (Lines b) as [lines [e|]]; cbn [snd] in *.
  - split; [exact Hiff|]. intros _.
    destruct Herr as [H|[H _]]; congruence.
  - split; [exact Hiff|]. intros H. now contradiction H.
Qed.

Lemma ParseBody_fails_iff_witness :
  ParseBody (list string) (fun lines => lines) long_line = (None, Some ErrTooLong).
Proof.
  assert (Hn : noeol long_line = true) by (vm_compute; reflexivity).
  assert (Hf : fragments [] long_line = [long_line]).
  { rewrite (fragments_none long_line [] Hn). reflexivity. }
  destruct (ParseBody_fails_iff (list string) (fun lines => lines) long_line)
    as [Hiff Hret].
  apply Hret, Hiff. exists long_line. split.
  - rewrite Hf. now left.
  - vm_compute. discriminate.
Defined.

(** X4: when the Record Parser takes no notice of empty lines, the
    records [ParseBody] returns are those of the lines of the splitting
    on [\r?\n|\r], for every input without a line of 65536 bytes or
    more: the empty lines the scanner adds at the end of a buffer do not
    show. *)
Theorem ParseBody_spec_lines (Records : Type)
    (parseRecords : list string -> Records) (b : list byte) :
  skips_empty_lines parseRecords ->
  (forall f, In f (fragments [] b) -> len f < MaxScanTokenSize) ->
  ParseBody Records parseRecords b = (Some (parseRecords (spec_lines b)), None).
Proof.
  intros Hskip Hshort.
  assert (Hok : snd (Lines b) = None).
  { destruct (snd (Lines b)) eqn:E; [|reflexivity].
    assert (Hne : snd (Lines b) <> None) by (rewrite E; discriminate).
    apply Lines_too_long in Hne as (f & Hin & Hl).
    specialize (Hshort f Hin). lia. }
  pose proof (Lines_fragments b Hok) as Hl.
  unfold ParseBody. destruct (Lines b) as [lines e]. cbn [fst snd] in *.
  subst e. rewrite (Hskip lines), Hl, (Hskip (spec_lines b)).
  unfold spec_lines. now rewrite spec_split_fragments.
Qed.

(** X5: when the Record Parser takes no notice of empty lines, what
    [ParseBody] returns depends only on the non-empty lines of the
    input: two inputs with the same runs of bytes other than CR and LF,
    whatever their line ends and blank lines, give the same records or
    the same error. *)
Theorem ParseBody_line_ends (Records : Type)
    (parseRecords : list string -> Records) (b1 b2 : list byte) :
  skips_empty_lines parseRecords ->
  fragments [] b1 = fragments [] b2 ->
  ParseBody Records parseRecords b1 = ParseBody Records parseRecords b2.
Proof.
  intros Hskip Hfr. unfold ParseBody, Lines.
  destruct (read_lines_fragments b1)
    as (s1 & l1 & -> & [[He1 Hf1]|(He1 & Hs1 & Hl1)]);
    destruct (read_lines_fragments b2)
      as (s2 & l2 & -> & [[He2 Hf2]|(He2 & Hs2 & Hl2)]);
    rewrite He1, He2.
  - reflexivity.
  - exfalso. destruct Hf1 as (f & Hin & Hl). rewrite Hfr in Hin.
    specialize (Hs2 f Hin). lia.
  - exfalso. destruct Hf2 as (f & Hin & Hl). rewrite <- Hfr in Hin.
    specialize (Hs1 f Hin). lia.
  - now rewrite (Hskip l1), (Hskip l2), Hl1, Hl2, Hfr.
Qed.

(** The Record Parser of the specification takes no notice of empty
    lines. *)
Lemma parseRecords_skips_empty_lines :
  skips_empty_lines RecordParser.parseRecords.
Proof.
  intros lines. induction lines as [|l lines IH]; [reflexivity|].
  cbn [filter RecordParser.parseRecords]. destruct l as [|a l].
  - cbn [nonempty]. exact IH.
  - cbn [nonempty RecordParser.parseRecords]. now rewrite IH.
Qed.

Lemma ParseBody_spec_lines_witness :
  ParseBody RecordParser.Records RecordParser.parseRecords crlf_across_buffers =
  (Some (RecordParser.parseRecords (spec_lines crlf_across_buffers)), None).
Proof.
  apply (ParseBody_spec_lines RecordParser.Records RecordParser.parseRecords
           crlf_across_buffers parseRecords_skips_empty_lines).
  intros f Hin. apply fragments_len in Hin.
  assert (Hl : len (@nil byte) + len crlf_across_buffers = 4097)
    by (vm_compute; reflexivity).
  unfold MaxScanTokenSize. lia.
Defined.

Lemma ParseBody_line_ends_witness :
  fragments [] example_file = fragments [] example_file_crlf /\
  ParseBody RecordParser.Records RecordParser.parseRecords example_file =
  ParseBody RecordParser.Records RecordParser.parseRecords example_file_crlf.
Proof.
  assert (H : fragments [] example_file = fragments [] example_file_crlf)
    by (vm_compute; reflexivity).
  split; [exact H|].
  exact (ParseBody_line_ends RecordParser.Records RecordParser.parseRecords
           example_file example_file_crlf parseRecords_skips_empty_lines H).
Defined.

(** X6: for every input that is scanned without an error, no line
    [ParseBody] collects holds a CR or a LF, and the lines put end to
    end are the input without its CR and LF bytes: the Line Splitter
    drops the line ends and nothing else, and keeps the order. *)
Theorem Lines_bytes (b : list byte) :
  snd (Lines b) = None ->
  Forall (fun line => noeol (list_byte_of_string line) = true) (fst (Lines b)) /\
  concat (map list_byte_of_string (fst (Lines b))) =
  filter (fun c => negb (is_eol c)) b.
Proof.
  intros Hok. pose proof (Lines_fragments b Hok) as Hl. split.
  - apply Forall_forall. intros line Hin.
    destruct line as [|a line]; [reflexivity|].
    assert (Hin' : In (String a line) (filter nonempty (fst (Lines b)))).
    { apply filter_In. split; [exact Hin | reflexivity]. }
    rewrite Hl in Hin'. apply in_map_iff in Hin' as (f & <- & Hf).
    rewrite list_byte_of_string_of_list_byte.
    now apply (fragments_noeol b [] f).
  - rewrite <- concat_nonempty, Hl, map_map.
    rewrite (map_ext _ (fun x => x)) by apply list_byte_of_string_of_list_byte.
    rewrite map_id. apply (concat_fragments b []).
Qed.

Lemma Lines_bytes_witness :
  snd (Lines mixed_file) = None /\
  concat (map list_byte_of_string (fst (Lines mixed_file))) =
  filter (fun c => negb (is_eol c)) mixed_file.
Proof.
  assert (H : snd (Lines mixed_file) = None) by (vm_compute; reflexivity).
  split; [exact H | exact (proj2 (Lines_bytes mixed_file H))].
Defined.

(** Lines written out with one terminator byte. *)
Lemma join_cons (t : byte) (l : list byte) (ls : list (list byte)) :
  join t (l :: ls) = l ++ t :: join t ls.
Proof. unfold join. cbn [map concat]. now rewrite <- app_assoc. Qed.

Lemma no_CRLF_pair_one_kind (b : list byte) :
  forallb (fun c => negb (Byte.eqb c CR)) b = true \/
  forallb (fun c => negb (Byte.eqb c LF)) b = true ->
  no_CRLF_pair b = true.
Proof.
  induction b as [|c rest IH]; [reflexivity|].
  cbn [forallb no_CRLF_pair]. intros H.
  destruct rest as [|c' rest']; [reflexivity|].
  apply andb_true_iff. split.
  - destruct H as [H|H]; apply andb_true_iff in H as [H1 H2].
    + apply negb_true_iff in H1. now rewrite H1.
    + cbn [forallb] in H2. apply andb_true_iff in H2 as [H2 _].
      apply negb_true_iff in H2. rewrite H2. now rewrite andb_false_r.
  - apply IH. destruct H as [H|H]; apply andb_true_iff in H as [_ H]; auto.
Qed.

Lemma join_one_kind (t : byte) (ls : list (list byte)) (p : byte -> bool) :
  p t = true -> Forall (fun l => forallb p l = true) ls ->
  forallb p (join t ls) = true.
Proof.
  intros Ht. induction 1 as [|l ls Hl _ IH]; [reflexivity|].
  rewrite join_cons, forallb_app. cbn [forallb]. now rewrite Hl, Ht, IH.
Qed.

Lemma noeol_no_CR (l : list byte) :
  noeol l = true -> forallb (fun c => negb (Byte.eqb c CR)) l = true.
Proof.
  unfold noeol. rewrite !forallb_forall. intros H x Hx.
  specialize (H x Hx). unfold is_eol in H.
  apply negb_true_iff, orb_false_iff in H as [H _]. now rewrite H.
Qed.

Lemma noeol_no_LF (l : list byte) :
  noeol l = true -> forallb (fun c => negb (Byte.eqb c LF)) l = true.
Proof.
  unfold noeol. rewrite !forallb_forall. intros H x Hx.
  specialize (H x Hx). unfold is_eol in H.
  apply negb_true_iff, orb_false_iff in H as [_ H]. now rewrite H.
Qed.

Lemma spec_split_join (t : byte) (ls : list (list byte)) :
  t = LF \/ t = CR -> Forall (fun l => noeol l = true) ls ->
  spec_split [] (join t ls) = ls.
Proof.
  intros Ht. induction 1 as [|l ls Hl Hls IH]; [reflexivity|].
  assert (Heol : is_eol t = true) by (destruct Ht; subst t; reflexivity).
  rewrite join_cons, (spec_split_found l t (join t ls) [] Hl Heol).
  cbn [rev app]. f_equal.
  replace (eol_extra t (join t ls)) with 0; [exact IH|].
  unfold eol_extra. destruct Ht as [->| ->]; [reflexivity|].
  cbn [Byte.eqb]. change (Byte.eqb CR LF) with false. cbv iota.
  destruct ls as [|l' ls']; [reflexivity|].
  rewrite join_cons. inversion Hls as [|? ? Hl' _]; subst.
  destruct l' as [|a l'']; [reflexivity|].
  cbn [app]. apply noeol_no_LF in Hl'. cbn [forallb] in Hl'.
  apply andb_true_iff in Hl' as [Ha _]. apply negb_true_iff in Ha.
  now rewrite Ha.
Qed.

Lemma fragments_join (t : byte) (ls : list (list byte)) (f : list byte) :
  is_eol t = true -> Forall (fun l => noeol l = true) ls ->
  In f (fragments [] (join t ls)) -> In f ls.
Proof.
  intros Ht. induction 1 as [|l ls Hl _ IH]; [intros []|].
  rewrite join_cons, (fragments_found l t (join t ls) [] Hl Ht).
  cbn [rev app]. intros Hin. apply in_app_or in Hin as [Hin|Hin].
  - apply In_one_line in Hin. now left.
  - right. now apply IH.
Qed.

(** X7: a round trip: lines that hold no CR and no LF and are shorter
    than 65536 bytes, written out each with a line feed behind it, or
    each with a carriage return behind it, are read back by the Line
    Splitter as they were, empty lines included, and without an
    error. *)
Theorem Lines_join (t : byte) (ls : list (list byte)) :
  t = LF \/ t = CR ->
  Forall (fun l => noeol l = true /\ len l < MaxScanTokenSize) ls ->
  Lines (join t ls) = (map string_of_list_byte ls, None).
Proof.
  intros Ht Hls.
  assert (Hno : Forall (fun l => noeol l = true) ls).
  { eapply Forall_impl; [|exact Hls]. now intros l [H _]. }
  assert (Heol : is_eol t = true) by (destruct Ht; subst t; reflexivity).
  assert (Hok : snd (Lines (join t ls)) = None).
  { destruct (snd (Lines (join t ls))) eqn:E; [|reflexivity].
    assert (Hne : snd (Lines (join t ls)) <> None) by (rewrite E; discriminate).
    apply Lines_too_long in Hne as (f & Hin & Hl).
    apply (fragments_join t ls f Heol Hno) in Hin.
    rewrite Forall_forall in Hls. destruct (Hls f Hin). lia. }
  assert (Hpairs : no_CRLF_pair (join t ls) = true).
  { apply no_CRLF_pair_one_kind. destruct Ht as [->| ->]; [left|right].
    - apply join_one_kind; [reflexivity|].
      eapply Forall_impl; [|exact Hno]. apply noeol_no_CR.
    - apply join_one_kind; [reflexivity|].
      eapply Forall_impl; [|exact Hno]. apply noeol_no_LF. }
  revert Hok. unfold Lines.
  destruct (read_lines_spec (join t ls))
    as (s & lines & -> & [[He _]|[He Hl]]); cbn [snd]; intros Hok;
    [congruence|].
  rewrite He, (Hl Hpairs). unfold spec_lines.
  now rewrite (spec_split_join t ls Ht Hno).
Qed.

Lemma Lines_join_witness :
  Lines (join CR [bs "a.com, 1, DIRECT"; []; bs "contact=x"]) =
  (["a.com, 1, DIRECT"; ""; "contact=x"]%string, None).
Proof.
  apply (Lines_join CR [bs "a.com, 1, DIRECT"; []; bs "contact=x"]).
  - now right.
  - repeat constructor; vm_compute; reflexivity.
Defined.

(** ** The lines of an input a CR LF pair of which is cut by a read *)

Lemma noeol_last (w : list byte) :
  noeol w = true -> Byte.eqb (last w x00) CR = false.
Proof.
  unfold noeol. induction w as [|a w IH]; [reflexivity|].
  cbn [forallb]. intros H. apply andb_true_iff in H as [Ha Hw].
  destruct w as [|a' w]; [|exact (IH Hw)].
  cbn [last]. apply negb_true_iff in Ha. unfold is_eol in Ha.
  now apply orb_false_iff in Ha as [Ha _].
Qed.

Lemma noeol_cut (s : Scanner) : noeol (window s) = true -> cut_pair s = false.
Proof.
  intros H. unfold cut_pair. rewrite (noeol_last _ H).
  destruct (window s); destruct (r s); reflexivity.
Qed.

Lemma turn_states_cut (k : nat) (s : Scanner) :
  cut_pair s = true -> existsb cut_pair (turn_states (S k) s) = true.
Proof. intros H. rewrite turn_states_S. cbn [existsb]. now rewrite H. Qed.

(** The turn of a scanner whose window ends with the CR of a cut pair:
    either the CR is the terminator of the line the turn yields, and the
    LF is left to be read as a line end of its own, or the window still
    ends with that CR after the turn. *)
Lemma cut_pair_line (s s' : Scanner) (pre : list byte) (c : byte) (post : list byte) :
  window s = pre ++ c :: post -> is_eol c = true -> cut_pair s = true ->
  r s' = r s -> window s' = skipn (Z.to_nat (eol_extra c post)) post ->
  (post = [] /\ eol_extra c (r s) = 1 /\ exists r0, r s = LF :: r0) \/
  (eol_extra c (post ++ r s) = eol_extra c post /\ cut_pair s' = true).
Proof.
  intros Hw Hc Hcut Hr' Hw'. unfold cut_pair in Hcut.
  rewrite Hw, last_app_cons in Hcut.
  destruct (pre ++ c :: post) eqn:E; [now destruct pre|]. clear E.
  destruct (r s) as [|x r0] eqn:Er; [discriminate|].
  apply andb_true_iff in Hcut as [Hlast Hx]. apply byte_eqb_eq in Hx. subst x.
  destruct post as [|p post'].
  - left. cbn [last] in Hlast. unfold eol_extra.
    apply byte_eqb_eq in Hlast. subst c. split; [reflexivity|].
    split; [reflexivity | now exists r0].
  - right. split; [reflexivity|].
    change (last (c :: p :: post') x00) with (last (p :: post') x00) in Hlast.
    unfold cut_pair. rewrite Hr', Hw'.
    assert (Hkeep : forall q, q = p :: post' \/ (q = post' /\ Byte.eqb p LF = true) ->
              match q with
              | [] => false
              | _ :: _ => Byte.eqb (last q x00) CR && Byte.eqb LF LF
              end = true).
    { intros q [->|[-> Hp]].
      - now rewrite Hlast.
      - destruct post' as [|p' post''].
        + cbn [last] in Hlast. apply byte_eqb_eq in Hlast. subst p.
          discriminate Hp.
        + change (last (p :: p' :: post'') x00) with (last (p' :: post'') x00) in Hlast.
          now rewrite Hlast. }
    apply Hkeep. unfold eol_extra.
    destruct (Byte.eqb c LF); [now left|].
    destruct (Byte.eqb p LF) eqn:Ep; [right|left]; auto.
Qed.

(** The loop of [ParseBody] from any state of the scanner: when it ends
    without an error it has appended at least as many lines as the
    specification has for the bytes ahead, and more when a read on the
    way has cut a CR LF pair. *)
Lemma scan_lines_count (m : nat) :
  forall s fuel acc s'' lines k,
    (measure s < m)%nat -> Inv s ->
    scan_lines fuel s acc = Some (s'', lines) -> Scanner_Err s'' = None ->
    (length acc + length (spec_split [] (window s ++ r s))
     + (if existsb cut_pair (turn_states k s) then 1 else 0) <= length lines)%nat.
Proof.
  induction m as [|m IH]; intros s fuel acc s'' lines k Hm HI Hrun Herr; [lia|].
  destruct fuel as [|fuel]; [discriminate|].
  cbn [scan_lines] in Hrun. rewrite (Scan_unfold s HI) in Hrun.
  pose proof (Scan_iter_spec s HI) as Hspec.
  destruct (Scan_iter s) as [s' o] eqn:E.
  assert (Hk : exists k',
             existsb cut_pair (turn_states k s) = true ->
             cut_pair s = true \/
             (o <> Some false /\ existsb cut_pair (turn_states k' s') = true)).
  { destruct k as [|k]; [exists 0%nat; discriminate|]. exists k.
    rewrite turn_states_S, E. cbn [existsb]. intros H.
    apply orb_true_iff in H as [H|H]; [now left | right].
    destruct o as [[|]|]; [split; [discriminate | exact H] | discriminate
                          | split; [discriminate | exact H]]. }
  destruct Hk as (k' & Hk).
  inversion Hspec as
    [pre c post s0 Hw Hp Hc HI' Hr' He' Ht' Hw'
    |s0 He Hne Hp HI' Hr' He' Ht' Hw'
    |s0 He Hp HI' Hcat Hprog
    |s0 He Hw He'
    |s0 He Hp Hlong He']; subst.
  - (* a terminated line *)
    pose proof (eol_extra_range c post) as Hx.
    assert (Hlen : (length (window s') < length (window s))%nat).
    { rewrite Hw', Hw, length_skipn, length_app. simpl length. lia. }
    assert (Hm' : (measure s' < m)%nat).
    { unfold measure in *. rewrite Hr', He'. lia. }
    assert (Hnext : forall j,
               (length acc + 1 + length (spec_split [] (window s' ++ r s'))
                + (if existsb cut_pair (turn_states j s') then 1 else 0)
                <= length lines)%nat).
    { intros j. pose proof (IH s' fuel (acc ++ [Text s']) s'' lines j
                              Hm' HI' Hrun Herr) as H.
      rewrite length_app in H. exact H. }
    assert (Hsplit : spec_split [] (window s ++ r s) =
                     pre :: spec_split []
                              (skipn (Z.to_nat (eol_extra c (post ++ r s)))
                                 (post ++ r s))).
    { rewrite Hw, <- app_assoc. cbn [app].
      now rewrite (spec_split_found pre c (post ++ r s) [] Hp Hc). }
    rewrite Hsplit. cbn [length].
    assert (Hsame : eol_extra c (post ++ r s) = eol_extra c post ->
                    skipn (Z.to_nat (eol_extra c (post ++ r s))) (post ++ r s)
                    = window s' ++ r s').
    { intros ->. rewrite Hr', Hw', skipn_app.
      replace (Z.to_nat (eol_extra c post) - length post)%nat with 0%nat
        by (unfold len in Hx; lia).
      reflexivity. }
    destruct (cut_pair s) eqn:Hcut.
    + destruct (cut_pair_line s s' pre c post Hw Hc Hcut Hr' Hw')
        as [(-> & Hex & r0 & Hr0)|[Hex Hcut']].
      * (* the CR of the cut pair ends the line *)
        specialize (Hnext 0%nat). cbn [turn_states existsb] in Hnext.
        cbn [app] in *. rewrite Hex.
        assert (Hw0 : window s' = []) by (rewrite Hw'; apply skipn_nil).
        rewrite Hw0, Hr', Hr0 in Hnext. cbn [app spec_split] in Hnext.
        rewrite (proj2 (byte_eqb_eq LF LF) eq_refl) in Hnext.
        cbn [length rev] in Hnext. rewrite Hr0.
        change (Z.to_nat 1) with 1%nat. cbn [skipn].
        destruct (existsb cut_pair (turn_states k s)); lia.
      * rewrite (Hsame Hex). specialize (Hnext 1%nat).
        rewrite (turn_states_cut 0 s' Hcut') in Hnext.
        destruct (existsb cut_pair (turn_states k s)); lia.
    + rewrite (Hsame (eol_extra_whole s pre c post Hw Hc Hcut)).
      destruct (existsb cut_pair (turn_states k s)) eqn:Ek.
      * destruct (Hk eq_refl) as [H|[_ H]]; [discriminate|].
        specialize (Hnext k'). rewrite H in Hnext. lia.
      * specialize (Hnext 0%nat). cbn [turn_states existsb] in Hnext. lia.
  - (* the last, unterminated line *)
    destruct (inv_err s HI) as [He0|[_ Hr]]; [congruence|].
    assert (Hlen : (0 < length (window s))%nat).
    { destruct (window s); [congruence | simpl; lia]. }
    assert (Hm' : (measure s' < m)%nat).
    { unfold measure in *. rewrite Hr', He', Hw'. simpl length. lia. }
    assert (Hnext : forall j,
               (length acc + 1 + length (spec_split [] (window s' ++ r s'))
                + (if existsb cut_pair (turn_states j s') then 1 else 0)
                <= length lines)%nat).
    { intros j. pose proof (IH s' fuel (acc ++ [Text s']) s'' lines j
                              Hm' HI' Hrun Herr) as H.
      rewrite length_app in H. exact H. }
    rewrite Hr, app_nil_r, (spec_split_none _ [] Hp). cbn [rev app].
    assert (Hone : length (one_line (window s)) = 1%nat)
      by (destruct (window s); [congruence | reflexivity]).
    rewrite Hone.
    destruct (existsb cut_pair (turn_states k s)) eqn:Ek.
    + destruct (Hk eq_refl) as [H|[_ H]].
      * rewrite (noeol_cut s Hp) in H. discriminate.
      * specialize (Hnext k'). rewrite H in Hnext. lia.
    + specialize (Hnext 0%nat). cbn [turn_states existsb] in Hnext. lia.
  - (* more data read, or the end of the input recorded *)
    change (scan_lines (S fuel) s' acc = Some (s'', lines)) in Hrun.
    assert (Hm' : (measure s' < m)%nat).
    { unfold measure in *. rewrite He in Hm. cbn [is_nil] in Hm.
      assert (Hlens : (length (window s') + length (r s')
                       = length (window s) + length (r s))%nat)
        by (rewrite <- !length_app; now rewrite Hcat).
      destruct Hprog as [[Hlt ->]|(Hr0 & Hr1 & ->)]; cbn [is_nil]; [lia|].
      rewrite Hr0, Hr1 in *. lia. }
    pose proof (fun j => IH s' (S fuel) acc s'' lines j Hm' HI' Hrun Herr) as Hnext.
    rewrite Hcat in Hnext.
    destruct (existsb cut_pair (turn_states k s)) eqn:Ek.
    + destruct (Hk eq_refl) as [H|[_ H]].
      * rewrite (noeol_cut s Hp) in H. discriminate.
      * specialize (Hnext k'). rewrite H in Hnext. lia.
    + specialize (Hnext 0%nat). cbn [turn_states existsb] in Hnext. lia.
  - (* nothing left *)
    destruct (inv_err s HI) as [He0|[_ Hr]]; [congruence|].
    injection Hrun as _ <-. rewrite Hw, Hr. cbn [app spec_split length].
    destruct (existsb cut_pair (turn_states k s)) eqn:Ek; [|lia].
    destruct (Hk eq_refl) as [H|[H _]]; [|congruence].
    unfold cut_pair in H. rewrite Hw in H. discriminate.
  - (* the buffer is full and cannot grow *)
    injection Hrun as <- _. unfold Scanner_Err in Herr. rewrite He' in Herr.
    discriminate Herr.
Qed.

(** X16: for every input that is scanned without an error, [ParseBody]
    collects at least as many lines as the splitting on [\r?\n|\r]
    gives, and more when a read of the scanner ends between the two
    bytes of a CR LF pair: it collects the lines of that splitting
    exactly when no read does. *)
Theorem Lines_cut_pair (b : list byte) :
  snd (Lines b) = None ->
  (length (spec_lines b) <= length (fst (Lines b)))%nat /\
  (cuts_a_pair b = true ->
   (length (spec_lines b) < length (fst (Lines b)))%nat) /\
  (Lines b = (spec_lines b, None) <-> cuts_a_pair b = false).
Proof.
  unfold Lines.
  destruct (read_lines_spec b) as (s & lines & Hrun & _). rewrite Hrun.
  cbn [fst snd]. intros Herr. unfold read_lines in Hrun.
  assert (Hm : (measure (NewScanner b) < 3 * length b + 2)%nat) by (cbn; lia).
  pose proof (fun k => scan_lines_count _ _ _ _ _ _ k Hm (Inv_NewScanner b)
                         Hrun Herr) as Hcount.
  cbn [NewScanner window r app length Nat.add] in Hcount.
  unfold spec_lines. rewrite length_map.
  assert (Hlt : cuts_a_pair b = true ->
                (length (spec_split [] b) < length lines)%nat).
  { intros Hcut. specialize (Hcount (3 * length b + 2)%nat).
    unfold cuts_a_pair in Hcut.
    cbn [NewScanner] in Hcut. rewrite Hcut in Hcount. lia. }
  split; [|split; [exact Hlt|split]].
  - specialize (Hcount 0%nat). cbn [turn_states existsb] in Hcount. lia.
  - intros Heq. destruct (cuts_a_pair b) eqn:Hcut; [|reflexivity].
    specialize (Hlt eq_refl). injection Heq as ->.
    rewrite length_map in Hlt. lia.
  - intros Hcut. rewrite Herr. f_equal.
    apply (scan_lines_whole (3 * length b + 2)) in Hrun; auto.
    apply Inv_NewScanner.
Qed.

Lemma Lines_cut_pair_witness :
  snd (Lines crlf_across_buffers) = None /\
  cuts_a_pair crlf_across_buffers = true /\
  (length (spec_lines crlf_across_buffers)
   < length (fst (Lines crlf_across_buffers)))%nat.
Proof.
  assert (He : snd (Lines crlf_across_buffers) = None) by (vm_compute; reflexivity).
  assert (Hc : cuts_a_pair crlf_across_buffers = true) by (vm_compute; reflexivity).
  split; [exact He|]. split; [exact Hc|].
  exact (proj1 (proj2 (Lines_cut_pair crlf_across_buffers He)) Hc).
Defined.

(** ** [Get] *)

(** A line of [MaxScanTokenSize] bytes or more makes [ParseBody] fail. *)
Lemma ParseBody_long_line (Records : Type)
    (parseRecords : list string -> Records) (b : list byte) :
  (exists f, In f (fragments [] b) /\ MaxScanTokenSize <= len f) ->
  ParseBody Records parseRecords b = (None, Some ErrTooLong).
Proof.
  intros Hf. apply Lines_too_long in Hf.
  unfold ParseBody. destruct (Lines_error b) as [H|[H _]];
    destruct (Lines b) as [lines e]; cbn [snd] in *; subst e;
    [now contradiction Hf | reflexivity].
Qed.

Section GetFurther.

Context {W Recs : Type}.
Variable c : Crawler W.
Variable env : Env W Recs.

(** When [sendRequest] fails, [Get] returns at once no response and
  the error of [sendRequest]: the response is neither classified,
  whatever its status, nor closed later, and the fetch is the last
  one. *)
Lemma Get_send_error (req : loc) (st : LoopState W)
  (m1 : Mem W) (res : HTTPResponse) (e : error) :
sendRequest c req (mem st) = (m1, (res, Some e)) ->
forall n,
  Get_loop c env (S n) req st =
  ({| mem := m1; deferred := deferred st;
      fetched := fetched st ++ [URL (store (mem st) req)] |},
   Some (None, Some e)).
Proof.
intros Hs n. rewrite Get_loop_S. unfold iteration. now rewrite Hs.
Qed.

(** X8: a response with status 200 does not make a crawl succeed by
  itself: when [readBody] fails, [Get] returns no response and the
  error of [readBody]; when the body is read and has a line of 65536
  bytes or more, [Get] returns no response and the scanner's
  token-too-long error.  In both cases [parseExpires] is not called,
  and the response is closed when [Get] returns. *)
Theorem Get_body_error (req : loc) (st : LoopState W)
  (m1 m2 : Mem W) (res : HTTPResponse) (body : list byte)
  (eb : option error) :
sendRequest c req (mem st) = (m1, (res, None)) ->
StatusCode res = 200 ->
readBody c req res m1 = (m2, (body, eb)) ->
eb <> None \/
(exists f, In f (fragments [] body) /\ MaxScanTokenSize <= len f) ->
forall n,
  Get_loop c env (S n) req st =
  ({| mem := m2; deferred := res :: deferred st;
      fetched := fetched st ++ [URL (store (mem st) req)] |},
   Some (None, match eb with
               | Some e => Some e
               | None => Some ErrTooLong
               end)).
Proof.
intros Hs H2 Hb Herr n. rewrite Get_loop_S.
unfold iteration. rewrite Hs. cbn [mem deferred fetched].
rewrite H2.
cbn [Z.leb Z.ltb Z.compare Pos.compare Pos.compare_cont andb Z.eqb Pos.eqb].
rewrite Hb. destruct eb as [e|]; [reflexivity|].
destruct Herr as [H|Hf]; [now contradiction H|].
now rewrite (ParseBody_long_line Recs (parseRecords env) body Hf).
Qed.

(** The URLs fetched by the loop from a state on, and the URL the
  request is left with when the loop returns. *)
Lemma Get_loop_fetched (fuel : nat) (req : loc) :
keeps_store c ->
forall st st' out,
  Get_loop c env fuel req st = (st', Some out) ->
  exists more,
    fetched st' = fetched st ++ URL (store (mem st) req) :: more /\
    URL (store (mem st') req) =
    last (URL (store (mem st) req) :: more) EmptyString.
Proof.
intros Hk. induction fuel as [|n IH]; intros st st' out; [discriminate|].
rewrite Get_loop_S.
pose proof (iteration_fetched c env req st) as Hf.
destruct (iteration c env req st) as [st1 [o|]] eqn:E; cbn [fst] in Hf.
- intros [= <- <-]. exists []. split; [exact Hf|].
  now rewrite (iteration_return_store c env req st st1 o Hk E).
- intros Hrun. destruct (IH st1 st' out Hrun) as (more & Hf' & Hu).
  exists (URL (store (mem st1) req) :: more). split.
  + now rewrite Hf', Hf, <- app_assoc.
  + exact Hu.
Qed.

(** X9: when the methods of the crawler write nothing to the store of
  requests and [Get] returns, the first URL it fetched is the URL the
  request had, and the URL the request is left with is the last one
  it fetched: after a success, the request of the response holds the
  place the file was read from. *)
Theorem Get_final_URL (fuel : nat) (req : loc) (m : Mem W)
  (st : LoopState W) (out : Outcome Recs) :
keeps_store c ->
Get c env fuel req m = (st, Some out) ->
hd_error (fetched st) = Some (URL (store m req)) /\
URL (store (mem st) req) = last (fetched st) EmptyString.
Proof.
intros Hk. unfold Get.
destruct (Get_loop c env fuel req {| mem := m; deferred := []; fetched := [] |})
  as [st1 [o|]] eqn:E; [|discriminate].
intros [= <- <-].
destruct (Get_loop_fetched fuel req Hk _ _ _ E) as (more & Hf & Hu).
cbn [mem fetched app] in Hf, Hu. cbn [run_deferred fetched mem store].
rewrite Hf. split; [reflexivity | exact Hu].
Qed.

(** X10: [Get] closes no response before it returns: while it follows
  redirects, every response received so far is waiting to be closed,
  one more with every turn of the loop. *)
Theorem Get_open_bodies (fuel : nat) (req : loc) (m : Mem W)
  (st : LoopState W) :
Get c env fuel req m = (st, None) ->
length (deferred st) = fuel /\ length (fetched st) = fuel.
Proof.
unfold Get.
assert (Hloop : forall st0 st1,
           Get_loop c env fuel req st0 = (st1, None) ->
           length (deferred st1) = (length (deferred st0) + fuel)%nat /\
           length (fetched st1) = (length (fetched st0) + fuel)%nat).
{ induction fuel as [|n IH]; intros st0 st1.
  - intros [= <-]. lia.
  - rewrite Get_loop_S.
    pose proof (iteration_fetched c env req st0) as Hf.
    assert (Hd : snd (iteration c env req st0) = None ->
                 length (deferred (fst (iteration c env req st0))) =
                 S (length (deferred st0))).
    { unfold iteration.
      destruct (sendRequest c req (mem st0)) as [m1 [res [e|]]];
        [discriminate|].
      cbn [mem deferred fetched].
      destruct ((300 <=? StatusCode res) && (StatusCode res <? 400)).
      { destruct (handleRedirect c req res m1) as [m2 [redirect [e|]]];
          [discriminate | reflexivity]. }
      destruct ((400 <=? StatusCode res) && (StatusCode res <? 500));
        [discriminate|].
      destruct (StatusCode res =? 200); [|discriminate].
      destruct (readBody c req res m1) as [m2 [body [e|]]]; [discriminate|].
      destruct (ParseBody Recs (parseRecords env) body) as [records [e|]];
        [discriminate|].
      destruct (parseExpires c res m2) as [m3 [expires e]]. discriminate. }
    destruct (iteration c env req st0) as [st' [o|]]; [discriminate|].
    cbn [fst snd] in *. intros Hrun.
    destruct (IH st' st1 Hrun) as [H1 H2].
    rewrite H1, H2, Hf, (Hd eq_refl), length_app. simpl. lia. }
destruct (Get_loop c env fuel req {| mem := m; deferred := []; fetched := [] |})
  as [st1 [o|]] eqn:E; [discriminate|].
intros [= <-]. destruct (Hloop _ _ E) as [H1 H2]. cbn in H1, H2.
split; assumption.
Qed.

Lemma Get_loop_more (fuel more : nat) (req : loc) :
forall st st' out,
  Get_loop c env fuel req st = (st', Some out) ->
  Get_loop c env (fuel + more) req st = (st', Some out).
Proof.
induction fuel as [|n IH]; intros st st' out; [discriminate|].
cbn [Nat.add]. rewrite !Get_loop_S.
destruct (iteration c env req st) as [st1 [o|]]; [auto|]. apply IH.
Qed.

(** [Get] returns once: when it has returned within [fuel] turns
  of its loop, nothing is different with any number of turns more: the
  same response or error, the same fetches and no other, the same
  memory. *)
Lemma Get_returns_once (fuel more : nat) (req : loc) (m : Mem W)
  (st : LoopState W) (out : Outcome Recs) :
Get c env fuel req m = (st, Some out) ->
Get c env (fuel + more) req m = (st, Some out).
Proof.
unfold Get.
destruct (Get_loop c env fuel req {| mem := m; deferred := []; fetched := [] |})
  as [st1 [o|]] eqn:E; [|discriminate].
intros [= <- <-]. now rewrite (Get_loop_more fuel more req _ _ _ E).
Qed.

End GetFurther.

Local Open Scope string_scope.

Lemma Get_body_error_witness :
  Get_loop Web.crawler Web.env 3 Web.req
    (Web.start "https://long.example/ads.txt") =
  ({| mem := Web.memory "example.com" "https://long.example/ads.txt" 1000000000;
      deferred := [Web.answer "https://long.example/ads.txt"];
      fetched := ["https://long.example/ads.txt"] |},
   Some (None, Some ErrTooLong)).
Proof.
  assert (Hn : noeol long_line = true) by (vm_compute; reflexivity).
  assert (Hf : exists f, In f (fragments [] long_line) /\ MaxScanTokenSize <= len f).
  { exists long_line. split.
    - rewrite (fragments_none long_line [] Hn). now left.
    - vm_compute. discriminate. }
  exact (Get_body_error Web.crawler Web.env Web.req
           (Web.start "https://long.example/ads.txt")
           (Web.memory "example.com" "https://long.example/ads.txt" 1000000000)
           (Web.memory "example.com" "https://long.example/ads.txt" 1000000000)
           (Web.answer "https://long.example/ads.txt") long_line None
           eq_refl eq_refl eq_refl (or_intror Hf) 2%nat).
Defined.

Lemma Web_crawler_keeps_store : keeps_store Web.crawler.
Proof.
  repeat split; intros; cbn.
  - destruct (String.eqb _ _); reflexivity.
  - destruct (Web.lookup _ _); reflexivity.
  - destruct (Web.lookup _ _) as [v|]; [destruct (String.eqb v _)|]; reflexivity.
Qed.

Lemma Get_final_URL_witness :
  exists st out,
    Get Web.crawler Web.env 5 Web.req
      (Web.memory "example.com" "http://example.com/ads.txt" 0) = (st, Some out) /\
    hd_error (fetched st) = Some "http://example.com/ads.txt" /\
    URL (store (mem st) Web.req) = last (fetched st) "".
Proof.
  destruct (Get Web.crawler Web.env 5 Web.req
              (Web.memory "example.com" "http://example.com/ads.txt" 0))
    as [st [out|]] eqn:E.
  - exists st, out. split; [reflexivity|].
    exact (Get_final_URL Web.crawler Web.env 5 Web.req _ st out
             Web_crawler_keeps_store E).
  - exfalso. vm_compute in E. discriminate E.
Defined.

Lemma Get_open_bodies_witness :
  exists st,
    Get Web.looping Web.env 7 Web.req
      (Web.memory "loop.example" "http://loop.example/ads.txt" 0) = (st, None) /\
    length (deferred st) = 7%nat.
Proof.
  destruct (Get Web.looping Web.env 7 Web.req
              (Web.memory "loop.example" "http://loop.example/ads.txt" 0))
    as [st [out|]] eqn:E.
  - exfalso. vm_compute in E. discriminate E.
  - exists st. split; [reflexivity|].
    exact (proj1 (Get_open_bodies Web.looping Web.env 7 Web.req _ st E)).
Defined.

Local Close Scope string_scope.

(** ** [GetMultiple] *)

Lemma set_nth_overflow {A : Type} (i : nat) (x : A) (l : list A) :
  (length l <= i)%nat -> set_nth i x l = l.
Proof.
  revert i. induction l as [|a l IH]; intros [|i] H; cbn in *; auto; try lia.
  rewrite IH by lia. reflexivity.
Qed.

Lemma nth_set_nth_cases {A : Type} (i j : nat) (x d : A) (l : list A) :
  nth j (set_nth i x l) d = nth j l d \/
  (i = j /\ nth j (set_nth i x l) d = x).
Proof.
  destruct (Nat.eq_dec i j) as [->|Hne].
  - destruct (Nat.lt_ge_cases j (length l)) as [Hlt|Hge].
    + right. split; [reflexivity | now apply nth_set_nth_eq].
    + left. now rewrite set_nth_overflow.
  - left. now apply nth_set_nth_neq.
Qed.

Lemma sum_indicator (i k : nat) :
  list_sum (map (fun j => b2n (Nat.eqb i j)) (seq 0 k)) = b2n (i <? k)%nat.
Proof.
  induction k as [|k IH]; [reflexivity|].
  rewrite seq_S, map_app, list_sum_app, IH. cbn [map list_sum Nat.add].
  destruct (Nat.ltb_spec i k), (Nat.ltb_spec i (S k)), (Nat.eqb_spec i k);
    cbn; lia.
Qed.

Section BatchFurther.

Variable Out : Type.
Variable n : nat.
Variable NumCPU : nat.
Variable crawl : nat -> option Out.

Local Abbreviation Reach sched := (run n NumCPU crawl sched (init n)).

Lemma reach_inv (sched : list thread) : BInv n NumCPU crawl (Reach sched).
Proof. apply run_inv, BInv_init. Qed.

(** X11: in every state of a call of [GetMultiple], whatever the
  interleaving: [guard] holds one element for each goroutine that is
  between its start and its [<-guard], that is in [Get] or in
  [h.Handle] or about to call or leave it, and one for the goroutine
  the caller is about to start, so that at most [runtime.NumCPU()*5]
  goroutines are at work; and the counter of the wait group is the
  number of requests whose goroutine has not finished, and is never
  negative. *)
Theorem GetMultiple_accounting (sched : list thread) :
let s := run n NumCPU crawl sched (init n) in
guard s = (count holds (workers s) + b2n (at_go (main s)))%nat /\
(count holds (workers s) <= NumCPU * 5)%nat /\
wg s = Z.of_nat n - Z.of_nat (count exited (workers s)) /\
0 <= wg s.
Proof.
cbv zeta. pose proof (reach_inv sched) as HI.
pose proof (b_guard HI) as Hg. pose proof (b_cap HI) as Hc.
pose proof (b_wg HI) as Hw.
pose proof (filter_length_le exited (workers (Reach sched))) as Hle.
rewrite (b_len HI) in Hle. unfold capacity, count in *.
repeat split; auto; lia.
Qed.

(** X12: the goroutines are started in the order of the list: in every
  state, when the goroutine of a request has been started, so have
  those of all the requests before it. *)
Theorem GetMultiple_in_order (sched : list thread) (i j : nat) :
(i <= j)%nat -> (j < n)%nat ->
started (nth j (workers (run n NumCPU crawl sched (init n))) WNone) = true ->
started (nth i (workers (run n NumCPU crawl sched (init n))) WNone) = true.
Proof.
intros Hij Hj. pose proof (reach_inv sched) as HI.
rewrite (b_started HI j Hj), (b_started HI i) by lia.
intros H. apply Nat.ltb_lt in H. apply Nat.ltb_lt. lia.
Qed.

(** The goroutine of a request whose [Get] never returns stays in
  [Get]. *)
Lemma step_stuck (j : nat) (t : thread) (s s' : Batch Out) :
crawl j = None ->
nth j (workers s) WNone = WNone \/ nth j (workers s) WNone = WGet ->
step n NumCPU crawl t s = Some s' ->
nth j (workers s') WNone = WNone \/ nth j (workers s') WNone = WGet.
Proof.
intros Hc Hst. unfold step. destruct (panicked s); [discriminate|].
assert (Hmove : forall i w,
           (i = j -> w = WGet) ->
           nth j (set_nth i w (workers s)) WNone = WNone \/
           nth j (set_nth i w (workers s)) WNone = WGet).
{ intros i w Hw.
  destruct (nth_set_nth_cases i j w WNone (workers s)) as [->|[E ->]];
    [exact Hst | right; now apply Hw]. }
destruct t as [|i].
- unfold step_main. destruct (main s) as [i|i| |].
  + destruct (i <? n)%nat; [destruct (guard s <? capacity NumCPU)%nat|];
      try discriminate; intros [= <-]; exact Hst.
  + intros [= <-]. cbn [set_main set_worker workers]. now apply Hmove.
  + destruct (wg s =? 0); [|discriminate]. intros [= <-]. exact Hst.
  + discriminate.
- unfold step_worker.
  assert (Hne : nth i (workers s) WNone <> WNone ->
                nth i (workers s) WNone <> WGet -> i <> j).
  { intros H1 H2 ->. destruct Hst; contradiction. }
  destruct (nth i (workers s) WNone) as [| |out| | | |] eqn:Hw;
    try discriminate.
  + destruct (crawl i) as [out|] eqn:Hci; [|discriminate].
    intros [= <-]. cbn [set_worker workers]. apply Hmove.
    intros ->. congruence.
  + intros [= <-]. cbn [workers]. apply Hmove. intros E.
    exfalso. apply Hne; [discriminate | discriminate | exact E].
  + intros [= <-]. cbn [set_worker workers]. apply Hmove. intros E.
    exfalso. apply Hne; [discriminate | discriminate | exact E].
  + destruct (guard s); [discriminate|]. intros [= <-].
    cbn [set_worker set_guard workers]. apply Hmove. intros E.
    exfalso. apply Hne; [discriminate | discriminate | exact E].
  + intros [= <-]. cbn [workers]. apply Hmove. intros E.
    exfalso. apply Hne; [discriminate | discriminate | exact E].
Qed.

Lemma run_stuck (j : nat) (sched : list thread) :
crawl j = None ->
forall s,
  nth j (workers s) WNone = WNone \/ nth j (workers s) WNone = WGet ->
  nth j (workers (run n NumCPU crawl sched s)) WNone = WNone \/
  nth j (workers (run n NumCPU crawl sched s)) WNone = WGet.
Proof.
intros Hc. induction sched as [|t sched IH]; intros s Hst; cbn [run]; auto.
destruct (step n NumCPU crawl t s) as [s'|] eqn:E; auto.
apply IH. exact (step_stuck j t s s' Hc Hst E).
Qed.

(** X13: one request whose [Get] never returns keeps [GetMultiple] from
  returning: in no state of the call, whatever the interleaving, has
  [GetMultiple] returned, and [h.Handle] is never called for that
  request. *)
Theorem GetMultiple_hangs (j : nat) (sched : list thread) :
(j < n)%nat -> crawl j = None ->
main (run n NumCPU crawl sched (init n)) <> MReturned /\
times j (calls (run n NumCPU crawl sched (init n))) = 0%nat.
Proof.
intros Hj Hc. pose proof (reach_inv sched) as HI.
assert (Hst : nth j (workers (Reach sched)) WNone = WNone \/
              nth j (workers (Reach sched)) WNone = WGet).
{ apply run_stuck; [exact Hc|]. left. cbn [init workers].
  apply nth_repeat. }
split.
- intros Hret. pose proof (b_ret HI Hret) as Hz. pose proof (b_wg HI) as Hw.
  pose proof (filter_length_le exited (workers (Reach sched))) as Hle.
  assert (He : exited (nth j (workers (Reach sched)) WNone) = true).
  { apply filter_all; rewrite ?(b_len HI) in *; unfold count in *; lia. }
  destruct Hst as [E|E]; rewrite E in He; discriminate.
- rewrite (b_calls HI). destruct Hst as [E|E]; rewrite E; reflexivity.
Qed.

Lemma calls_in_range (sched : list thread) (j : nat) (out : Out) :
In (j, out) (calls (Reach sched)) -> (j < n)%nat.
Proof.
intros Hin. pose proof (reach_inv sched) as HI.
apply In_times in Hin. rewrite (b_calls HI) in Hin.
apply (worker_index Out n NumCPU crawl _ j HI).
intros E. rewrite E in Hin. cbn in Hin. lia.
Qed.

Lemma length_calls (cs : list (nat * Out)) :
(forall j out, In (j, out) cs -> (j < n)%nat) ->
length cs = list_sum (map (fun j => times j cs) (seq 0 n)).
Proof.
induction cs as [|[i o] cs IH]; intros Hr.
- unfold times. cbn [filter length].
  induction (seq 0 n) as [|a l IHl]; [reflexivity | exact IHl].
- assert (Hi : (i < n)%nat) by (apply (Hr i o); now left).
  assert (Hsum : forall l,
             list_sum (map (fun j => times j ((i, o) :: cs)) l) =
             (list_sum (map (fun j => b2n (Nat.eqb i j)) l)
              + list_sum (map (fun j => times j cs) l))%nat).
  { unfold list_sum. induction l as [|a l IHl]; [reflexivity|].
    cbn [map fold_right]. rewrite IHl. unfold times at 1.
    cbn [filter fst]. destruct (Nat.eqb i a); cbn [length b2n];
      fold (times a cs); lia. }
  rewrite Hsum, sum_indicator, <- IH.
  + replace (i <? n)%nat with true by (symmetry; now apply Nat.ltb_lt).
    reflexivity.
  + intros j out Hin. apply (Hr j out). now right.
Qed.

(** X14: when [GetMultiple] has returned, [h.Handle] has been called as
  many times as there are requests in the list; with an empty list
  that is never. *)
Theorem GetMultiple_calls (sched : list thread) :
main (run n NumCPU crawl sched (init n)) = MReturned ->
length (calls (run n NumCPU crawl sched (init n))) = n.
Proof.
intros Hret. pose proof (reach_inv sched) as HI.
rewrite (length_calls _ (calls_in_range sched)).
pose proof (b_ret HI Hret) as Hz. pose proof (b_wg HI) as Hw.
pose proof (filter_length_le exited (workers (Reach sched))) as Hle.
assert (Hall : forall j, (j < n)%nat -> times j (calls (Reach sched)) = 1%nat).
{ intros j Hj. rewrite (b_calls HI).
  assert (He : exited (nth j (workers (Reach sched)) WNone) = true).
  { apply filter_all; rewrite ?(b_len HI) in *; unfold count in *; lia. }
  destruct (nth j (workers (Reach sched)) WNone); try discriminate.
  reflexivity. }
assert (Hsum : forall k, (k <= n)%nat ->
           list_sum (map (fun j => times j (calls (Reach sched))) (seq 0 k)) = k).
{ induction k as [|k IHk]; intros Hk; [reflexivity|].
  rewrite seq_S, map_app, list_sum_app, IHk by lia.
  cbn [map Nat.add]. rewrite Hall by lia. cbn. lia. }
now apply Hsum.
Qed.

(** X15: with an empty list of requests [GetMultiple] starts no
  goroutine and calls [h.Handle] never, in any state, and the caller's
  goroutine alone runs it to its return. *)
Theorem GetMultiple_empty (sched : list thread) :
n = 0%nat ->
calls (run n NumCPU crawl sched (init n)) = [] /\
workers (run n NumCPU crawl sched (init n)) = [] /\
main (run n NumCPU crawl [Main; Main] (init n)) = MReturned.
Proof.
intros Hn. pose proof (reach_inv sched) as HI. repeat split.
- destruct (calls (Reach sched)) as [|[j out] cs] eqn:E; [reflexivity|].
  assert (Hj : (j < n)%nat).
  { apply (calls_in_range sched j out). rewrite E. now left. }
  lia.
- apply length_zero_iff_nil. rewrite (b_len HI). exact Hn.
- subst n. reflexivity.
Qed.

End BatchFurther.

Lemma GetMultiple_in_order_witness :
  started (nth 0 (workers (run 3 2 (fun i => Some i) [Main; Main; Main; Main]
                             (init 3))) WNone) = true.
Proof.
  apply (GetMultiple_in_order nat 3 2 (fun i => Some i)
           [Main; Main; Main; Main] 0 1); [lia | lia | reflexivity].
Defined.

Lemma GetMultiple_hangs_witness :
  main (run 3 2 (fun i => if Nat.eqb i 1 then None else Some i) schedule3
          (init 3)) <> MReturned.
Proof.
  apply (GetMultiple_hangs nat 3 2 (fun i => if Nat.eqb i 1 then None else Some i)
           1 schedule3); [lia | reflexivity].
Defined.

Lemma GetMultiple_calls_witness :
  length (calls (run 3 2 (fun i => Some i) schedule3 (init 3))) = 3%nat.
Proof.
  apply (GetMultiple_calls nat 3 2 (fun i => Some i) schedule3). reflexivity.
Defined.

Lemma GetMultiple_empty_witness :
  calls (run 0 2 (fun i => Some i) schedule3 (init 0)) = [].
Proof.
  apply (GetMultiple_empty nat 0 2 (fun i => Some i) schedule3). reflexivity.
Defined.
